(** * Osmium PBF streaming pipeline: a shallow embedding

    The development follows the C++ headers of the repository:

    - [include/osmium/thread/sorted_queue.hpp]  (module [SortedQueue])
    - [include/osmium/io/pbf_input.hpp]         (modules [Pbf], [BlobParser],
                                                 [HeaderBlobParser], [PBFInput])
    - [include/osmium/io/header.hpp]            (record [Header.t])
    - [include/osmium/io/writer.hpp]            (module [Writer])

    Machine integers are kept in [Z] with the wrap-around of their C++ type
    written out; containers are lists with stdpp's lookup, insert and resize.
    The first part of the file holds the models, the second part the
    theorems about them. *)

From stdpp Require Import base tactics option list numbers strings pretty gmap.
From Stdlib Require Strings.Byte.
From Stdlib Require Import ZArith Lia Ascii.

Local Open Scope Z_scope.

(** ** Machine integers *)

Module Int.

(** An unsigned integer of [w] bits. *)
Definition wrap_unsigned (w z : Z) : Z := z mod 2 ^ w.

(** A signed integer of [w] bits in two's complement. *)
Definition wrap_signed (w z : Z) : Z := (z + 2 ^ (w - 1)) mod 2 ^ w - 2 ^ (w - 1).

(** [size_t], [unsigned long] and [uint64_t] on the LP64 targets. *)
Definition size_t (z : Z) : Z := wrap_unsigned 64 z.
Definition uint64 (z : Z) : Z := wrap_unsigned 64 z.
Definition int64 (z : Z) : Z := wrap_signed 64 z.
Definition int32 (z : Z) : Z := wrap_signed 32 z.

Definition is_size_t (z : Z) : Prop := 0 ≤ z < 2 ^ 64.
Definition is_int64 (z : Z) : Prop := - 2 ^ 63 ≤ z < 2 ^ 63.
Definition is_int32 (z : Z) : Prop := - 2 ^ 31 ≤ z < 2 ^ 31.

End Int.

(** ** [osmium::thread::SortedQueue<T>] *)

Module SortedQueue.

(** What the template asks of [T]: a default constructor and a comparison
    with the default-constructed value ([m_queue.front() == T()]). *)
Class Sentinel (T : Type) := {
  T_default : T;
  eq_default : T → bool;
  eq_default_default : eq_default T_default = true
}.

Section queue.
Context {T : Type} `{Sentinel T}.

(** The data members; the mutex and the condition variable are the atomicity
    of the calls below: every member function holds [m_mutex] for its whole
    body, so a concurrent execution is a sequence of complete calls. *)
Record t := mk {
  m_queue : list T;
  m_offset : Z
}.

(** [SortedQueue() : m_queue(1), m_offset(0)] *)
Definition init : t := mk [T_default] 0.

(** How a call ends. [Blocks]: the calling thread stays in
    [m_data_available.wait]. [Undefined]: the call has no defined behaviour
    ([front()] of an empty deque, [operator[]] past the end). *)
Inductive outcome (A : Type) :=
  | Returns (a : A) (q : t)
  | Blocks
  | Undefined.
Global Arguments Returns {A} a q.
Global Arguments Blocks {A}.
Global Arguments Undefined {A}.

(** [bool empty_intern() const { return m_queue.front() == T(); }] *)
Definition empty_intern (q : t) : option bool :=
  match m_queue q with
  | [] => None
  | x :: _ => Some (eq_default x)
  end.

(** [void push(T value, size_type num)] *)
Definition push (value : T) (num : Z) (q : t) : outcome unit :=
  let num := Int.size_t (num - m_offset q) in
  let queue :=
    if bool_decide (Z.of_nat (length (m_queue q)) ≤ Int.size_t (num + 1))
    then resize (Z.to_nat (Int.size_t (num + 2))) T_default (m_queue q)
    else m_queue q in
  if bool_decide (num < Z.of_nat (length queue))
  then Returns () (mk (<[Z.to_nat num := value]> queue) (m_offset q))
  else Undefined.

(** The three statements shared by both pops:
    [value = std::move(m_queue.front()); m_queue.pop_front(); ++m_offset;] *)
Definition pop_front (q : t) : option (T * t) :=
  match m_queue q with
  | [] => None
  | x :: rest => Some (x, mk rest (Int.size_t (m_offset q + 1)))
  end.

(** [void wait_and_pop(T& value)] *)
Definition wait_and_pop (q : t) : outcome T :=
  match empty_intern q with
  | None => Undefined
  | Some true => Blocks
  | Some false =>
      match pop_front q with
      | Some (value, q') => Returns value q'
      | None => Undefined
      end
  end.

(** [bool try_pop(T& value)]: the result is [None] for [false] and the
    value assigned through the reference for [true]. *)
Definition try_pop (q : t) : outcome (option T) :=
  match empty_intern q with
  | None => Undefined
  | Some true => Returns None q
  | Some false =>
      match pop_front q with
      | Some (value, q') => Returns (Some value) q'
      | None => Undefined
      end
  end.

(** [bool empty() const] *)
Definition empty (q : t) : option bool := empty_intern q.

(** [size_t size() const] *)
Definition size (q : t) : Z := Z.of_nat (length (m_queue q)).

(** *** Sequences of calls *)

Inductive call :=
  | Push (value : T) (num : Z)
  | WaitAndPop
  | TryPop.

(** One call: the value it hands out, if any, and the next state. *)
Definition exec (c : call) (q : t) : outcome (option T) :=
  match c with
  | Push value num =>
      match push value num q with
      | Returns _ q' => Returns None q'
      | Blocks => Blocks
      | Undefined => Undefined
      end
  | WaitAndPop =>
      match wait_and_pop q with
      | Returns value q' => Returns (Some value) q'
      | Blocks => Blocks
      | Undefined => Undefined
      end
  | TryPop => try_pop q
  end.

(** A sequence of calls that all return: the final state and the values
    handed out, in the order of the pops. *)
Fixpoint run (calls : list call) (q : t) : option (t * list T) :=
  match calls with
  | [] => Some (q, [])
  | c :: calls' =>
      match exec c q with
      | Returns o q' =>
          match run calls' q' with
          | Some (q'', outs) => Some (q'', option_list o ++ outs)
          | None => None
          end
      | _ => None
      end
  end.

(** The sequence numbers of the pushes of a call sequence, and the value
    pushed under each. *)
Definition push_nums (calls : list call) : list Z :=
  omap (λ c, match c with Push _ num => Some num | _ => None end) calls.

Fixpoint pushed (calls : list call) : gmap Z T :=
  match calls with
  | [] => ∅
  | Push value num :: calls' => <[num := value]> (pushed calls')
  | _ :: calls' => pushed calls'
  end.

(** The precondition of [push]: [num] is a [size_type], "it must increase
    monotonically" (every number is handed to one push only), and no value
    compares equal to [T()]. *)
Definition push_ok (c : call) : Prop :=
  match c with
  | Push value num => Int.is_size_t num ∧ eq_default value = false
  | _ => True
  end.

Definition well_used (calls : list call) : Prop :=
  Forall push_ok calls ∧ NoDup (push_nums calls).

(** *** What the theorems say of a queue *)

(** The slot of sequence number [n] holds the value pushed under [n], or the
    default-constructed value when nothing was pushed under it. *)
Definition slot_value (P : gmap Z T) (n : Z) : T := default T_default (P !! n).

(** The state after [k] pops, when [P] is what has been pushed so far. *)
Record queue_inv (P : gmap Z T) (k : Z) (q : t) : Prop := {
  inv_popped_count : 0 ≤ k ≤ 2 ^ 64;
  inv_offset : m_offset q = Int.size_t k;
  inv_size : 1 ≤ Z.of_nat (length (m_queue q)) < 2 ^ 64;
  inv_slots : ∀ (i : nat) x,
    m_queue q !! i = Some x → x = slot_value P (k + Z.of_nat i);
  inv_pushed : ∀ n v,
    P !! n = Some v →
    Int.is_size_t n ∧ eq_default v = false ∧
    n + 1 < k + Z.of_nat (length (m_queue q));
  inv_popped : ∀ n, 0 ≤ n < k → is_Some (P !! n)
}.

End queue.

Global Arguments t T : clear implicits.
Global Arguments call T : clear implicits.

End SortedQueue.

(** ** Failures *)

(** What the C++ code throws, and the two ways it can leave defined
    behaviour behind. *)
Inductive failure :=
  | runtime_error (what : string)        (* [throw std::runtime_error(what)] *)
  | io_error (what : string)             (* [throw io_error(what)] *)
  | buffer_is_full                       (* [throw osmium::buffer_is_full()] *)
  | bad_array_new_length                 (* thrown by [new T[n]] for an [n] past the limit *)
  | assertion_failed                     (* [assert(...)] *)
  | index_out_of_range.                  (* [Get(index)] with no such element *)

Definition result (A : Type) : Type := failure + A.
Abbreviation Ok := inr (only parsing).
Abbreviation Fail := inl (only parsing).

Global Instance result_ret : MRet result := λ A a, inr a.
Global Instance result_bind : MBind result := λ A B f m,
  match m with
  | inl e => inl e
  | inr a => f a
  end.

(** A [for] loop over the elements of [l] that threads a state and stops at
    the first failure. *)
Fixpoint for_each {A S : Type} (body : A → S → result S) (l : list A) (s : S) :
    result S :=
  match l with
  | [] => Ok s
  | a :: l' => s' ← body a s; for_each body l' s'
  end.

(** ** The PrimitiveBlock decoder ([PBFPrimitiveBlockParser]) *)

Module Pbf.

(** *** Input: the messages of osmformat.proto, as the accessors of the
    generated classes return them. An optional sub-message or field the code
    tests with [has_...] is an [option]; a repeated field is a list. *)

Record Info := {
  info_version : Z;
  info_timestamp : Z;
  info_changeset : Z;
  info_uid : Z;
  info_user_sid : Z;
  info_visible : option bool
}.

Record Node := {
  node_id : Z;
  node_keys : list Z;
  node_vals : list Z;
  node_info : option Info;
  node_lat : Z;
  node_lon : Z
}.

Record Way := {
  way_id : Z;
  way_keys : list Z;
  way_vals : list Z;
  way_info : option Info;
  way_refs : list Z
}.

Inductive MemberType := NODE | WAY | RELATION.

Record Relation := {
  relation_id : Z;
  relation_keys : list Z;
  relation_vals : list Z;
  relation_info : option Info;
  relation_roles_sid : list Z;
  relation_memids : list Z;
  relation_types : list MemberType
}.

Record DenseInfo := {
  denseinfo_version : list Z;
  denseinfo_timestamp : list Z;
  denseinfo_changeset : list Z;
  denseinfo_uid : list Z;
  denseinfo_user_sid : list Z;
  denseinfo_visible : list bool
}.

Record DenseNodes := {
  dense_id : list Z;
  dense_denseinfo : option DenseInfo;
  dense_lat : list Z;
  dense_lon : list Z;
  dense_keys_vals : list Z
}.

Record PrimitiveGroup := {
  group_nodes : list Node;
  group_dense : option DenseNodes;
  group_ways : list Way;
  group_relations : list Relation
}.

Record PrimitiveBlock := {
  block_stringtable : list string;
  block_primitivegroup : list PrimitiveGroup;
  block_granularity : Z;
  block_lat_offset : Z;
  block_lon_offset : Z;
  block_date_granularity : Z
}.

(** *** Output: the entities the builders append to the buffer. *)

(** Modelled from the spec: [osmium::Location] (osm/location.hpp is not among
    the sources). "A pair of fixed-point integers (lon, lat)"; a "sentinel
    value undefined distinguishes missing coordinates", and it is what a
    default-constructed location holds. [Location x y] keeps the two
    arguments of the constructor call. *)
Inductive Location :=
  | Location_undefined
  | Location_xy (x y : Z).

(** Modelled from the spec: the entity-kind discriminant a relation member
    carries. *)
Inductive item_type := item_node | item_way | item_relation.

(** Modelled from the spec: [osmpbf_membertype_to_item_type]; "relation
    member types map from the PBF enum {NODE=0, WAY=1, RELATION=2} to the
    entity-kind discriminant". *)
Definition osmpbf_membertype_to_item_type (mt : MemberType) : item_type :=
  match mt with
  | NODE => item_node
  | WAY => item_way
  | RELATION => item_relation
  end.

(** The fixed header of an entity: each field holds the argument of the
    setter call that wrote it ([uid] that of [uid_from_signed]), [user] the
    string handed to [add_user], [tags] the pairs handed to [add_tag]. *)
Record OSMObject := {
  id : Z;
  version : Z;
  changeset : Z;
  timestamp : Z;
  uid : Z;
  visible : bool;
  user : string;
  tags : list (string * string)
}.

Record RelationMember := {
  member_type : item_type;
  member_ref : Z;
  member_role : string
}.

Inductive entity :=
  | a_node (o : OSMObject) (location : Location)
  | a_way (o : OSMObject) (nodes : list Z)
  | a_relation (o : OSMObject) (members : list RelationMember).

Definition object_of (e : entity) : OSMObject :=
  match e with
  | a_node o _ | a_way o _ | a_relation o _ => o
  end.

(** Modelled from the spec: the object a builder constructs before any
    setter runs ("Info block absent ⇒ version=0, visible=true, empty user
    string"), with the [add_user] call that every path makes. *)
Definition new_object (user_name : string) : OSMObject :=
  {| id := 0; version := 0; changeset := 0; timestamp := 0; uid := 0;
     visible := true; user := user_name; tags := [] |}.

(** [read_types]: the [item_flags_type] bit mask. Modelled from the spec
    ("a read_types bitmask {node, way, relation, changeset}"); the bit of
    each flag is that of the library's osm/item_type.hpp. *)
Definition item_flags_nothing : Z := 0.
Definition item_flags_node : Z := 1.
Definition item_flags_way : Z := 2.
Definition item_flags_relation : Z := 4.
Definition item_flags_changeset : Z := 8.

Definition has_flag (read_types flag : Z) : bool :=
  negb (Z.land read_types flag =? 0).

(** Constants of osmpbf.h and osm/location.hpp, as the spec gives them:
    "lonlat_resolution = 10⁹; internal precision 10⁷". *)
Definition lonlat_resolution : Z := 1000 * 1000 * 1000.
Definition coordinate_precision : Z := 10000000.

(** The members the parser sets at the start of [operator()]. *)
Record parser := {
  m_stringtable : list string;
  m_lon_offset : Z;
  m_lat_offset : Z;
  m_date_factor : Z;
  m_granularity : Z;
  m_read_types : Z
}.

(** [.data()] hands a C string on: it ends at the first NUL. *)
Fixpoint c_str (s : string) : string :=
  match s with
  | EmptyString => EmptyString
  | String c s' => if Ascii.eqb c "000"%char then EmptyString else String c (c_str s')
  end.

(** [m_stringtable->s(index).data()]; the accessor takes an [int]. *)
Definition stringtable_s (p : parser) (index : Z) : result string :=
  let index := Int.int32 index in
  if bool_decide (0 ≤ index)
  then match m_stringtable p !! Z.to_nat index with
       | Some s => Ok (c_str s)
       | None => Fail index_out_of_range
       end
  else Fail index_out_of_range.

(** [field(i)] of a repeated field. *)
Definition get {A : Type} (field : list A) (i : nat) : result A :=
  match field !! i with
  | Some a => Ok a
  | None => Fail index_out_of_range
  end.

(** The location of a visible node. *)
Definition make_location (p : parser) (lon lat : Z) : Location :=
  Location_xy
    (Int.int64 (Int.int64 (lon * m_granularity p) + m_lon_offset p)
       `quot` (lonlat_resolution `quot` coordinate_precision))
    (Int.int64 (Int.int64 (lat * m_granularity p) + m_lat_offset p)
       `quot` (lonlat_resolution `quot` coordinate_precision)).

(** The block the three group parsers share word for word: the header
    fields from [info()] when [has_info()], [add_user("")] otherwise. *)
Definition object_with_info (p : parser) (object_id : Z) (info : option Info) :
    result OSMObject :=
  match info with
  | Some i =>
      user_name ← stringtable_s p (info_user_sid i);
      Ok {| id := object_id;
            version := info_version i;
            changeset := info_changeset i;
            timestamp := Int.int64 (info_timestamp i * m_date_factor p);
            uid := info_uid i;
            visible := match info_visible i with
                       | Some v => v
                       | None => true
                       end;
            user := user_name;
            tags := [] |}
  | None =>
      Ok {| id := object_id; version := 0; changeset := 0; timestamp := 0;
            uid := 0; visible := true; user := EmptyString; tags := [] |}
  end.

Definition with_tags (o : OSMObject) (tl : list (string * string)) : OSMObject :=
  {| id := id o; version := version o; changeset := changeset o;
     timestamp := timestamp o; uid := uid o; visible := visible o;
     user := user o; tags := tl |}.

(** [for (tag = 0; tag < keys_size(); ++tag) add_tag(s(keys(tag)), s(vals(tag)))] *)
Fixpoint add_tag_loop (p : parser) (keys vals : list Z) : result (list (string * string)) :=
  match keys with
  | [] => Ok []
  | k :: keys' =>
      match vals with
      | [] => Fail index_out_of_range
      | v :: vals' =>
          key ← stringtable_s p k;
          val ← stringtable_s p v;
          rest ← add_tag_loop p keys' vals';
          Ok ((key, val) :: rest)
      end
  end.

(** [void parse_node_group(const OSMPBF::PrimitiveGroup& group)] *)
Definition parse_node (p : parser) (pbf_node : Node) : result entity :=
  node ← object_with_info p (node_id pbf_node) (node_info pbf_node);
  let location :=
    if visible node
    then make_location p (node_lon pbf_node) (node_lat pbf_node)
    else Location_undefined in
  tl ← add_tag_loop p (node_keys pbf_node) (node_vals pbf_node);
  Ok (a_node (with_tags node tl) location).

Definition parse_node_group (p : parser) (group : PrimitiveGroup)
    (m_buffer : list entity) : result (list entity) :=
  for_each (λ pbf_node buffer, node ← parse_node p pbf_node; Ok (buffer ++ [node]))
    (group_nodes group) m_buffer.

(** [uint64_t ref = 0; for (...) { ref += refs(i); add_way_node(ref); }] *)
Fixpoint way_nodes (ref : Z) (refs : list Z) : list Z :=
  match refs with
  | [] => []
  | delta :: refs' =>
      let ref := Int.uint64 (ref + delta) in
      Int.int64 ref :: way_nodes ref refs'
  end.

(** [void parse_way_group(const OSMPBF::PrimitiveGroup& group)] *)
Definition parse_way (p : parser) (pbf_way : Way) : result entity :=
  way ← object_with_info p (way_id pbf_way) (way_info pbf_way);
  tl ← add_tag_loop p (way_keys pbf_way) (way_vals pbf_way);
  Ok (a_way (with_tags way tl) (way_nodes 0 (way_refs pbf_way))).

Definition parse_way_group (p : parser) (group : PrimitiveGroup)
    (m_buffer : list entity) : result (list entity) :=
  for_each (λ pbf_way buffer, way ← parse_way p pbf_way; Ok (buffer ++ [way]))
    (group_ways group) m_buffer.

(** [for (i = 0; i < types_size(); ++i) { ref += memids(i); add_member(...); }] *)
Fixpoint relation_members (p : parser) (pbf_relation : Relation) (ref : Z)
    (i : nat) (types : list MemberType) : result (list RelationMember) :=
  match types with
  | [] => Ok []
  | type :: types' =>
      memid ← get (relation_memids pbf_relation) i;
      let ref := Int.uint64 (ref + memid) in
      role_sid ← get (relation_roles_sid pbf_relation) i;
      role ← stringtable_s p role_sid;
      rest ← relation_members p pbf_relation ref (S i) types';
      Ok ({| member_type := osmpbf_membertype_to_item_type type;
             member_ref := Int.int64 ref;
             member_role := role |} :: rest)
  end.

(** [void parse_relation_group(const OSMPBF::PrimitiveGroup& group)] *)
Definition parse_relation (p : parser) (pbf_relation : Relation) : result entity :=
  relation ← object_with_info p (relation_id pbf_relation) (relation_info pbf_relation);
  members ← relation_members p pbf_relation 0 0 (relation_types pbf_relation);
  tl ← add_tag_loop p (relation_keys pbf_relation) (relation_vals pbf_relation);
  Ok (a_relation (with_tags relation tl) members).

Definition parse_relation_group (p : parser) (group : PrimitiveGroup)
    (m_buffer : list entity) : result (list entity) :=
  for_each
    (λ pbf_relation buffer,
       relation ← parse_relation p pbf_relation; Ok (buffer ++ [relation]))
    (group_relations group) m_buffer.

(** The [while] loop of [add_tags], on the part of [keys_vals] from the
    cursor on: the number of indices it consumes and the tags it adds. *)
Fixpoint add_tags_loop (p : parser) (keys_vals_from_n : list Z) :
    result (nat * list (string * string)) :=
  match keys_vals_from_n with
  | [] => Ok (0%nat, [])                            (* [n < keys_vals_size()] fails *)
  | tag_key_pos :: rest =>                          (* [keys_vals(n++)] *)
      if bool_decide (tag_key_pos = 0)
      then Ok (1%nat, [])                           (* [break] *)
      else
        match rest with
        | [] => Fail index_out_of_range             (* [keys_vals(n)] past the end *)
        | tag_val_pos :: rest' =>
            key ← stringtable_s p tag_key_pos;
            val ← stringtable_s p tag_val_pos;
            '(consumed, tl) ← add_tags_loop p rest';
            Ok (S (S consumed), (key, val) :: tl)   (* [++n] *)
        end
  end.

(** [int add_tags(const OSMPBF::DenseNodes& dense, int n, NodeBuilder* builder)]:
    the new cursor and the tags of the node (none: no tag list is built). *)
Definition add_tags (p : parser) (dense : DenseNodes) (n : nat) :
    result (nat * list (string * string)) :=
  match dense_keys_vals dense !! n with
  | None => Ok (n, [])                              (* [n >= keys_vals_size()] *)
  | Some first =>
      if bool_decide (first = 0)
      then Ok (S n, [])
      else
        '(consumed, tl) ← add_tags_loop p (drop n (dense_keys_vals dense));
        Ok ((n + consumed)%nat, tl)
  end.

(** The running sums of [parse_dense_node_group]. *)
Record dense_state := {
  last_dense_id : Z;
  last_dense_latitude : Z;
  last_dense_longitude : Z;
  last_dense_uid : Z;
  last_dense_user_sid : Z;
  last_dense_changeset : Z;
  last_dense_timestamp : Z;
  last_dense_tag : nat
}.

Definition dense_state_init : dense_state :=
  {| last_dense_id := 0; last_dense_latitude := 0; last_dense_longitude := 0;
     last_dense_uid := 0; last_dense_user_sid := 0; last_dense_changeset := 0;
     last_dense_timestamp := 0; last_dense_tag := 0 |}.

(** One turn of the loop of [parse_dense_node_group]: node [i]. *)
Definition parse_dense_node (p : parser) (dense : DenseNodes) (i : nat)
    (st : dense_state) : result (dense_state * entity) :=
  delta_id ← get (dense_id dense) i;
  delta_lat ← get (dense_lat dense) i;
  delta_lon ← get (dense_lon dense) i;
  let last_id := Int.int64 (last_dense_id st + delta_id) in
  let last_latitude := Int.int64 (last_dense_latitude st + delta_lat) in
  let last_longitude := Int.int64 (last_dense_longitude st + delta_lon) in
  '(st', node) ←
    match dense_denseinfo dense with
    | Some denseinfo =>
        delta_changeset ← get (denseinfo_changeset denseinfo) i;
        delta_timestamp ← get (denseinfo_timestamp denseinfo) i;
        delta_uid ← get (denseinfo_uid denseinfo) i;
        delta_user_sid ← get (denseinfo_user_sid denseinfo) i;
        let last_changeset := Int.int64 (last_dense_changeset st + delta_changeset) in
        let last_timestamp := Int.int64 (last_dense_timestamp st + delta_timestamp) in
        let last_uid := Int.int64 (last_dense_uid st + delta_uid) in
        let last_user_sid := Int.int64 (last_dense_user_sid st + delta_user_sid) in
        is_visible ←
          match denseinfo_visible denseinfo with
          | [] => Ok true
          | _ => get (denseinfo_visible denseinfo) i
          end;
        node_version ← get (denseinfo_version denseinfo) i;
        user_name ← stringtable_s p last_user_sid;
        Ok ({| last_dense_id := last_id;
               last_dense_latitude := last_latitude;
               last_dense_longitude := last_longitude;
               last_dense_uid := last_uid;
               last_dense_user_sid := last_user_sid;
               last_dense_changeset := last_changeset;
               last_dense_timestamp := last_timestamp;
               last_dense_tag := last_dense_tag st |},
            {| id := last_id;
               version := node_version;
               changeset := last_changeset;
               timestamp := Int.int64 (last_timestamp * m_date_factor p);
               uid := last_uid;
               visible := is_visible;
               user := user_name;
               tags := [] |})
    | None =>
        Ok ({| last_dense_id := last_id;
               last_dense_latitude := last_latitude;
               last_dense_longitude := last_longitude;
               last_dense_uid := last_dense_uid st;
               last_dense_user_sid := last_dense_user_sid st;
               last_dense_changeset := last_dense_changeset st;
               last_dense_timestamp := last_dense_timestamp st;
               last_dense_tag := last_dense_tag st |},
            {| id := last_id; version := 0; changeset := 0; timestamp := 0;
               uid := 0; visible := true; user := EmptyString; tags := [] |})
    end;
  let location :=
    if visible node
    then make_location p last_longitude last_latitude
    else Location_undefined in
  '(n, tl) ← add_tags p dense (last_dense_tag st');
  Ok ({| last_dense_id := last_dense_id st';
         last_dense_latitude := last_dense_latitude st';
         last_dense_longitude := last_dense_longitude st';
         last_dense_uid := last_dense_uid st';
         last_dense_user_sid := last_dense_user_sid st';
         last_dense_changeset := last_dense_changeset st';
         last_dense_timestamp := last_dense_timestamp st';
         last_dense_tag := n |},
      a_node (with_tags node tl) location).

(** [void parse_dense_node_group(const OSMPBF::PrimitiveGroup& group)] *)
Definition dense_nodes_loop (p : parser) (dense : DenseNodes) (indices : list nat)
    (st : dense_state) (m_buffer : list entity) : result (dense_state * list entity) :=
  for_each
    (λ i '(st, buffer),
       '(st', node) ← parse_dense_node p dense i st; Ok (st', buffer ++ [node]))
    indices (st, m_buffer).

Definition parse_dense_node_group (p : parser) (dense : DenseNodes)
    (m_buffer : list entity) : result (list entity) :=
  '(_, buffer) ←
    dense_nodes_loop p dense (seq 0 (length (dense_id dense))) dense_state_init m_buffer;
  Ok buffer.

(** One turn of the loop over the groups in [operator()]. *)
Definition parse_group (p : parser) (group : PrimitiveGroup)
    (m_buffer : list entity) : result (list entity) :=
  match group_dense group with
  | Some dense =>
      if has_flag (m_read_types p) item_flags_node
      then parse_dense_node_group p dense m_buffer else Ok m_buffer
  | None =>
      if bool_decide (group_ways group ≠ [])
      then
        if has_flag (m_read_types p) item_flags_way
        then parse_way_group p group m_buffer else Ok m_buffer
      else if bool_decide (group_relations group ≠ [])
      then
        if has_flag (m_read_types p) item_flags_relation
        then parse_relation_group p group m_buffer else Ok m_buffer
      else if bool_decide (group_nodes group ≠ [])
      then
        if has_flag (m_read_types p) item_flags_node
        then parse_node_group p group m_buffer else Ok m_buffer
      else Fail (runtime_error "Group of unknown type.")
  end.

(** The members after the assignments at the start of [operator()]. *)
Definition parser_for (block : PrimitiveBlock) (read_types : Z) : parser :=
  {| m_stringtable := block_stringtable block;
     m_lon_offset := block_lon_offset block;
     m_lat_offset := block_lat_offset block;
     m_date_factor := block_date_granularity block `quot` 1000;
     m_granularity := block_granularity block;
     m_read_types := read_types |}.

(** [osmium::memory::Buffer operator()()], given what [ParseFromArray] made
    of the data ([None]: it returned false). *)
Definition parse_primitive_block (parsed : option PrimitiveBlock) (read_types : Z) :
    result (list entity) :=
  match parsed with
  | None => Fail (runtime_error "Failed to parse PrimitiveBlock.")
  | Some block =>
      for_each (parse_group (parser_for block read_types))
        (block_primitivegroup block) []
  end.

(** *** What the theorems say of the decoder *)

(** The loop of [parse_dense_node_group], turn by turn. *)
Inductive dense_turns (p : parser) (dense : DenseNodes) :
    list nat → dense_state → list entity → dense_state → Prop :=
  | dense_turns_nil st : dense_turns p dense [] st [] st
  | dense_turns_cons i indices st st1 e es st2 :
      parse_dense_node p dense i st = Ok (st1, e) →
      dense_turns p dense indices st1 es st2 →
      dense_turns p dense (i :: indices) st (e :: es) st2.

(** The indices of a node's tags as [keys_vals] lists them: key, value,
    key, value, ... *)
Definition flat_pairs (ps : list (Z * Z)) : list Z :=
  concat ((λ kv, [kv.1; kv.2]) <$> ps).

(** [keys_vals] for nodes whose tags have the index pairs [chunks], each
    node closed by the 0 sentinel. *)
Definition dense_keys_vals_of (chunks : list (list (Z * Z))) : list Z :=
  concat ((λ ps, flat_pairs ps ++ [0]) <$> chunks).

Definition key_nonzero (kv : Z * Z) : Prop := kv.1 ≠ 0.

(** The scenario S2 of the spec. *)
Definition s2_stringtable : list string := [""; "a"; "b"; "c"; "d"]%string.

Definition s2_dense : DenseNodes :=
  {| dense_id := [10; 1; 1]; dense_denseinfo := None;
     dense_lat := [0; 200; 50]; dense_lon := [0; 100; -150];
     dense_keys_vals := [1; 2; 0; 0; 3; 4; 0] |}.

Definition s2_block : PrimitiveBlock :=
  {| block_stringtable := s2_stringtable;
     block_primitivegroup :=
       [{| group_nodes := []; group_dense := Some s2_dense;
           group_ways := []; group_relations := [] |}];
     block_granularity := 100; block_lat_offset := 0; block_lon_offset := 0;
     block_date_granularity := 1000 |}.

(** What C5 says of one node. *)
Definition invisible_without_location (e : entity) : Prop :=
  match e with
  | a_node o location => visible o = false → location = Location_undefined
  | _ => True
  end.

(** A block whose [date_granularity] is below 1000 and whose timestamps
    do not decode to 0: one plain node with the PBF timestamp 5. *)
Definition negative_granularity_block : PrimitiveBlock :=
  {| block_stringtable := [""; "u"]%string;
     block_primitivegroup :=
       [{| group_nodes :=
             [{| node_id := 1; node_keys := []; node_vals := [];
                 node_info := Some {| info_version := 1; info_timestamp := 5;
                                      info_changeset := 1; info_uid := 1;
                                      info_user_sid := 1; info_visible := None |};
                 node_lat := 0; node_lon := 0 |}];
           group_dense := None; group_ways := []; group_relations := [] |}];
     block_granularity := 100; block_lat_offset := 0; block_lon_offset := 0;
     block_date_granularity := -1000 |}.

(** The sum of the first [n] deltas of a delta-coded field, and the value
    of element [i]: the sum of the deltas up to its own. *)
Definition sum_of_first (n : nat) (deltas : list Z) : Z :=
  foldr Z.add 0 (take n deltas).

Definition running_sum (deltas : list Z) (i : nat) : Z :=
  sum_of_first (S i) deltas.

(** The tags [tl] are the strings of [keys] and [vals], index by index. *)
Definition paired_tags (p : parser) (keys vals : list Z)
    (tl : list (string * string)) : Prop :=
  length tl = length keys ∧
  ∀ (i : nat) kv, tl !! i = Some kv →
    ∃ k v, keys !! i = Some k ∧ vals !! i = Some v ∧
      stringtable_s p k = Ok kv.1 ∧ stringtable_s p v = Ok kv.2.

(** The bit of [read_types] that asks for an entity. *)
Definition entity_flag (e : entity) : Z :=
  match e with
  | a_node _ _ => item_flags_node
  | a_way _ _ => item_flags_way
  | a_relation _ _ => item_flags_relation
  end.

(** A group without dense nodes, ways, relations and nodes. *)
Definition group_of_unknown_type (group : PrimitiveGroup) : Prop :=
  group_dense group = None ∧ group_ways group = [] ∧
  group_relations group = [] ∧ group_nodes group = [].

(** The NUL character, and the strings that hold one. *)
Definition NUL : ascii := "000"%char.

Fixpoint has_NUL (s : string) : bool :=
  match s with
  | EmptyString => false
  | String c s' => Ascii.eqb c NUL || has_NUL s'
  end.

End Pbf.

(** ** Code that throws after it has changed an object *)

(** A member function that works on an object of type [S] it holds by
    reference: the object as the call leaves it comes with the result, also
    when the call throws. *)
Definition action (S A : Type) : Type := S → result A * S.

Global Instance action_ret {S} : MRet (action S) := λ A a s, (Ok a, s).
Global Instance action_bind {S} : MBind (action S) := λ A B f m s,
  match m s with
  | (inl e, s') => (Fail e, s')
  | (inr a, s') => f a s'
  end.

Definition throw {S A} (e : failure) : action S A := λ s, (Fail e, s).
Definition modify {S} (f : S → S) : action S unit := λ s, (Ok (), f s).

Fixpoint for_each_do {S A : Type} (body : A → action S unit) (l : list A) :
    action S unit :=
  match l with
  | [] => mret ()
  | a :: l' => body a;; for_each_do body l'
  end.

(** ** The messages of fileformat.proto and the header block *)

Definition bytes : Type := list Byte.byte.

Module Fileformat.

Record BlobHeader := {
  blobheader_type : string;
  blobheader_datasize : Z
}.

Record Blob := {
  blob_raw : option bytes;
  blob_raw_size : Z;
  blob_zlib_data : option bytes;
  blob_lzma_data : option bytes
}.

Record HeaderBBox := {
  bbox_left : Z;
  bbox_right : Z;
  bbox_top : Z;
  bbox_bottom : Z
}.

Record HeaderBlock := {
  headerblock_bbox : option HeaderBBox;
  headerblock_required_features : list string;
  headerblock_writingprogram : option string
}.

(** Constants of osmpbf.h, as the spec gives them: a BlobHeader has at most
    64 KiB, an uncompressed blob at most 32 MiB. *)
Definition max_blob_header_size : Z := 64 * 1024.
Definition max_uncompressed_blob_size : Z := 32 * 1024 * 1024.

End Fileformat.

(** The libraries the code calls: protobuf's [ParseFromArray] of each
    message class ([None]: it returned false), and zlib's inflation of a
    whole stream ([None]: the stream is corrupt). *)
Class Protobuf := {
  BlobHeader_ParseFromArray : bytes → option Fileformat.BlobHeader;
  Blob_ParseFromArray : bytes → option Fileformat.Blob;
  HeaderBlock_ParseFromArray : bytes → option Fileformat.HeaderBlock;
  PrimitiveBlock_ParseFromArray : bytes → option Pbf.PrimitiveBlock
}.

Class Zlib := {
  inflate : bytes → option bytes
}.

(** zlib's [uncompress(dest, &destLen, source, sourceLen)] as zlib.h
    documents it: [Z_OK] with the data and its length in [destLen] when the
    stream inflates into the [destLen] bytes of [dest], [Z_BUF_ERROR] when
    it does not fit, [Z_DATA_ERROR] when it is corrupt. *)
Inductive zlib_status := Z_OK | Z_BUF_ERROR | Z_DATA_ERROR.

Global Instance zlib_status_eq_dec : EqDecision zlib_status.
Proof. solve_decision. Defined.

Definition uncompress `{Zlib} (destLen : Z) (source : bytes) : zlib_status * bytes :=
  match inflate source with
  | None => (Z_DATA_ERROR, [])
  | Some data =>
      if bool_decide (Z.of_nat (length data) ≤ destLen)
      then (Z_OK, data) else (Z_BUF_ERROR, [])
  end.

(** ** [osmium::io::Header] *)

Module Header.

(** [m_has_multiple_object_versions] is the member of header.hpp; the other
    three are the members behind the calls [pbf_has_dense_nodes(bool)],
    [generator(string)] and [bounds().extend(Location)] that pbf_input.hpp
    makes ([bounds] keeps the locations it was extended by, in order). *)
Record t := mk {
  has_multiple_object_versions : bool;
  pbf_has_dense_nodes : bool;
  generator : string;
  bounds : list Pbf.Location
}.

Definition set_has_multiple_object_versions (h : bool) (header : t) : t :=
  mk h (pbf_has_dense_nodes header) (generator header) (bounds header).

Definition set_pbf_has_dense_nodes (h : bool) (header : t) : t :=
  mk (has_multiple_object_versions header) h (generator header) (bounds header).

Definition set_generator (g : string) (header : t) : t :=
  mk (has_multiple_object_versions header) (pbf_has_dense_nodes header) g (bounds header).

Definition bounds_extend (l : Pbf.Location) (header : t) : t :=
  mk (has_multiple_object_versions header) (pbf_has_dense_nodes header)
    (generator header) (bounds header ++ [l]).

End Header.

(** ** [BlobParser<TDerived>] and its two derived classes *)

Module BlobParser.

Section blob_parser.
Context `{Protobuf} `{Zlib}.

(** Whether [assert] is compiled out. *)
Context (NDEBUG : bool).

(** [TDerived::handle_blob], working on the object the derived class holds
    by reference. *)
Context {S : Type} (handle_blob : bytes → action S unit).

(** The largest array [new unsigned char[n]] accepts. *)
Definition PTRDIFF_MAX : Z := 2 ^ 63 - 1.

(** [void operator()()] *)
Definition call (m_input_buffer : bytes) : action S unit :=
  match Blob_ParseFromArray m_input_buffer with
  | None => throw (runtime_error "failed to parse blob")
  | Some pbf_blob =>
      match Fileformat.blob_raw pbf_blob with
      | Some raw => handle_blob raw
      | None =>
          match Fileformat.blob_zlib_data pbf_blob with
          | Some zlib_data =>
              let raw_size := Int.size_t (Fileformat.blob_raw_size pbf_blob) in
              if negb NDEBUG &&
                 negb (bool_decide (raw_size ≤ Fileformat.max_uncompressed_blob_size))
              then throw assertion_failed
              else if bool_decide (PTRDIFF_MAX < raw_size)
              then throw bad_array_new_length
              else
                let '(status, unpack_buffer) := uncompress raw_size zlib_data in
                let raw_size := Z.of_nat (length unpack_buffer) in
                if bool_decide (status ≠ Z_OK) ||
                   bool_decide (Fileformat.blob_raw_size pbf_blob ≠ Int.int64 raw_size)
                then throw (runtime_error "zlib error")
                else handle_blob unpack_buffer
          | None =>
              match Fileformat.blob_lzma_data pbf_blob with
              | Some _ => throw (runtime_error "lzma blobs not implemented")
              | None => throw (runtime_error "Blob contains no data")
              end
          end
      end
  end.

End blob_parser.

End BlobParser.

Module HeaderBlobParser.

Section header_blob_parser.
Context `{Protobuf} `{Zlib}.

(** The body of the loop over [required_features]. *)
Definition required_feature (feature : string) : action Header.t unit :=
  if bool_decide (feature = "OsmSchema-V0.6") then mret ()
  else if bool_decide (feature = "DenseNodes")
  then modify (Header.set_pbf_has_dense_nodes true)
  else if bool_decide (feature = "HistoricalInformation")
  then modify (Header.set_has_multiple_object_versions true)
  else throw (runtime_error ("Required feature not supported: " +:+ feature)).

Definition resolution_convert : Z :=
  Pbf.lonlat_resolution `quot` Pbf.coordinate_precision.

(** [void handle_blob(const void* data, const size_t size)] *)
Definition handle_blob (data : bytes) : action Header.t unit :=
  match HeaderBlock_ParseFromArray data with
  | None => throw (runtime_error "Failed to parse HeaderBlock.")
  | Some pbf_header_block =>
      for_each_do required_feature
        (Fileformat.headerblock_required_features pbf_header_block);;
      match Fileformat.headerblock_writingprogram pbf_header_block with
      | Some writingprogram => modify (Header.set_generator writingprogram)
      | None => mret ()
      end;;
      match Fileformat.headerblock_bbox pbf_header_block with
      | Some bbox =>
          modify (Header.bounds_extend
                    (Pbf.Location_xy
                       (Fileformat.bbox_left bbox `quot` resolution_convert)
                       (Fileformat.bbox_bottom bbox `quot` resolution_convert)));;
          modify (Header.bounds_extend
                    (Pbf.Location_xy
                       (Fileformat.bbox_right bbox `quot` resolution_convert)
                       (Fileformat.bbox_top bbox `quot` resolution_convert)))
      | None => mret ()
      end
  end.

(** [header_blob_parser()] *)
Definition call (NDEBUG : bool) (m_input_buffer : bytes) : action Header.t unit :=
  BlobParser.call NDEBUG handle_blob m_input_buffer.

End header_blob_parser.

(** *** What the theorems say of the header *)

(** The required features the parser knows. *)
Definition accepted_feature (feature : string) : Prop :=
  feature ∈ ["OsmSchema-V0.6"; "DenseNodes"; "HistoricalInformation"]%string.

(** The header after the loop over accepted features. *)
Definition with_features (features : list string) (header : Header.t) : Header.t :=
  Header.mk
    (Header.has_multiple_object_versions header ||
       bool_decide ("HistoricalInformation"%string ∈ features))
    (Header.pbf_has_dense_nodes header ||
       bool_decide ("DenseNodes"%string ∈ features))
    (Header.generator header) (Header.bounds header).

Global Instance accepted_feature_dec feature : Decision (accepted_feature feature).
Proof. unfold accepted_feature. apply _. Defined.

End HeaderBlobParser.

(** ** [osmium::memory::Buffer] *)

(** Modelled from the spec: [osmium::memory::Buffer] (memory/buffer.hpp is
    not among the sources). A default-constructed buffer owns no memory: it
    is the "empty Buffer" that "signals EOF" and the value an unfilled slot
    of the reorder queue holds. A buffer with memory has a capacity, grows
    or not, and holds the committed entities in order; it never compares
    equal to the default-constructed one. *)
Inductive Buffer :=
  | Buffer_invalid
  | Buffer_mem (capacity : Z) (auto_grow : bool) (items : list Pbf.entity).

Definition Buffer_valid (b : Buffer) : bool :=
  match b with
  | Buffer_invalid => false
  | Buffer_mem _ _ _ => true
  end.

Definition Buffer_items (b : Buffer) : list Pbf.entity :=
  match b with
  | Buffer_invalid => []
  | Buffer_mem _ _ items => items
  end.

Global Instance Buffer_sentinel : SortedQueue.Sentinel Buffer := {|
  SortedQueue.T_default := Buffer_invalid;
  SortedQueue.eq_default b := negb (Buffer_valid b);
  SortedQueue.eq_default_default := eq_refl
|}.

(** [typedef osmium::thread::SortedQueue<osmium::memory::Buffer> queue_type;] *)
Definition queue_type : Type := SortedQueue.t Buffer.

Module DataBlobParser.

Section data_blob_parser.
Context `{Protobuf} `{Zlib}.

(** [PBFPrimitiveBlockParser::initial_buffer_size] *)
Definition initial_buffer_size : Z := 10 * 1000 * 1000.

(** [m_queue.push(std::move(buffer), m_blob_num)] *)
Definition push_buffer (buffer : Buffer) (m_blob_num : Z) : action queue_type unit :=
  λ m_queue,
    match SortedQueue.push buffer (Int.size_t m_blob_num) m_queue with
    | SortedQueue.Returns _ m_queue' => (Ok (), m_queue')
    | _ => (Fail index_out_of_range, m_queue)
    end.

(** [void handle_blob(const void* data, const size_t size)] *)
Definition handle_blob (m_read_types m_blob_num : Z) (data : bytes) :
    action queue_type unit :=
  match Pbf.parse_primitive_block (PrimitiveBlock_ParseFromArray data) m_read_types with
  | inl e => throw e
  | inr items => push_buffer (Buffer_mem initial_buffer_size true items) m_blob_num
  end.

(** [data_blob_parser()] *)
Definition call (NDEBUG : bool) (m_read_types m_blob_num : Z) (m_input_buffer : bytes) :
    action queue_type unit :=
  BlobParser.call NDEBUG (handle_blob m_read_types m_blob_num) m_input_buffer.

End data_blob_parser.

End DataBlobParser.

(** ** [osmium::io::PBFInput] *)

Module PBFInput.

(** Modelled from its callers: [osmium::io::detail::reliable_read]
    (io/detail/read_write.hpp is not among the sources) fills the buffer
    with the next [size] bytes of the file and returns false when the file
    ends before that. *)
Definition reliable_read (size : Z) (fd : bytes) : option (bytes * bytes) :=
  if bool_decide (size ≤ Z.of_nat (length fd))
  then Some (take (Z.to_nat size) fd, drop (Z.to_nat size) fd)
  else None.

(** [ntohl]: four bytes in network order. *)
Definition ntohl (b : bytes) : Z :=
  foldl (λ acc x, acc * 256 + Z.of_N (Strings.Byte.to_N x)) 0 b.

(** What the constructor of [BlobParser] does with [size] and [fd]: the
    input buffer it has read, and the rest of the file. The member
    initialiser [new unsigned char[size]] runs before the test of [size]
    in the body and throws for a negative [size]. *)
Definition new_BlobParser (size : Z) (fd : bytes) : result (bytes * bytes) :=
  let size := Int.int32 size in
  if bool_decide (size < 0)
  then Fail bad_array_new_length
  else if bool_decide (Fileformat.max_uncompressed_blob_size < size)
  then Fail (runtime_error ("invalid blob size: " +:+ pretty size))
  else match reliable_read size fd with
       | Some (m_input_buffer, fd') => Ok (m_input_buffer, fd')
       | None => Fail (runtime_error "read error (EOF)")
       end.

Section pbf_input.
Context `{Protobuf} `{Zlib}.
Context (NDEBUG : bool) (m_num_threads : Z).

(** [size_t read_blob_header(const int fd, const char* expected_type)]:
    the size of the blob that follows (0 at the end of the file) and the
    rest of the file. *)
Definition read_blob_header (fd : bytes) (expected_type : string) : result (Z * bytes) :=
  match reliable_read 4 fd with
  | None => Ok (0, fd)
  | Some (size_in_network_byte_order, fd) =>
      let size := ntohl size_in_network_byte_order in
      if bool_decide (Fileformat.max_blob_header_size < size)
      then Fail (runtime_error "Invalid BlobHeader size")
      else
        match reliable_read size fd with
        | None => Fail (runtime_error "Read error.")
        | Some (blob_header_buffer, fd) =>
            match BlobHeader_ParseFromArray blob_header_buffer with
            | None => Fail (runtime_error "Failed to parse BlobHeader.")
            | Some m_blob_header =>
                if bool_decide
                     (Pbf.c_str (Fileformat.blobheader_type m_blob_header) ≠ expected_type)
                then Fail (runtime_error
                  "Blob does not have expected type (OSMHeader in first Blob, OSMData in following Blobs).")
                else Ok (Int.size_t (Fileformat.blobheader_datasize m_blob_header), fd)
            end
        end
  end.

Definition m_max_work_queue_size : Z := Int.size_t (m_num_threads * 4).
Definition m_max_buffer_queue_size : Z := Int.size_t (10 + m_num_threads * 10).

(** Where the thread running [parse_osm_data] stands. *)
Inductive reader_pc :=
  | reader_not_started                  (* [read] did not start it *)
  | reader_at_loop_head                 (* about to call [read_blob_header] *)
  | reader_waits_for_workers            (* in the loop on [work_queue_size] *)
  | reader_waits_for_caller             (* in the loop on [m_queue.size()] *)
  | reader_returned
  | reader_threw (e : failure).

(** Where the thread calling [next_buffer] stands. *)
Inductive caller_pc :=
  | caller_outside                      (* between two calls of [next_buffer] *)
  | caller_in_wait_and_pop.             (* inside [m_queue.wait_and_pop] *)

(** A [DataBlobParser] submitted to the pool. *)
Record job := {
  job_input_buffer : bytes;
  job_blob_num : Z
}.

Record state := mk {
  fd : bytes;                           (* what is left of the file *)
  n : Z;                                (* the local [n] of [parse_osm_data] *)
  reader : reader_pc;
  m_done : bool;
  m_pending_jobs : Z;
  work_queue : list job;                (* the pool's queue *)
  failed_jobs : list (Z * failure);     (* blob parsers that threw in the pool *)
  m_queue : queue_type;
  caller : caller_pc;
  returned : list Buffer                (* what [next_buffer] has returned so far *)
}.

(** The object when [read] returns, with [fd] at the first data blob. *)
Definition after_read (read_types : Z) (fd : bytes) : state :=
  {| fd := fd; n := 0;
     reader := if bool_decide (read_types ≠ Pbf.item_flags_nothing)
               then reader_at_loop_head else reader_not_started;
     m_done := false; m_pending_jobs := 0; work_queue := []; failed_jobs := [];
     m_queue := SortedQueue.init; caller := caller_outside; returned := [] |}.

(** [osmium::io::Header read(item_flags_type read_types)] *)
Definition read (read_types : Z) (fd : bytes) (header : Header.t) :
    result (Header.t * state) :=
  '(size, fd) ← read_blob_header fd "OSMHeader";
  '(m_input_buffer, fd) ← new_BlobParser size fd;
  match HeaderBlobParser.call NDEBUG m_input_buffer header with
  | (inl e, _) => Fail e
  | (inr _, header) => Ok (header, after_read read_types fd)
  end.

(** The threads take turns; what happens between two turns of one thread
    is one step. *)
Inductive event :=
  | reader_step
  | worker_step (i : nat)               (* a worker runs the [i]-th waiting job *)
  | caller_step.

(** [void parse_osm_data(osmium::item_flags_type read_types)] *)
Definition step_reader (read_types : Z) (st : state) : option state :=
  match reader st with
  | reader_at_loop_head =>
      match read_blob_header (fd st) "OSMData" with
      | inl e =>
          Some (mk (fd st) (n st) (reader_threw e) (m_done st) (m_pending_jobs st)
                  (work_queue st) (failed_jobs st) (m_queue st) (caller st) (returned st))
      | inr (size, fd') =>
          if bool_decide (size = 0)
          then (* the loop ends: [m_done = true] *)
            Some (mk fd' (n st) reader_returned true (m_pending_jobs st)
                    (work_queue st) (failed_jobs st) (m_queue st) (caller st) (returned st))
          else
            match new_BlobParser size fd' with
            | inl e =>
                Some (mk fd' (n st) (reader_threw e) (m_done st) (m_pending_jobs st)
                        (work_queue st) (failed_jobs st) (m_queue st) (caller st) (returned st))
            | inr (m_input_buffer, fd'') =>
                if bool_decide (m_num_threads = 0)
                then (* [data_blob_parser()] in this thread *)
                  match DataBlobParser.call NDEBUG read_types (n st) m_input_buffer
                          (m_queue st) with
                  | (inl e, m_queue') =>
                      Some (mk fd'' (n st) (reader_threw e) (m_done st)
                              (m_pending_jobs st + 1) (work_queue st) (failed_jobs st)
                              m_queue' (caller st) (returned st))
                  | (inr _, m_queue') =>
                      Some (mk fd'' (Int.int32 (n st + 1)) reader_waits_for_caller
                              (m_done st) (m_pending_jobs st + 1) (work_queue st)
                              (failed_jobs st) m_queue' (caller st) (returned st))
                  end
                else (* [m_thread_pool.submit(data_blob_parser)] *)
                  Some (mk fd'' (n st) reader_waits_for_workers (m_done st)
                          (m_pending_jobs st + 1)
                          (work_queue st ++ [{| job_input_buffer := m_input_buffer;
                                                job_blob_num := n st |}])
                          (failed_jobs st) (m_queue st) (caller st) (returned st))
            end
      end
  | reader_waits_for_workers =>
      if m_done st || bool_decide (Z.of_nat (length (work_queue st)) < m_max_work_queue_size)
      then Some (mk (fd st) (Int.int32 (n st + 1)) reader_waits_for_caller (m_done st)
                   (m_pending_jobs st) (work_queue st) (failed_jobs st) (m_queue st)
                   (caller st) (returned st))
      else None
  | reader_waits_for_caller =>
      if m_done st
      then Some (mk (fd st) (n st) reader_returned (m_done st) (m_pending_jobs st)
                   (work_queue st) (failed_jobs st) (m_queue st) (caller st) (returned st))
      else if bool_decide (SortedQueue.size (m_queue st) ≤ m_max_buffer_queue_size)
      then Some (mk (fd st) (n st) reader_at_loop_head (m_done st) (m_pending_jobs st)
                   (work_queue st) (failed_jobs st) (m_queue st) (caller st) (returned st))
      else None
  | _ => None
  end.

(** A worker of the pool takes a job and calls it. *)
Definition step_worker (read_types : Z) (i : nat) (st : state) : option state :=
  match work_queue st !! i with
  | None => None
  | Some j =>
      match DataBlobParser.call NDEBUG read_types (job_blob_num j) (job_input_buffer j)
              (m_queue st) with
      | (inl e, m_queue') =>
          Some (mk (fd st) (n st) (reader st) (m_done st) (m_pending_jobs st)
                  (delete i (work_queue st)) (failed_jobs st ++ [(job_blob_num j, e)])
                  m_queue' (caller st) (returned st))
      | (inr _, m_queue') =>
          Some (mk (fd st) (n st) (reader st) (m_done st) (m_pending_jobs st)
                  (delete i (work_queue st)) (failed_jobs st)
                  m_queue' (caller st) (returned st))
      end
  end.

(** [osmium::memory::Buffer next_buffer()] *)
Definition step_caller (st : state) : option state :=
  match caller st with
  | caller_outside =>
      if negb (m_done st) || bool_decide (m_pending_jobs st ≠ 0)
      then Some (mk (fd st) (n st) (reader st) (m_done st) (m_pending_jobs st)
                   (work_queue st) (failed_jobs st) (m_queue st)
                   caller_in_wait_and_pop (returned st))
      else Some (mk (fd st) (n st) (reader st) (m_done st) (m_pending_jobs st)
                   (work_queue st) (failed_jobs st) (m_queue st)
                   caller_outside (returned st ++ [Buffer_invalid]))
  | caller_in_wait_and_pop =>
      match SortedQueue.wait_and_pop (m_queue st) with
      | SortedQueue.Returns buffer m_queue' =>
          Some (mk (fd st) (n st) (reader st) (m_done st) (m_pending_jobs st - 1)
                  (work_queue st) (failed_jobs st) m_queue'
                  caller_outside (returned st ++ [buffer]))
      | _ => None
      end
  end.

Definition step (read_types : Z) (e : event) (st : state) : option state :=
  match e with
  | reader_step => step_reader read_types st
  | worker_step i => step_worker read_types i st
  | caller_step => step_caller st
  end.

Fixpoint steps (read_types : Z) (schedule : list event) (st : state) : option state :=
  match schedule with
  | [] => Some st
  | e :: schedule' =>
      match step read_types e st with
      | Some st' => steps read_types schedule' st'
      | None => None
      end
  end.

(** No thread can take a step. *)
Definition stuck (read_types : Z) (st : state) : Prop :=
  ∀ e, step read_types e st = None.

End pbf_input.

Section files.
Context `{Protobuf} `{Zlib}.
Context (NDEBUG : bool) (m_num_threads : Z) (read_types : Z).

(** *** What the theorems say of the pipeline *)

(** Every read type: node, way, relation and changeset. *)
Definition item_flags_all : Z := 15.

(** The file ends behind the header blob: no data blob at all. *)
Definition only_the_header : state := after_read item_flags_all [].

(** The caller calls [next_buffer] before the reader thread has seen the
    end of the file; then the reader thread sees it. *)
Definition caller_first : list event := [caller_step; reader_step].

(** The other order: the reader thread sees the end of the file first. *)
Definition reader_first : list event := [reader_step; caller_step].

(** The blob parser built on [input] pushes [buffer], whatever its number
    and the state of the queue: the blob decodes, and to [buffer]. *)
Definition decodes_to (input : bytes) (buffer : Buffer) : Prop :=
  Buffer_valid buffer = true ∧
  ∀ num m_queue,
    DataBlobParser.call NDEBUG read_types num input m_queue =
      DataBlobParser.push_buffer buffer num m_queue.

(** What is left of the file holds these data blobs, each with the buffer
    it decodes to, and ends behind them. *)
Inductive data_blobs : bytes → list (bytes * Buffer) → Prop :=
  | data_blobs_end fd fd' :
      read_blob_header fd "OSMData" = Ok (0, fd') →
      data_blobs fd []
  | data_blobs_blob fd size fd1 input fd2 buffer blobs :
      read_blob_header fd "OSMData" = Ok (size, fd1) →
      size ≠ 0 →
      new_BlobParser size fd1 = Ok (input, fd2) →
      decodes_to input buffer →
      data_blobs fd2 blobs →
      data_blobs fd ((input, buffer) :: blobs).

(** The state between two blobs when every thread has done its part for
    the first [j]: nothing waits, nothing is queued. *)
Definition all_quiet (file : bytes) (j : nat) (handed : list Buffer) : state :=
  {| fd := file; n := Z.of_nat j; reader := reader_at_loop_head; m_done := false;
     m_pending_jobs := 0; work_queue := []; failed_jobs := [];
     m_queue := SortedQueue.mk [Buffer_invalid] (Z.of_nat j);
     caller := caller_outside; returned := handed |}.

(** One blob through the pipeline: read, decoded, handed out. *)
Definition one_blob : list event :=
  if bool_decide (m_num_threads = 0)
  then [reader_step; caller_step; caller_step; reader_step]
  else [reader_step; worker_step 0; reader_step; caller_step; caller_step; reader_step].

(** Every blob in turn, then a call of [next_buffer] before the reader
    thread sees the end of the file. *)
Definition caller_ahead_at_the_end (blobs : nat) : list event :=
  concat (replicate blobs one_blob) ++ [caller_step; reader_step].

(** Every blob in turn, then the reader thread sees the end of the file
    before the next call of [next_buffer]. *)
Definition reader_ahead_at_the_end (blobs : nat) : list event :=
  concat (replicate blobs one_blob) ++ [reader_step; caller_step].

(** What [next_buffer] has returned so far is in the order of the file:
    the buffers of the first [k] blobs, followed by empty buffers only
    when all blobs have been handed out. *)
Definition in_file_order (blobs : list (bytes * Buffer)) (handed : list Buffer) : Prop :=
  ∃ k e : nat,
    handed = take k blobs.*2 ++ replicate e Buffer_invalid ∧
    ((0 < e)%nat → k = length blobs).

(** The pipeline after [j] blobs were read and [k] buffers handed out,
    with [P] pushed into the reorder queue so far and [e] empty buffers
    returned. *)
Record pipeline_inv (blobs : list (bytes * Buffer)) (st : state)
    (j k : nat) (P : gmap Z Buffer) (e : nat) : Prop := {
  pi_read : (j ≤ length blobs)%nat;
  pi_popped : (k ≤ j)%nat;
  pi_reader :
    match reader st with
    | reader_at_loop_head | reader_waits_for_caller =>
        n st = Z.of_nat j ∧ m_done st = false ∧ data_blobs (fd st) (drop j blobs)
    | reader_waits_for_workers =>
        n st + 1 = Z.of_nat j ∧ m_done st = false ∧ data_blobs (fd st) (drop j blobs)
    | reader_returned => j = length blobs ∧ m_done st = true
    | reader_not_started => j = 0%nat ∧ m_done st = false
    | reader_threw _ => False
    end;
  pi_failed : failed_jobs st = [];
  pi_jobs :
    Forall (λ job, ∃ (i : nat) buffer,
              job_blob_num job = Z.of_nat i ∧
              blobs !! i = Some (job_input_buffer job, buffer) ∧
              (i < j)%nat ∧ P !! Z.of_nat i = None) (work_queue st);
  pi_jobs_nodup : NoDup (job_blob_num <$> work_queue st);
  pi_queue : SortedQueue.queue_inv P (Z.of_nat k) (m_queue st);
  pi_pushed :
    ∀ i b, P !! i = Some b →
      ∃ (i' : nat) input, i = Z.of_nat i' ∧ (i' < j)%nat ∧ blobs !! i' = Some (input, b);
  pi_returned : returned st = take k blobs.*2 ++ replicate e Buffer_invalid;
  pi_eof : (0 < e)%nat → k = length blobs ∧ m_done st = true;
  pi_pending : m_pending_jobs st = Z.of_nat j - Z.of_nat k
}.

(** A blob the reader thread has handed to the pool is no larger than an
    uncompressed blob may be. *)
Definition job_fits (j : job) : Prop :=
  Z.of_nat (length (job_input_buffer j)) ≤ Fileformat.max_uncompressed_blob_size.

(** The most jobs that wait in the pool at any time. *)
Definition pool_bound : Z := 1 `max` m_max_work_queue_size m_num_threads.

(** What the two wait loops of [parse_osm_data] keep of the pool's queue. *)
Record pool_inv (st : state) : Prop := {
  pool_done : m_done st = true → reader st = reader_returned;
  pool_length :
    match reader st with
    | reader_at_loop_head | reader_waits_for_caller =>
        Z.of_nat (length (work_queue st)) < pool_bound
    | _ => Z.of_nat (length (work_queue st)) ≤ pool_bound
    end;
  pool_jobs : Forall job_fits (work_queue st);
  pool_unused : m_num_threads = 0 → work_queue st = []
}.

(** The reader thread has seen nothing but the end of the input, and the
    caller has got nothing but empty buffers. *)
Record input_ended (file : bytes) (st : state) : Prop := {
  ended_reader :
    reader st = reader_at_loop_head ∧ m_done st = false ∧ fd st = file ∨
    reader st = reader_returned ∧ m_done st = true;
  ended_pool : work_queue st = [];
  ended_pending : m_pending_jobs st = 0;
  ended_queue : m_queue st = SortedQueue.init;
  ended_returned : Forall (λ buffer, buffer = Buffer_invalid) (returned st)
}.

(** No reader thread runs, and the caller has got nothing. *)
Record never_started (file : bytes) (st : state) : Prop := {
  idle_reader : reader st = reader_not_started;
  idle_done : m_done st = false;
  idle_fd : fd st = file;
  idle_pool : work_queue st = [];
  idle_queue : m_queue st = SortedQueue.init;
  idle_returned : returned st = []
}.


End files.

End PBFInput.

(** ** [osmium::io::detail::OutputFormatFactory] *)

Module OutputFormatFactory.

Section factory.
(** [osmium::io::file_format], [osmium::io::File] with its members
    [format()] and [check()] ([None]: it returns, [Some e]: it throws [e]),
    [as_string] and the classes derived from [OutputFormat] are not among
    the sources: they are what the factory is given. *)
Context {file_format : Type} `{Countable file_format}.
Context {File data_queue_type OutputFormat : Type}.
Context (format : File → file_format) (check : File → option failure).
Context (as_string : file_format → string).

(** [typedef std::function<OutputFormat*(const File&, data_queue_type&)>
    create_output_type;] *)
Definition create_output_type : Type := File → data_queue_type → OutputFormat.

(** [typedef std::map<file_format, create_output_type> map_type;
    map_type m_callbacks;] *)
Abbreviation map_type := (gmap file_format create_output_type).

(** [OutputFormatFactory() : m_callbacks()] *)
Definition instance : map_type := ∅.

(** [bool register_output_format(file_format format, create_output_type
    create_function)]: [std::map::insert] leaves an element with the same
    key as it is, and its [.second] tells whether it has inserted. *)
Definition register_output_format (format : file_format)
    (create_function : create_output_type) (m_callbacks : map_type) :
    bool * map_type :=
  match m_callbacks !! format with
  | Some _ => (false, m_callbacks)
  | None => (true, <[format := create_function]> m_callbacks)
  end.

(** [std::unique_ptr<OutputFormat> create_output(const File& file,
    data_queue_type& output_queue)] *)
Definition create_output (file : File) (output_queue : data_queue_type)
    (m_callbacks : map_type) : result OutputFormat :=
  match check file with
  | Some e => Fail e
  | None =>
      match m_callbacks !! format file with
      | Some create_function => Ok (create_function file output_queue)
      | None =>
          Fail (runtime_error
                  ("Support for output format '" +:+ as_string (format file) +:+
                   "' not compiled into this binary."))
      end
  end.

(** The registrations the output formats of a program make at start-up,
    one after the other. *)
Definition register_all (registrations : list (file_format * create_output_type))
    (m_callbacks : map_type) : map_type :=
  foldl (λ m registration,
           (register_output_format registration.1 registration.2 m).2)
    m_callbacks registrations.

(** The first registration for a format. *)
Definition first_registration (format : file_format)
    (registrations : list (file_format * create_output_type)) :
    option create_output_type :=
  (λ found, found.2.2) <$> list_find (λ registration, registration.1 = format) registrations.

End factory.

End OutputFormatFactory.

(** ** [osmium::io::Writer] *)

Module Writer.

(** [enum class status] *)
Inductive status :=
  | okay                                (* normal writing *)
  | error                               (* some error occurred while writing *)
  | closed.                             (* close() called successfully *)

Global Instance status_eq_dec : EqDecision status.
Proof. solve_decision. Defined.

(** What the writer hands to the output format and to the output queue,
    which the write thread drains into the file. *)
Inductive output_event :=
  | written_buffer (buffer : Buffer)    (* [m_output->write_buffer(...)] returned *)
  | written_end                         (* [m_output->write_end()] returned *)
  | queued_exception (e : failure)      (* [detail::add_to_queue(m_output_queue, exception)] *)
  | queued_end_of_data.                 (* [detail::add_end_of_data_to_queue(m_output_queue)] *)

(** What the rest of the program does during one call: the exception the
    write thread has stored in [m_write_future], if any, and the exceptions
    the output format throws from [write_buffer] and [write_end], if any. *)
Record world := {
  write_future : option failure;
  write_buffer_throws : Buffer → option failure;
  write_end_throws : option failure
}.

Record t := mk {
  m_output : list output_event;
  m_buffer : Buffer;
  m_buffer_size : Z;
  m_status : status
}.

Section writer.
(** Modelled from the spec: the bytes an item takes in a buffer (the item
    classes are not among the sources). *)
Context (byte_size : Pbf.entity → Z).

(** [static constexpr size_t default_buffer_size] *)
Definition default_buffer_size : Z := 10 * 1024 * 1024.

(** The members as the constructor leaves them, after [write_header]. *)
Definition init : t :=
  {| m_output := []; m_buffer := Buffer_invalid;
     m_buffer_size := default_buffer_size; m_status := okay |}.

(** [buffer.committed()] *)
Definition committed (b : Buffer) : Z :=
  foldr (λ item acc, byte_size item + acc) 0 (Buffer_items b).

(** [buffer.push_back(item)]: [None] stands for [buffer_is_full]. *)
Definition push_back (item : Pbf.entity) (b : Buffer) : option Buffer :=
  match b with
  | Buffer_invalid => None
  | Buffer_mem capacity auto_grow items =>
      if auto_grow || bool_decide (committed b + byte_size item ≤ capacity)
      then Some (Buffer_mem capacity auto_grow (items ++ [item]))
      else None
  end.

Definition emit (e : output_event) : action t unit :=
  modify (λ w, mk (m_output w ++ [e]) (m_buffer w) (m_buffer_size w) (m_status w)).

Definition set_status (s : status) : action t unit :=
  modify (λ w, mk (m_output w) (m_buffer w) (m_buffer_size w) s).

Definition set_buffer (b : Buffer) : action t unit :=
  modify (λ w, mk (m_output w) b (m_buffer_size w) (m_status w)).

(** [m_output->write_end()] *)
Definition write_end (env : world) : action t unit :=
  match write_end_throws env with
  | Some e => throw e
  | None => emit written_end
  end.

(** The [catch (...)] block of [write]. *)
Definition write_catch (env : world) (e : failure) : action t unit :=
  emit (queued_exception e);;
  write_end env;;
  set_status error;;
  throw e.

(** [void write(osmium::memory::Buffer&& buffer)] *)
Definition write (env : world) (buffer : Buffer) : action t unit :=
  λ w,
    if bool_decide (m_status w ≠ okay)
    then throw (io_error "Can not write to writer when in status 'closed' or 'error'") w
    else
      match write_future env with
      | Some e => write_catch env e w
      | None =>
          if bool_decide (0 < committed buffer)
          then match write_buffer_throws env buffer with
               | Some e => write_catch env e w
               | None => emit (written_buffer buffer) w
               end
          else (Ok (), w)
      end.

(** [void flush()] *)
Definition flush (env : world) : action t unit :=
  λ w,
    if bool_decide (m_status w = okay) && Buffer_valid (m_buffer w) &&
       bool_decide (0 < committed (m_buffer w))
    then (set_buffer (Buffer_mem (m_buffer_size w) false []);;
          write env (m_buffer w)) w
    else (Ok (), w).

(** [void operator()(osmium::memory::Buffer&& buffer)] *)
Definition write_Buffer (env : world) (buffer : Buffer) : action t unit :=
  flush env;; write env buffer.

(** [if (!m_buffer) m_buffer = osmium::memory::Buffer{m_buffer_size, auto_grow::no};] *)
Definition ensure_buffer : action t unit :=
  λ w, if Buffer_valid (m_buffer w) then (Ok (), w)
       else set_buffer (Buffer_mem (m_buffer_size w) false []) w.

(** [try { m_buffer.push_back(item); } catch (osmium::buffer_is_full&) { ... }] *)
Definition try_push_back (item : Pbf.entity) (on_full : action t unit) : action t unit :=
  λ w, match push_back item (m_buffer w) with
       | Some b => set_buffer b w
       | None => on_full w
       end.

(** [void operator()(const osmium::memory::Item& item)] *)
Definition write_Item (env : world) (item : Pbf.entity) : action t unit :=
  ensure_buffer;;
  try_push_back item
    (flush env;; try_push_back item (throw buffer_is_full)).

(** [void close()]. What [write_buffer] leaves in the buffer it is handed
    by rvalue reference is not modelled: [m_buffer] keeps its value. *)
Definition close (env : world) : action t unit :=
  λ w,
    ((if bool_decide (m_status w = okay)
      then
        (if Buffer_valid (m_buffer w) && bool_decide (0 < committed (m_buffer w))
         then write env (m_buffer w)
         else mret ());;
        set_status closed;;
        write_end env
      else mret ());;
     emit queued_end_of_data) w.

(** The calls a user of the class can make. *)
Inductive request :=
  | do_write_Buffer (buffer : Buffer)
  | do_write_Item (item : Pbf.entity)
  | do_flush
  | do_close.

Definition handle (env : world) (r : request) : action t unit :=
  match r with
  | do_write_Buffer buffer => write_Buffer env buffer
  | do_write_Item item => write_Item env item
  | do_flush => flush env
  | do_close => close env
  end.

End writer.

(** *** What the theorems say of the writer *)

(** What a write on a closed or failed writer throws. *)
Definition rejected : failure :=
  io_error "Can not write to writer when in status 'closed' or 'error'".

(** A user with one item to write, and a world in which nothing fails. *)
Definition one_item : Pbf.entity :=
  Pbf.a_node (Pbf.new_object "") Pbf.Location_undefined.

Definition nothing_fails : world :=
  {| write_future := None;
     write_buffer_throws := λ _, None;
     write_end_throws := None |}.

(** The entities of the buffers handed to the output format, in the order
    of the calls of [write_buffer]. *)
Definition written_items (output : list output_event) : list Pbf.entity :=
  concat ((λ e, match e with
                | written_buffer buffer => Buffer_items buffer
                | _ => []
                end) <$> output).

(** The entities a request asks the writer to write. *)
Definition request_items (r : request) : list Pbf.entity :=
  match r with
  | do_write_Buffer buffer => Buffer_items buffer
  | do_write_Item item => [item]
  | do_flush | do_close => []
  end.

Definition is_close (r : request) : bool :=
  match r with do_close => true | _ => false end.

(** An item that fits into a new internal buffer. *)
Definition item_fits (byte_size : Pbf.entity → Z) (r : request) : Prop :=
  match r with
  | do_write_Item item => byte_size item ≤ default_buffer_size
  | _ => True
  end.

Section writer_use.
Context (byte_size : Pbf.entity → Z).

(** A user that makes one call after the other and stops at the first
    exception. *)
Definition serve (env : world) (requests : list request) : action t unit :=
  for_each_do (handle byte_size env) requests.

(** A user that catches every exception and goes on, in a world that may
    differ from call to call. *)
Fixpoint keep_calling (calls : list (world * request)) (w : t) : t :=
  match calls with
  | [] => w
  | (env, r) :: calls' => keep_calling calls' (handle byte_size env r w).2
  end.

(** A writer that has not failed and was not closed, with the buffer size
    of the constructor: what it has handed to the output format are
    buffers with data, and its internal buffer, if any, does not grow. *)
Record in_use (w : t) : Prop := {
  use_status : m_status w = okay;
  use_buffer_size : m_buffer_size w = default_buffer_size;
  use_buffer :
    m_buffer w = Buffer_invalid ∨
    ∃ items, m_buffer w = Buffer_mem default_buffer_size false items;
  use_output :
    ∃ buffers,
      m_output w = written_buffer <$> buffers ∧
      Forall (λ buffer, 0 < committed byte_size buffer) buffers
}.

(** The internal buffer holds something to write:
    [m_buffer && m_buffer.committed() > 0]. *)
Definition has_data (w : t) : bool :=
  Buffer_valid (m_buffer w) && bool_decide (0 < committed byte_size (m_buffer w)).

End writer_use.

End Writer.

(** ** Concrete inputs *)

Section inputs.
Import SortedQueue.

(** Two decoded buffers, pushed out of order. *)
Definition buffer_0 : Buffer := Buffer_mem 10000000 true [Writer.one_item].
Definition buffer_1 : Buffer := Buffer_mem 10000000 true [].

Definition calls_before : list (call Buffer) :=
  [Push buffer_1 1; TryPop; Push buffer_0 0; WaitAndPop].
Definition calls_after : list (call Buffer) := [TryPop; TryPop].

Definition queue_between : queue_type := mk [buffer_1; Buffer_invalid] 1.
Definition queue_at_end : queue_type := mk [Buffer_invalid] 2.

(** Slot 1 is filled and the front slot is not: the queue is empty. *)
Definition calls_back_slot_only : list (call Buffer) := [Push buffer_1 1].
Definition queue_back_slot_only : queue_type :=
  mk [Buffer_invalid; buffer_1; Buffer_invalid] 0.

(** A protobuf library for a toy encoding: every blob is raw, every header
    block requires the schema and dense nodes. *)
Definition toy_protobuf : Protobuf :=
  {| BlobHeader_ParseFromArray := λ _, None;
     Blob_ParseFromArray := λ data,
       Some {| Fileformat.blob_raw := Some data; Fileformat.blob_raw_size := 0;
               Fileformat.blob_zlib_data := None; Fileformat.blob_lzma_data := None |};
     HeaderBlock_ParseFromArray := λ _,
       Some {| Fileformat.headerblock_bbox := None;
               Fileformat.headerblock_required_features :=
                 ["OsmSchema-V0.6"; "DenseNodes"]%string;
               Fileformat.headerblock_writingprogram := Some "test"%string |};
     PrimitiveBlock_ParseFromArray := λ _, None |}.

Definition toy_zlib : Zlib := {| inflate := Some |}.

Definition toy_header_block : Fileformat.HeaderBlock :=
  {| Fileformat.headerblock_bbox := None;
     Fileformat.headerblock_required_features := ["OsmSchema-V0.6"; "DenseNodes"]%string;
     Fileformat.headerblock_writingprogram := Some "test"%string |}.

Definition toy_blob : Fileformat.Blob :=
  {| Fileformat.blob_raw := Some []; Fileformat.blob_raw_size := 0;
     Fileformat.blob_zlib_data := None; Fileformat.blob_lzma_data := None |}.

Definition new_header : Header.t := Header.mk false false "" [].

(** A protobuf library for a toy encoding of data blobs: a blob header is
    one byte and announces a blob of one byte, every blob is raw, and the
    byte of a blob chooses its primitive block: the block of the scenario
    S2 for byte 1, a block without groups for any other. *)
Definition empty_block : Pbf.PrimitiveBlock :=
  {| Pbf.block_stringtable := []; Pbf.block_primitivegroup := [];
     Pbf.block_granularity := 100; Pbf.block_lat_offset := 0;
     Pbf.block_lon_offset := 0; Pbf.block_date_granularity := 1000 |}.

Definition toy_data_protobuf : Protobuf :=
  {| BlobHeader_ParseFromArray := λ _,
       Some {| Fileformat.blobheader_type := "OSMData"%string;
               Fileformat.blobheader_datasize := 1 |};
     Blob_ParseFromArray := λ data,
       Some {| Fileformat.blob_raw := Some data; Fileformat.blob_raw_size := 0;
               Fileformat.blob_zlib_data := None; Fileformat.blob_lzma_data := None |};
     HeaderBlock_ParseFromArray := λ _, None;
     PrimitiveBlock_ParseFromArray := λ data,
       match data with
       | [Byte.x01] => Some Pbf.s2_block
       | _ => Some empty_block
       end |}.

(** One data blob on the file: the length of the blob header in network
    order, the blob header, the blob. *)
Definition data_blob_frame (blob : Byte.byte) : bytes :=
  [Byte.x00; Byte.x00; Byte.x00; Byte.x01; Byte.x00; blob].

Definition two_blob_file : bytes :=
  data_blob_frame Byte.x01 ++ data_blob_frame Byte.x00.

Definition s2_items : list Pbf.entity :=
  match Pbf.parse_primitive_block (Some Pbf.s2_block) PBFInput.item_flags_all with
  | inr items => items
  | inl _ => []
  end.

Definition two_blobs : list (bytes * Buffer) :=
  [([Byte.x01], Buffer_mem DataBlobParser.initial_buffer_size true s2_items);
   ([Byte.x00], Buffer_mem DataBlobParser.initial_buffer_size true [])].

(** The queue after [buffer_0] was pushed under 0, and after [buffer_1] was
    pushed under 1 as well. *)
Definition queue_with_0 : queue_type := mk [buffer_0; Buffer_invalid] 0.
Definition queue_with_0_and_1 : queue_type :=
  mk [buffer_0; buffer_1; Buffer_invalid] 0.

(** The parser of the block of the scenario S2. *)
Definition s2_parser : Pbf.parser := Pbf.parser_for Pbf.s2_block PBFInput.item_flags_all.

(** A way of three nodes with one tag, a relation of two members. *)
Definition toy_way : Pbf.Way :=
  {| Pbf.way_id := 7; Pbf.way_keys := [1]; Pbf.way_vals := [2];
     Pbf.way_info := None; Pbf.way_refs := [100; 1; -2] |}.

Definition toy_relation : Pbf.Relation :=
  {| Pbf.relation_id := 8; Pbf.relation_keys := []; Pbf.relation_vals := [];
     Pbf.relation_info := None; Pbf.relation_roles_sid := [1; 2];
     Pbf.relation_memids := [5; 3]; Pbf.relation_types := [Pbf.NODE; Pbf.WAY] |}.

(** A plain node with two tags, of which the second has a value too many. *)
Definition toy_node : Pbf.Node :=
  {| Pbf.node_id := 9; Pbf.node_keys := [1; 3]; Pbf.node_vals := [2; 4; 1];
     Pbf.node_info := None; Pbf.node_lat := -247; Pbf.node_lon := 135 |}.

(** The block of S2 with a group without anything behind its group. *)
Definition block_with_empty_group : Pbf.PrimitiveBlock :=
  {| Pbf.block_stringtable := Pbf.s2_stringtable;
     Pbf.block_primitivegroup :=
       Pbf.block_primitivegroup Pbf.s2_block ++
       [{| Pbf.group_nodes := []; Pbf.group_dense := None;
           Pbf.group_ways := []; Pbf.group_relations := [] |}];
     Pbf.block_granularity := 100; Pbf.block_lat_offset := 0;
     Pbf.block_lon_offset := 0; Pbf.block_date_granularity := 1000 |}.

(** A parser whose string table has an entry with a NUL in it. *)
Definition parser_with_NUL : Pbf.parser :=
  {| Pbf.m_stringtable := [""; String "a" (String Pbf.NUL "b")]%string;
     Pbf.m_lon_offset := 0; Pbf.m_lat_offset := 0; Pbf.m_date_factor := 1;
     Pbf.m_granularity := 100; Pbf.m_read_types := PBFInput.item_flags_all |}.

(** A protobuf library for a header block that requires a feature the
    parser does not know, between two that it knows. *)
Definition unsupported_header_block : Fileformat.HeaderBlock :=
  {| Fileformat.headerblock_bbox := None;
     Fileformat.headerblock_required_features :=
       ["DenseNodes"; "Sort.Type_then_ID"; "HistoricalInformation"]%string;
     Fileformat.headerblock_writingprogram := Some "test"%string |}.

Definition unsupported_protobuf : Protobuf :=
  {| BlobHeader_ParseFromArray := λ _, None;
     Blob_ParseFromArray := λ _, None;
     HeaderBlock_ParseFromArray := λ _, Some unsupported_header_block;
     PrimitiveBlock_ParseFromArray := λ _, None |}.

(** A blob whose [zlib_data] inflates to one byte more than 32 MiB, as
    its [raw_size] says. *)
Definition large_raw_size : Z := Fileformat.max_uncompressed_blob_size + 1.

Definition large_blob : Fileformat.Blob :=
  {| Fileformat.blob_raw := None; Fileformat.blob_raw_size := large_raw_size;
     Fileformat.blob_zlib_data := Some []; Fileformat.blob_lzma_data := None |}.

Definition large_data : bytes := replicate (Z.to_nat large_raw_size) Byte.x00.

Definition large_protobuf : Protobuf :=
  {| BlobHeader_ParseFromArray := λ _, None;
     Blob_ParseFromArray := λ _, Some large_blob;
     HeaderBlock_ParseFromArray := λ _, None;
     PrimitiveBlock_ParseFromArray := λ _, None |}.

Definition large_zlib : Zlib := {| inflate := λ _, Some large_data |}.

(** A protobuf library for blob headers of one byte that give the size of
    the blob, and a file whose first blob header gives the size 0, with a
    data blob behind it. *)
Definition sized_protobuf : Protobuf :=
  {| BlobHeader_ParseFromArray := λ header,
       match header with
       | [size] =>
           Some {| Fileformat.blobheader_type := "OSMData"%string;
                   Fileformat.blobheader_datasize := Z.of_N (Byte.to_N size) |}
       | _ => None
       end;
     Blob_ParseFromArray := λ data,
       Some {| Fileformat.blob_raw := Some data; Fileformat.blob_raw_size := 0;
               Fileformat.blob_zlib_data := None; Fileformat.blob_lzma_data := None |};
     HeaderBlock_ParseFromArray := λ _, None;
     PrimitiveBlock_ParseFromArray := λ _, Some Pbf.s2_block |}.

Definition size_zero_file : bytes :=
  [Byte.x00; Byte.x00; Byte.x00; Byte.x01; Byte.x00] ++
  [Byte.x00; Byte.x00; Byte.x00; Byte.x01; Byte.x01; Byte.x07].

(** The blob header of the toy encoding of data blobs. *)
Definition toy_blob_header : Fileformat.BlobHeader :=
  {| Fileformat.blobheader_type := "OSMData"%string;
     Fileformat.blobheader_datasize := 1 |}.

(** A user of the writer: an item, a flush, a buffer of one item, an
    item; the bytes of an item. *)
Definition toy_requests : list Writer.request :=
  [Writer.do_write_Item Writer.one_item; Writer.do_flush;
   Writer.do_write_Buffer buffer_0; Writer.do_write_Item Writer.one_item].

Definition small_items : Pbf.entity → Z := λ _, 64.
Definition large_items : Pbf.entity → Z := λ _, Writer.default_buffer_size + 1.

(** Calls on a writer that was closed. *)
Definition calls_after_close : list (Writer.world * Writer.request) :=
  [(Writer.nothing_fails, Writer.do_write_Item Writer.one_item);
   (Writer.nothing_fails, Writer.do_write_Buffer buffer_0);
   (Writer.nothing_fails, Writer.do_close)].

Definition closed_writer : Writer.t :=
  (Writer.close small_items Writer.nothing_fails Writer.init).2.

(** A writer with one item in its internal buffer. *)
Definition writer_with_one_item : Writer.t :=
  (Writer.write_Item small_items Writer.nothing_fails Writer.one_item Writer.init).2.

(** A world in which the write thread has failed. *)
Definition write_thread_failed : Writer.world :=
  {| Writer.write_future := Some (runtime_error "write failed");
     Writer.write_buffer_throws := λ _, None;
     Writer.write_end_throws := None |}.

(** Two output formats that register for the same file format, the files
    being told apart by a truth value. *)
Definition toy_registrations :
    list (bool * OutputFormatFactory.create_output_type (File:=bool)
                   (data_queue_type:=unit) (OutputFormat:=nat)) :=
  [(true, λ _ _, 1%nat); (true, λ _ _, 2%nat)].

End inputs.

(** * Theorems *)

(** ** The sorted queue *)

Section sorted_queue_facts.
Import SortedQueue.
Context {T : Type} `{Sentinel T}.
Implicit Types (q : SortedQueue.t T) (P : gmap Z T) (calls : list (call T)).

Lemma two_pow_64 : 2 ^ 64 = 18446744073709551616.
Proof. reflexivity. Qed.

Ltac size_t_lia :=
  unfold Int.is_size_t, Int.size_t, Int.wrap_unsigned in *;
  rewrite ?two_pow_64 in *;
  Z.div_mod_to_equations; lia.

Lemma queue_inv_init : queue_inv ∅ 0 init.
Proof.
  split; simpl; try done; try lia.
  intros [|i] x Hx; simplify_eq/=. by unfold slot_value.
Qed.

Lemma queue_inv_fresh P k q n :
  queue_inv P k q → Int.is_size_t n → P !! n = None → k ≤ n.
Proof.
  intros Hinv Hn Hfresh. destruct (decide (k ≤ n)) as [|Hlt]; [done|].
  destruct (inv_popped _ _ _ Hinv n) as [v Hv]; [unfold Int.is_size_t in Hn; lia|].
  congruence.
Qed.

Lemma push_preserves P k q value num q' :
  queue_inv P k q → Int.is_size_t num → eq_default value = false →
  P !! num = None →
  push value num q = Returns () q' →
  queue_inv (<[num := value]> P) k q'.
Proof.
  intros Hinv Hnum Hvalue Hfresh Hpush.
  pose proof (queue_inv_fresh _ _ _ _ Hinv Hnum Hfresh) as Hk.
  destruct Hinv as [Hk0 Hoff Hsize Hslots Hpushed Hpopped].
  unfold push in Hpush. rewrite Hoff in Hpush.
  assert (Int.size_t (num - Int.size_t k) = num - k) as Hrel by size_t_lia.
  rewrite Hrel in Hpush.
  set (len := length (m_queue q)) in *.
  assert (∀ n, k + Z.of_nat len - 1 ≤ n → P !! n = None) as Hbeyond.
  { intros n Hn. destruct (P !! n) as [v|] eqn:Hv; [|done].
    apply Hpushed in Hv. lia. }
  destruct (decide (Z.of_nat len ≤ Int.size_t (num - k + 1))) as [Hgrow|Hgrow];
    [rewrite !(bool_decide_eq_true_2 _ Hgrow) in Hpush
    |rewrite !(bool_decide_eq_false_2 _ Hgrow) in Hpush].
  - (* the deque grows to [num - offset + 2] slots *)
    case_bool_decide as Hin; [|done]. simplify_eq.
    rewrite length_resize in Hin.
    assert (Int.size_t (num - k + 2) = num - k + 2) as Hsz by size_t_lia.
    assert (Int.size_t (num - k + 1) = num - k + 1) as Hsz1 by size_t_lia.
    rewrite Hsz in *. rewrite Hsz1 in Hgrow.
    split; simpl; rewrite ?length_insert, ?length_resize; try done.
    + size_t_lia.
    + intros i x Hx. unfold slot_value.
      destruct (decide (i = Z.to_nat (num - k))) as [->|Hne].
      * rewrite list_lookup_insert_eq in Hx by (rewrite length_resize; lia).
        simplify_eq. replace (k + Z.of_nat (Z.to_nat (num - k))) with num by lia.
        by rewrite lookup_insert_eq.
      * rewrite list_lookup_insert_ne in Hx by done.
        rewrite lookup_insert_ne by lia.
        destruct (decide (i < len)%nat) as [Hold|Hnew].
        -- rewrite lookup_resize in Hx by lia. by apply Hslots.
        -- apply lookup_lt_Some in Hx as Hi. rewrite length_resize in Hi.
           rewrite lookup_resize_new in Hx by (fold len; lia). simplify_eq.
           rewrite Hbeyond by lia. done.
    + intros n v Hv. destruct (decide (n = num)) as [->|Hne].
      * rewrite lookup_insert_eq in Hv. simplify_eq. split_and!; [done..|lia].
      * rewrite lookup_insert_ne in Hv by done.
        destruct (Hpushed _ _ Hv) as (? & ? & ?). split_and!; [done..|lia].
    + intros n Hn. destruct (decide (n = num)) as [->|Hne].
      * rewrite lookup_insert_eq. eauto.
      * rewrite lookup_insert_ne by done. by apply Hpopped.
  - (* the slot exists already *)
    case_bool_decide as Hin; [|done]. simplify_eq. fold len in Hin.
    assert (num - k + 1 < Z.of_nat len) as Hlt.
    { fold len in Hgrow. size_t_lia. }
    split; simpl; rewrite ?length_insert; try done.
    + intros i x Hx. unfold slot_value.
      destruct (decide (i = Z.to_nat (num - k))) as [->|Hne].
      * rewrite list_lookup_insert_eq in Hx by (fold len; lia).
        simplify_eq. replace (k + Z.of_nat (Z.to_nat (num - k))) with num by lia.
        by rewrite lookup_insert_eq.
      * rewrite list_lookup_insert_ne in Hx by done.
        rewrite lookup_insert_ne by lia. by apply Hslots.
    + intros n v Hv. destruct (decide (n = num)) as [->|Hne].
      * rewrite lookup_insert_eq in Hv. simplify_eq. fold len. split_and!; [done..|lia].
      * rewrite lookup_insert_ne in Hv by done. by apply Hpushed.
    + intros n Hn. destruct (decide (n = num)) as [->|Hne].
      * rewrite lookup_insert_eq. eauto.
      * rewrite lookup_insert_ne by done. by apply Hpopped.
Qed.

Lemma empty_intern_spec P k q :
  queue_inv P k q → empty_intern q = Some (bool_decide (P !! k = None)).
Proof.
  intros [Hk0 Hoff Hsize Hslots Hpushed Hpopped]. unfold empty_intern.
  destruct (m_queue q) as [|x rest] eqn:Hq; [simpl in Hsize; lia|].
  specialize (Hslots 0%nat x eq_refl). rewrite Z.add_0_r in Hslots.
  unfold slot_value in Hslots. f_equal.
  destruct (P !! k) as [v|] eqn:Hv; simpl in Hslots; subst x.
  - destruct (Hpushed _ _ Hv) as (_ & -> & _). by rewrite bool_decide_eq_false_2.
  - by rewrite eq_default_default, bool_decide_eq_true_2.
Qed.

Lemma pop_front_preserves P k q x q' :
  queue_inv P k q → empty_intern q = Some false →
  pop_front q = Some (x, q') →
  P !! k = Some x ∧ queue_inv P (k + 1) q'.
Proof.
  intros Hinv Hempty Hpop. rewrite (empty_intern_spec _ _ _ Hinv) in Hempty.
  assert (is_Some (P !! k)) as [v Hv].
  { apply not_eq_None_Some. intros Hnone.
    by rewrite bool_decide_eq_true_2 in Hempty. }
  destruct Hinv as [Hk0 Hoff Hsize Hslots Hpushed Hpopped].
  unfold pop_front in Hpop.
  destruct (m_queue q) as [|y rest] eqn:Hq; simplify_eq/=.
  pose proof (Hslots 0%nat _ eq_refl) as Hx. rewrite Z.add_0_r in Hx.
  unfold slot_value in Hx. rewrite Hv in Hx. simpl in Hx. subst x.
  destruct (Hpushed _ _ Hv) as (Hrange & _ & Hlen).
  split; [done|]. split; simpl.
  - unfold Int.is_size_t in Hrange. lia.
  - rewrite Hoff. size_t_lia.
  - lia.
  - intros i x Hx. rewrite (Hslots (S i) x Hx). f_equal. lia.
  - intros n w Hw. destruct (Hpushed _ _ Hw) as (? & ? & ?).
    split_and!; [done..|lia].
  - intros n Hn. destruct (decide (n = k)) as [->|]; [eauto|].
    apply Hpopped. lia.
Qed.

(** What one returning call does to the invariant. *)
Lemma exec_preserves P k q c o q' :
  queue_inv P k q → push_ok c →
  (∀ value num, c = Push value num → P !! num = None) →
  exec c q = Returns o q' →
  match c, o with
  | Push value num, None => queue_inv (<[num := value]> P) k q'
  | Push _ _, Some _ => False
  | _, Some x => P !! k = Some x ∧ queue_inv P (k + 1) q'
  | _, None => q' = q
  end.
Proof.
  intros Hinv Hok Hfresh Hexec. destruct c as [value num| |]; simpl in *.
  - destruct (push value num q) as [[] q''| |] eqn:Hpush; simplify_eq.
    destruct Hok. eapply push_preserves; eauto.
  - unfold wait_and_pop in Hexec.
    destruct (empty_intern q) as [[]|] eqn:Hempty; simplify_eq.
    destruct (pop_front q) as [[x q'']|] eqn:Hpop; simplify_eq.
    eapply pop_front_preserves; eauto.
  - unfold try_pop in Hexec.
    destruct (empty_intern q) as [[]|] eqn:Hempty; simplify_eq; [done|].
    destruct (pop_front q) as [[x q'']|] eqn:Hpop; simplify_eq.
    eapply pop_front_preserves; eauto.
Qed.

Lemma pushed_app calls1 calls2 :
  pushed (calls1 ++ calls2) = pushed calls1 ∪ pushed calls2.
Proof.
  induction calls1 as [|[value num| |] calls1 IH]; simpl.
  - by rewrite (left_id_L ∅ (∪)).
  - by rewrite IH, insert_union_l.
  - done.
  - done.
Qed.

Lemma pushed_None calls num :
  num ∉ push_nums calls → pushed calls !! num = None.
Proof.
  induction calls as [|[value n| |] calls IH]; simpl; intros Hnum; try by auto.
  unfold push_nums in *. simpl in Hnum. rewrite not_elem_of_cons in Hnum.
  destruct Hnum as [Hne Hnum]. rewrite lookup_insert_ne by done. by apply IH.
Qed.

Lemma push_nums_app calls1 calls2 :
  push_nums (calls1 ++ calls2) = push_nums calls1 ++ push_nums calls2.
Proof. apply omap_app. Qed.

(** The invariant along a sequence of returning calls: starting after [k]
    pops with [P] pushed, the [i]-th value handed out is the one pushed under
    [k + i]. *)
Lemma run_preserves calls : ∀ P k q q' outs,
  queue_inv P k q →
  Forall push_ok calls → NoDup (push_nums calls) →
  (∀ num, num ∈ push_nums calls → P !! num = None) →
  run calls q = Some (q', outs) →
  queue_inv (P ∪ pushed calls) (k + Z.of_nat (length outs)) q' ∧
  ∀ (i : nat) x, outs !! i = Some x → (P ∪ pushed calls) !! (k + Z.of_nat i) = Some x.
Proof.
  induction calls as [|c calls IH]; intros P k q q' outs Hinv Hok Hnodup Hfresh Hrun.
  - simplify_eq/=. rewrite (right_id_L ∅ (∪)), Z.add_0_r. split; [done|].
    intros i x Hx. by rewrite lookup_nil in Hx.
  - simpl in Hrun. destruct (exec c q) as [o q1| |] eqn:Hexec; try done.
    destruct (run calls q1) as [[q2 outs']|] eqn:Hrun'; simplify_eq.
    apply Forall_cons in Hok as [Hc Hok].
    assert (∀ value num, c = Push value num → P !! num = None) as Hfresh_c.
    { intros value num ->. apply Hfresh. unfold push_nums. simpl. left. }
    pose proof (exec_preserves _ _ _ _ _ _ Hinv Hc Hfresh_c Hexec) as Hstep.
    destruct c as [value num| |].
    + (* push *)
      destruct o; [done|]. unfold push_nums in Hnodup, Hfresh. simpl in *.
      apply NoDup_cons in Hnodup as [Hnotin Hnodup].
      assert (pushed calls !! num = None) as Hnone by by apply pushed_None.
      destruct (IH (<[num := value]> P) k q1 q' outs') as [Hinv' Houts]; try done.
      { intros n Hn. rewrite lookup_insert_ne; [|by intros ->].
        apply Hfresh. by right. }
      rewrite <-insert_union_l, insert_union_r in Hinv', Houts
        by (apply Hfresh; left).
      exact (conj Hinv' Houts).
    + (* wait_and_pop *)
      destruct o as [x|]; [|subst q1; exact (IH _ _ _ _ _ Hinv Hok Hnodup Hfresh Hrun')].
      destruct Hstep as [Hx Hinv1].
      destruct (IH P (k + 1) q1 q' outs') as [Hinv' Houts]; try done.
      simpl. rewrite Nat2Z.inj_succ.
      replace (k + Z.succ (Z.of_nat (length outs'))) with
        (k + 1 + Z.of_nat (length outs')) by lia.
      split; [done|]. intros [|i] y Hy; simplify_eq/=.
      * rewrite Z.add_0_r. by apply lookup_union_Some_l.
      * rewrite <-(Houts i y Hy). f_equal. lia.
    + (* try_pop *)
      destruct o as [x|]; [|subst q1; exact (IH _ _ _ _ _ Hinv Hok Hnodup Hfresh Hrun')].
      destruct Hstep as [Hx Hinv1].
      destruct (IH P (k + 1) q1 q' outs') as [Hinv' Houts]; try done.
      simpl. rewrite Nat2Z.inj_succ.
      replace (k + Z.succ (Z.of_nat (length outs'))) with
        (k + 1 + Z.of_nat (length outs')) by lia.
      split; [done|]. intros [|i] y Hy; simplify_eq/=.
      * rewrite Z.add_0_r. by apply lookup_union_Some_l.
      * rewrite <-(Houts i y Hy). f_equal. lia.
Qed.

(** Reachable states: what a well-used sequence of returning calls leaves. *)
Lemma reachable_inv calls q outs :
  well_used calls → run calls init = Some (q, outs) →
  queue_inv (pushed calls) (Z.of_nat (length outs)) q ∧
  ∀ (i : nat) x, outs !! i = Some x → pushed calls !! Z.of_nat i = Some x.
Proof.
  intros [Hok Hnodup] Hrun.
  destruct (run_preserves calls ∅ 0 init q outs) as [Hinv Houts]; try done.
  - apply queue_inv_init.
  - rewrite (left_id_L ∅ (∪)), Z.add_0_l in Hinv. split; [done|].
    intros i x Hx. specialize (Houts i x Hx).
    by rewrite (left_id_L ∅ (∪)), Z.add_0_l in Houts.
Qed.

Lemma last_slot_default P k q :
  queue_inv P k q → last (m_queue q) = Some T_default.
Proof.
  intros [Hk0 Hoff Hsize Hslots Hpushed Hpopped]. rewrite last_lookup.
  destruct (m_queue q !! pred (length (m_queue q))) as [x|] eqn:Hx.
  - rewrite (Hslots _ _ Hx). unfold slot_value.
    destruct (P !! (k + Z.of_nat (pred (length (m_queue q))))) as [v|] eqn:Hv; [|done].
    apply Hpushed in Hv. lia.
  - apply lookup_ge_None in Hx. lia.
Qed.

Lemma push_returns P k q value num :
  queue_inv P k q → Int.is_size_t num → P !! num = None →
  num + 2 < 2 ^ 64 →
  ∃ q', push value num q = Returns () q' ∧
    Z.of_nat (length (m_queue q')) =
      Z.of_nat (length (m_queue q)) `max` (num - m_offset q + 2).
Proof.
  intros Hinv Hnum Hfresh Hbound.
  pose proof (queue_inv_fresh _ _ _ _ Hinv Hnum Hfresh) as Hk.
  destruct Hinv as [Hk0 Hoff Hsize Hslots Hpushed Hpopped].
  assert (Int.size_t k = k) as Hkk by size_t_lia.
  unfold push. rewrite Hoff, Hkk.
  assert (Int.size_t (num - k) = num - k) as -> by size_t_lia.
  assert (Int.size_t (num - k + 1) = num - k + 1) as -> by size_t_lia.
  assert (Int.size_t (num - k + 2) = num - k + 2) as -> by size_t_lia.
  destruct (decide (Z.of_nat (length (m_queue q)) ≤ num - k + 1)) as [Hgrow|Hgrow].
  - rewrite !(bool_decide_eq_true_2 _ Hgrow), length_resize.
    rewrite bool_decide_eq_true_2 by lia. eexists; split; [done|]. simpl.
    rewrite length_insert, length_resize. lia.
  - rewrite !(bool_decide_eq_false_2 _ Hgrow).
    rewrite bool_decide_eq_true_2 by lia. eexists; split; [done|]. simpl.
    rewrite length_insert. lia.
Qed.

(** Pushes and [try_pop]s never get stuck: every such sequence returns. *)
Lemma run_returns calls : ∀ P k q,
  queue_inv P k q →
  Forall push_ok calls → NoDup (push_nums calls) →
  (∀ num, num ∈ push_nums calls → P !! num = None ∧ num + 2 < 2 ^ 64) →
  WaitAndPop ∉ calls →
  is_Some (run calls q).
Proof.
  induction calls as [|c calls IH]; intros P k q Hinv Hok Hnodup Hfresh Hwait;
    [by eexists|].
  apply Forall_cons in Hok as [Hc Hok]. apply not_elem_of_cons in Hwait as [Hne Hwait].
  cbn [run]. destruct c as [value num| |]; [|done|]; unfold exec.
  - unfold push_nums in Hnodup, Hfresh. simpl in Hnodup, Hfresh, Hc.
    apply NoDup_cons in Hnodup as [Hnotin Hnodup]. destruct Hc as [Hnum Hvalue].
    destruct (Hfresh num) as [Hnone Hbound]; [left|].
    destruct (push_returns _ _ _ value _ Hinv Hnum Hnone Hbound) as (q1 & Hpush & _).
    rewrite Hpush.
    destruct (IH (<[num := value]> P) k q1) as [[q2 outs] ->]; try done.
    + eapply push_preserves; eauto.
    + intros n Hn. destruct (Hfresh n) as [? ?]; [by right|].
      rewrite lookup_insert_ne; [done|by intros ->].
  - unfold try_pop. rewrite (empty_intern_spec _ _ _ Hinv).
    case_bool_decide as Hfront.
    + destruct (IH P k q) as [[q2 outs] ->]; by try done.
    + destruct (pop_front q) as [[x q1]|] eqn:Hpop.
      * assert (empty_intern q = Some false) as Hempty.
        { rewrite (empty_intern_spec _ _ _ Hinv). by rewrite bool_decide_eq_false_2. }
        destruct (pop_front_preserves P k q x q1 Hinv Hempty Hpop) as [_ Hinv1].
        destruct (IH P (k + 1) q1) as [[q2 outs] ->]; by try done.
      * unfold pop_front in Hpop. destruct Hinv as [_ _ Hsize _ _ _].
        destruct (m_queue q); [simpl in Hsize; lia|done].
Qed.

(** C1 (SortedQueue::push, wait_and_pop, try_pop): when every sequence number
    is handed to one push only and no pushed value compares equal to [T()],
    the values handed out by the pops are the pushed values in ascending
    sequence number, starting from the front offset: after [calls1] handed
    out [outs1], the offset is the number of values handed out so far, and
    the values [outs2] handed out by any continuation [calls2] are the values
    pushed under the numbers [offset], [offset + 1], ..., one after the
    other. So the value of number [n] is handed out after those of all
    smaller numbers, in whatever order the pushes arrive. *)
Theorem pops_in_ascending_sequence_number calls1 calls2 q1 outs1 q2 outs2 :
  well_used (calls1 ++ calls2) →
  run calls1 init = Some (q1, outs1) →
  run calls2 q1 = Some (q2, outs2) →
  m_offset q1 = Int.size_t (Z.of_nat (length outs1)) ∧
  Some <$> outs1 =
    (pushed (calls1 ++ calls2) !!.) <$> seqZ 0 (Z.of_nat (length outs1)) ∧
  Some <$> outs2 =
    (pushed (calls1 ++ calls2) !!.) <$>
      seqZ (Z.of_nat (length outs1)) (Z.of_nat (length outs2)).
Proof.
  intros [Hok Hnodup] Hrun1 Hrun2.
  apply Forall_app in Hok as [Hok1 Hok2].
  rewrite push_nums_app in Hnodup. apply NoDup_app in Hnodup as (Hnd1 & Hdisj & Hnd2).
  destruct (reachable_inv calls1 q1 outs1) as [Hinv1 Houts1]; [done..|].
  destruct (run_preserves calls2 (pushed calls1) (Z.of_nat (length outs1)) q1 q2 outs2)
    as [Hinv2 Houts2]; try done.
  { intros num Hnum. apply pushed_None. intros Hin. by eapply Hdisj. }
  rewrite <-pushed_app in Houts2.
  split; [apply (inv_offset _ _ _ Hinv1)|]. split.
  - apply list_eq. intros i. rewrite !list_lookup_fmap.
    destruct (outs1 !! i) as [x|] eqn:Hx; simpl.
    + apply lookup_lt_Some in Hx as Hi. rewrite lookup_seqZ_lt by lia. simpl.
      rewrite Z.add_0_l, pushed_app. symmetry. f_equal.
      apply lookup_union_Some_l. by apply Houts1.
    + apply lookup_ge_None in Hx. by rewrite lookup_seqZ_ge by lia.
  - apply list_eq. intros i. rewrite !list_lookup_fmap.
    destruct (outs2 !! i) as [x|] eqn:Hx; simpl.
    + apply lookup_lt_Some in Hx as Hi. rewrite lookup_seqZ_lt by lia. simpl.
      symmetry. f_equal. by apply Houts2.
    + apply lookup_ge_None in Hx. by rewrite lookup_seqZ_ge by lia.
Qed.

(** C3 (SortedQueue::empty, empty_intern): in every reachable state, under
    the same precondition on the pushes, [empty()] is defined and is true
    exactly when nothing has been pushed under the sequence number of the
    front slot (the number of values handed out so far, which [m_offset]
    holds), whatever has been pushed under the later numbers. *)
Theorem empty_iff_front_slot_unfilled calls q outs :
  well_used calls →
  run calls init = Some (q, outs) →
  m_offset q = Int.size_t (Z.of_nat (length outs)) ∧
  empty q = Some (bool_decide (pushed calls !! Z.of_nat (length outs) = None)).
Proof.
  intros Hused Hrun. destruct (reachable_inv calls q outs) as [Hinv _]; [done..|].
  split; [apply (inv_offset _ _ _ Hinv)|]. by apply empty_intern_spec.
Qed.

(** C10 (SortedQueue constructor, push, pops): every state reached from the
    constructor by well-used pushes and pops has at least one slot and its
    last slot holds the default value, the spare slot that [push] keeps
    beyond the highest filled index by growing the deque to
    [num - offset + 2] slots; so the test of the front slot in [empty],
    [try_pop] and [wait_and_pop] never reads the front of an empty deque. *)
Theorem front_slot_always_exists calls q outs :
  well_used calls →
  run calls init = Some (q, outs) →
  m_queue q ≠ [] ∧
  last (m_queue q) = Some T_default ∧
  is_Some (empty q) ∧ try_pop q ≠ Undefined ∧ wait_and_pop q ≠ Undefined ∧
  ∀ value num, push_ok (Push value num) → num ∉ push_nums calls →
    num + 2 < 2 ^ 64 →
    ∃ q', push value num q = Returns () q' ∧
      Z.of_nat (length (m_queue q')) =
        Z.of_nat (length (m_queue q)) `max` (num - m_offset q + 2).
Proof.
  intros Hused Hrun. destruct (reachable_inv calls q outs) as [Hinv _]; [done..|].
  pose proof (last_slot_default _ _ _ Hinv) as Hlast.
  pose proof (empty_intern_spec _ _ _ Hinv) as Hempty.
  assert (m_queue q ≠ []) as Hne by (intros Hnil; by rewrite Hnil in Hlast).
  split_and!.
  - done.
  - done.
  - unfold empty. rewrite Hempty. by eexists.
  - unfold try_pop, pop_front. rewrite Hempty.
    destruct (bool_decide _); [done|]. by destruct (m_queue q).
  - unfold wait_and_pop, pop_front. rewrite Hempty.
    destruct (bool_decide _); [done|]. by destruct (m_queue q).
  - intros value num [Hnum _] Hfresh Hbound.
    eapply push_returns; eauto. by apply pushed_None.
Qed.

(** *** What pushes do to the deque *)

Lemma resize_insert_resize (l : list T) (x v : T) (d m1 m2 : nat) :
  (d < m1 ≤ m2)%nat → (length l ≤ m1)%nat →
  resize m2 x (<[d := v]> (resize m1 x l)) = <[d := v]> (resize m2 x l).
Proof.
  intros Hd Hl. apply list_eq. intros i.
  destruct (decide (m2 ≤ i)%nat) as [Hi|Hi].
  { rewrite lookup_resize_old by done. symmetry. apply lookup_ge_None.
    rewrite length_insert, length_resize. lia. }
  destruct (decide (i = d)) as [->|Hne].
  - rewrite lookup_resize by (rewrite ?length_insert, ?length_resize; lia).
    rewrite !list_lookup_insert_eq by (rewrite ?length_resize; lia). done.
  - rewrite list_lookup_insert_ne by done.
    destruct (decide (i < m1)%nat) as [Hlt|Hge].
    + rewrite lookup_resize by (rewrite ?length_insert, ?length_resize; lia).
      rewrite list_lookup_insert_ne by done.
      destruct (decide (i < length l)%nat).
      * by rewrite !lookup_resize by lia.
      * by rewrite !lookup_resize_new by lia.
    + rewrite lookup_resize_new by (rewrite ?length_insert, ?length_resize; lia).
      by rewrite lookup_resize_new by lia.
Qed.

(** [push] on a deque of fewer than 2^64 slots: it returns when the index
    arithmetic does not wrap, with the deque grown to [index + 2] slots
    when it was shorter and [value] in slot [index]. *)
Lemma push_spec value num q :
  size q < 2 ^ 64 →
  let index := Int.size_t (num - m_offset q) in
  push value num q =
    if bool_decide (index + 2 < 2 ^ 64)
    then Returns ()
           (mk (<[Z.to_nat index := value]>
                  (resize (Z.to_nat (size q `max` (index + 2))) T_default (m_queue q)))
               (m_offset q))
    else Undefined.
Proof.
  intros Hsize index. unfold size in *. unfold push. fold index.
  assert (0 ≤ index < 2 ^ 64) as Hindex.
  { unfold index, Int.size_t, Int.wrap_unsigned. apply Z.mod_pos_bound. lia. }
  change (2 ^ 64) with 18446744073709551616 in *.
  unfold Int.size_t, Int.wrap_unsigned. change (2 ^ 64) with 18446744073709551616.
  destruct (decide (index + 2 < 18446744073709551616)) as [Hfits|Hfits].
  - rewrite (bool_decide_eq_true_2 _ Hfits). rewrite !Z.mod_small by lia.
    destruct (decide (Z.of_nat (length (m_queue q)) ≤ index + 1)) as [Hgrow|Hgrow].
    + rewrite (bool_decide_eq_true_2 _ Hgrow), length_resize.
      rewrite bool_decide_eq_true_2 by lia. by rewrite Z.max_r by lia.
    + rewrite (bool_decide_eq_false_2 _ Hgrow).
      rewrite bool_decide_eq_true_2 by lia.
      rewrite Z.max_l, Nat2Z.id, resize_all by lia. done.
  - rewrite (bool_decide_eq_false_2 _ Hfits).
    destruct (decide (index = 18446744073709551615)) as [Hmax|Hne].
    + replace ((index + 1) `mod` 18446744073709551616) with 0
        by (rewrite Hmax; reflexivity).
      replace ((index + 2) `mod` 18446744073709551616) with 1
        by (rewrite Hmax; reflexivity).
      destruct (bool_decide (Z.of_nat (length (m_queue q)) ≤ 0));
        rewrite ?length_resize; rewrite bool_decide_eq_false_2; try done; lia.
    + assert (index = 18446744073709551614) as Hindex' by lia.
      replace ((index + 1) `mod` 18446744073709551616) with 18446744073709551615
        by (rewrite Hindex'; reflexivity).
      replace ((index + 2) `mod` 18446744073709551616) with 0
        by (rewrite Hindex'; reflexivity).
      rewrite (bool_decide_eq_true_2 (Z.of_nat (length (m_queue q)) ≤ _)) by lia.
      rewrite length_resize. rewrite bool_decide_eq_false_2; [done|simpl; lia].
Qed.


(** X2 (SortedQueue::push): pushes under two different numbers leave the
    same queue in either order of arrival. *)
Theorem pushes_commute value1 num1 value2 num2 q q1 q12 :
  size q < 2 ^ 64 →
  Int.size_t (num1 - m_offset q) ≠ Int.size_t (num2 - m_offset q) →
  push value1 num1 q = Returns () q1 →
  push value2 num2 q1 = Returns () q12 →
  ∃ q2, push value2 num2 q = Returns () q2 ∧ push value1 num1 q2 = Returns () q12.
Proof.
  intros Hsize Hne Hpush1 Hpush2.
  rewrite push_spec in Hpush1 by done.
  case_bool_decide as Hfits1; [|done]. simplify_eq.
  set (index1 := Int.size_t (num1 - m_offset q)) in *.
  set (index2 := Int.size_t (num2 - m_offset q)) in *.
  assert (0 ≤ index1) as Hindex1.
  { unfold index1, Int.size_t, Int.wrap_unsigned. apply Z.mod_pos_bound. lia. }
  assert (0 ≤ index2) as Hindex2.
  { unfold index2, Int.size_t, Int.wrap_unsigned. apply Z.mod_pos_bound. lia. }
  unfold size in Hsize.
  rewrite push_spec in Hpush2
    by (unfold size; cbn [m_queue]; rewrite length_insert, length_resize; lia).
  cbn [m_offset m_queue] in Hpush2. fold index2 in Hpush2.
  case_bool_decide as Hfits2; [|done]. simplify_eq.
  eexists. split.
  - rewrite push_spec by done. fold index2. by rewrite bool_decide_eq_true_2.
  - rewrite push_spec
      by (unfold size; cbn [m_queue]; rewrite length_insert, length_resize; lia).
    cbn [m_offset m_queue]. fold index1. rewrite bool_decide_eq_true_2 by done.
    do 2 f_equal. unfold size. cbn [m_queue].
    rewrite !length_insert, !length_resize.
    rewrite !resize_insert_resize by lia.
    rewrite list_insert_insert_ne by lia.
    do 3 f_equal. lia.
Qed.

(** X3 (SortedQueue::push, wait_and_pop, try_pop): no value is lost. In
    every state reached by well-used calls, a value pushed under [num] has
    been handed out as the [num]-th value when [num] is below the number of
    values handed out, and waits in slot [num - offset] of the deque
    otherwise; and every slot holds the value pushed under its number, or
    the default value when there is none. *)
Theorem pushed_values_are_handed_out_or_wait calls q outs :
  well_used calls →
  run calls init = Some (q, outs) →
  (∀ num value,
     pushed calls !! num = Some value →
     if bool_decide (num < Z.of_nat (length outs))
     then outs !! Z.to_nat num = Some value
     else m_queue q !! Z.to_nat (num - Z.of_nat (length outs)) = Some value) ∧
  (∀ (i : nat) x,
     m_queue q !! i = Some x →
     x = default T_default (pushed calls !! (Z.of_nat (length outs) + Z.of_nat i))).
Proof.
  intros Hused Hrun. destruct (reachable_inv calls q outs) as [Hinv Houts]; [done..|].
  split.
  - intros num value Hnum.
    destruct (inv_pushed _ _ _ Hinv _ _ Hnum) as ([Hnum0 _] & _ & Hslot).
    case_bool_decide as Hout.
    + destruct (lookup_lt_is_Some_2 outs (Z.to_nat num)) as [x Hx]; [lia|].
      pose proof (Houts _ _ Hx) as Hx'. rewrite Z2Nat.id in Hx' by done. congruence.
    + destruct (lookup_lt_is_Some_2 (m_queue q)
                  (Z.to_nat (num - Z.of_nat (length outs)))) as [x Hx]; [lia|].
      rewrite Hx. f_equal. rewrite (inv_slots _ _ _ Hinv _ _ Hx).
      unfold slot_value. rewrite Z2Nat.id by lia.
      replace (Z.of_nat (length outs) + (num - Z.of_nat (length outs))) with num by lia.
      by rewrite Hnum.
  - intros i x Hx. apply (inv_slots _ _ _ Hinv _ _ Hx).
Qed.

End sorted_queue_facts.

(** ** The PrimitiveBlock decoder *)

Section decoder_facts.
Import Pbf.
Implicit Types (p : parser) (dense : DenseNodes) (st : dense_state).

(** A loop that appends one entity per element. *)
Lemma for_each_append {A} (f : A → result entity) (l : list A) : ∀ buffer buffer',
  for_each (λ a buffer, e ← f a; Ok (buffer ++ [e])) l buffer = Ok buffer' →
  ∃ es, buffer' = buffer ++ es ∧ Forall2 (λ a e, f a = Ok e) l es.
Proof.
  induction l as [|a l IH]; intros buffer buffer' Hloop; simpl in Hloop.
  - simplify_eq. exists []. by rewrite app_nil_r.
  - destruct (f a) as [err|e] eqn:Hf; simpl in Hloop; [done|].
    destruct (IH _ _ Hloop) as (es & -> & Hes).
    exists (e :: es). rewrite <-app_assoc. split; [done|]. by constructor.
Qed.

Lemma dense_nodes_loop_turns p dense indices : ∀ st buffer st' buffer',
  dense_nodes_loop p dense indices st buffer = Ok (st', buffer') →
  ∃ es, buffer' = buffer ++ es ∧ dense_turns p dense indices st es st'.
Proof.
  unfold dense_nodes_loop.
  induction indices as [|i indices IH]; intros st buffer st' buffer' Hloop;
    simpl in Hloop.
  - simplify_eq. exists []. rewrite app_nil_r. split; [done|constructor].
  - destruct (parse_dense_node p dense i st) as [err|[st1 e]] eqn:Hnode;
      simpl in Hloop; [done|].
    destruct (IH _ _ _ _ Hloop) as (es & -> & Hes).
    exists (e :: es). rewrite <-app_assoc. split; [done|]. by econstructor.
Qed.

(** What a successful turn of the dense loop has done. *)
Lemma parse_dense_node_inv p dense i st st' e :
  parse_dense_node p dense i st = Ok (st', e) →
  ∃ delta_lat delta_lon o tl,
    dense_lat dense !! i = Some delta_lat ∧
    dense_lon dense !! i = Some delta_lon ∧
    add_tags p dense (last_dense_tag st) = Ok (last_dense_tag st', tl) ∧
    e = a_node (with_tags o tl)
          (if visible o
           then make_location p (Int.int64 (last_dense_longitude st + delta_lon))
                  (Int.int64 (last_dense_latitude st + delta_lat))
           else Location_undefined) ∧
    tags o = [] ∧
    match dense_denseinfo dense with
    | Some denseinfo =>
        (∃ delta_timestamp,
           denseinfo_timestamp denseinfo !! i = Some delta_timestamp ∧
           last_dense_timestamp st' =
             Int.int64 (last_dense_timestamp st + delta_timestamp)) ∧
        timestamp o = Int.int64 (last_dense_timestamp st' * m_date_factor p) ∧
        (denseinfo_visible denseinfo = [] ∧ visible o = true ∨
         denseinfo_visible denseinfo !! i = Some (visible o))
    | None =>
        last_dense_timestamp st' = last_dense_timestamp st ∧
        timestamp o = 0 ∧ visible o = true
    end.
Proof.
  unfold parse_dense_node, get. intros Hnode.
  destruct (dense_id dense !! i) as [delta_id|]; simpl in Hnode; [|done].
  destruct (dense_lat dense !! i) as [delta_lat|]; simpl in Hnode; [|done].
  destruct (dense_lon dense !! i) as [delta_lon|]; simpl in Hnode; [|done].
  destruct (dense_denseinfo dense) as [denseinfo|]; simpl in Hnode.
  - destruct (denseinfo_changeset denseinfo !! i); simpl in Hnode; [|done].
    destruct (denseinfo_timestamp denseinfo !! i) as [delta_timestamp|];
      simpl in Hnode; [|done].
    destruct (denseinfo_uid denseinfo !! i); simpl in Hnode; [|done].
    destruct (denseinfo_user_sid denseinfo !! i); simpl in Hnode; [|done].
    destruct (denseinfo_visible denseinfo) as [|v vs] eqn:Hvs;
      [|destruct ((v :: vs) !! i) as [is_visible|] eqn:Hvi]; simpl in Hnode;
      [| |done].
    all: destruct (denseinfo_version denseinfo !! i); simpl in Hnode; [|done].
    all: destruct (stringtable_s p _) as [?|user_name]; simpl in Hnode; [done|].
    all: destruct (add_tags p dense (last_dense_tag st)) as [?|[n tl]] eqn:Htags;
      simpl in Hnode; [done|].
    all: match type of Hnode with context [with_tags ?o _] =>
           simplify_eq; exists delta_lat, delta_lon, o, tl end.
    all: split_and!; try reflexivity; simpl; eauto.
  - destruct (add_tags p dense (last_dense_tag st)) as [?|[n tl]] eqn:Htags;
      simpl in Hnode; [done|].
    match type of Hnode with context [with_tags ?o _] =>
      simplify_eq; exists delta_lat, delta_lon, o, tl end.
    split_and!; reflexivity.
Qed.

(** *** Dense tags *)

Lemma length_flat_pairs ps : length (flat_pairs ps) = (2 * length ps)%nat.
Proof.
  unfold flat_pairs. induction ps as [|kv ps IH]; [done|].
  rewrite fmap_cons. cbn [concat app length]. rewrite IH. lia.
Qed.

Lemma add_tags_loop_pairs p ps rest :
  Forall key_nonzero ps →
  add_tags_loop p (flat_pairs ps ++ 0 :: rest) =
    (tl ← add_tag_loop p ps.*1 ps.*2; Ok (S (2 * length ps), tl)).
Proof.
  induction 1 as [|[k v] ps Hk _ IH]; [done|].
  unfold key_nonzero in Hk. simpl in Hk.
  change (flat_pairs ((k, v) :: ps)) with (k :: v :: flat_pairs ps).
  cbn [app add_tags_loop fmap list_fmap fst snd add_tag_loop].
  rewrite bool_decide_eq_false_2 by done. rewrite IH.
  destruct (stringtable_s p k) as [?|key]; [done|].
  destruct (stringtable_s p v) as [?|val]; [done|]. simpl.
  destruct (add_tag_loop p ps.*1 ps.*2) as [?|tl]; [done|]. simpl.
  do 2 f_equal. lia.
Qed.

Lemma add_tags_pairs p dense n ps rest :
  drop n (dense_keys_vals dense) = flat_pairs ps ++ 0 :: rest →
  Forall key_nonzero ps →
  add_tags p dense n =
    (tl ← add_tag_loop p ps.*1 ps.*2; Ok ((n + S (2 * length ps))%nat, tl)).
Proof.
  intros Hdrop Hps. unfold add_tags.
  assert (dense_keys_vals dense !! n = head (flat_pairs ps ++ 0 :: rest)) as ->.
  { rewrite <-Hdrop, <-(Nat.add_0_r n) at 1. by rewrite <-lookup_drop, head_lookup. }
  destruct Hps as [|[k v] ps Hk Hps].
  - simpl. f_equal. f_equal. lia.
  - change (flat_pairs ((k, v) :: ps)) with (k :: v :: flat_pairs ps) in *.
    cbn [head app]. rewrite bool_decide_eq_false_2 by done. rewrite Hdrop.
    change (k :: v :: flat_pairs ps) with (flat_pairs ((k, v) :: ps)).
    rewrite add_tags_loop_pairs by by constructor.
    by destruct (add_tag_loop p _ _).
Qed.

(** The cursor runs through [keys_vals] once: each node of the group takes
    its chunk, whatever the other columns hold. *)
Lemma dense_turns_tags p dense indices st es st' :
  dense_turns p dense indices st es st' →
  ∀ chunks rest,
    length chunks = length indices →
    Forall (Forall key_nonzero) chunks →
    drop (last_dense_tag st) (dense_keys_vals dense) = dense_keys_vals_of chunks ++ rest →
    Forall2 (λ e ps, add_tag_loop p ps.*1 ps.*2 = Ok (tags (object_of e))) es chunks ∧
    drop (last_dense_tag st') (dense_keys_vals dense) = rest.
Proof.
  induction 1 as [st|i indices st st1 e es st2 Hnode Hturns IH];
    intros chunks rest Hlen Hnz Hdrop.
  - destruct chunks; [|done]. split; [constructor|done].
  - destruct chunks as [|ps chunks]; [done|].
    apply Forall_cons in Hnz as [Hps Hnz].
    destruct (parse_dense_node_inv _ _ _ _ _ _ Hnode)
      as (? & ? & o & tl & _ & _ & Htags & -> & _).
    change (dense_keys_vals_of (ps :: chunks)) with
      ((flat_pairs ps ++ [0]) ++ dense_keys_vals_of chunks) in Hdrop.
    rewrite <-!app_assoc in Hdrop. simpl in Hdrop.
    rewrite (add_tags_pairs _ _ _ _ _ Hdrop Hps) in Htags.
    destruct (add_tag_loop p ps.*1 ps.*2) as [?|tl'] eqn:Hresolve; [done|].
    simpl in Htags. simplify_eq.
    destruct (IH chunks rest) as [Hes Hrest]; [by simplify_eq/=|done| |].
    { match goal with Hc : _ = last_dense_tag st1 |- _ => rewrite <-Hc end.
      rewrite <-drop_drop, Hdrop, (cons_middle 0), app_assoc.
      apply drop_app_length'.
      rewrite length_app, length_flat_pairs. simpl. lia. }
    split; [|done]. by constructor.
Qed.

Lemma parse_dense_node_group_tags p dense chunks buffer buffer' :
  dense_keys_vals dense = dense_keys_vals_of chunks →
  length chunks = length (dense_id dense) →
  Forall (Forall key_nonzero) chunks →
  parse_dense_node_group p dense buffer = Ok buffer' →
  ∃ es, buffer' = buffer ++ es ∧
    Forall2 (λ e ps, add_tag_loop p ps.*1 ps.*2 = Ok (tags (object_of e))) es chunks.
Proof.
  intros Hkv Hlen Hnz Hgroup. unfold parse_dense_node_group in Hgroup.
  destruct (dense_nodes_loop _ _ _ _ _) as [?|[st' buffer'']] eqn:Hloop;
    simpl in Hgroup; simplify_eq.
  destruct (dense_nodes_loop_turns _ _ _ _ _ _ _ Hloop) as (es & -> & Hturns).
  exists es. split; [done|].
  eapply (dense_turns_tags _ _ _ _ _ _ Hturns chunks []); [|done|].
  - by rewrite length_seq.
  - simpl. by rewrite Hkv, app_nil_r.
Qed.

(** C4 (add_tags, parse_dense_node_group): the tags of a dense group are
    read off the flat [keys_vals] array by one cursor that all nodes of the
    group share. A node whose next index is 0 gets no tags and the cursor
    moves past the 0; a cursor past the end leaves the node without tags;
    otherwise the node takes (key, value) index pairs up to the 0 sentinel
    and the cursor stops behind it. So when [keys_vals] lists the pairs of
    every node, each closed by 0, every node gets the strings of its own
    pairs. For [keys_vals = [1,2,0,0,3,4,0]] and the string table
    ["", "a", "b", "c", "d"] the three nodes get {a→b}, nothing, {c→d}. *)
Theorem dense_tags_shared_cursor :
  (∀ p dense n,
     dense_keys_vals dense !! n = Some 0 → add_tags p dense n = Ok (S n, [])) ∧
  (∀ p dense n,
     dense_keys_vals dense !! n = None → add_tags p dense n = Ok (n, [])) ∧
  (∀ p dense n ps rest,
     drop n (dense_keys_vals dense) = flat_pairs ps ++ 0 :: rest →
     Forall key_nonzero ps →
     add_tags p dense n =
       (tl ← add_tag_loop p ps.*1 ps.*2; Ok ((n + S (2 * length ps))%nat, tl))) ∧
  (∀ p dense chunks buffer buffer',
     dense_keys_vals dense = dense_keys_vals_of chunks →
     length chunks = length (dense_id dense) →
     Forall (Forall key_nonzero) chunks →
     parse_dense_node_group p dense buffer = Ok buffer' →
     ∃ es, buffer' = buffer ++ es ∧
       Forall2 (λ e ps, add_tag_loop p ps.*1 ps.*2 = Ok (tags (object_of e)))
         es chunks) ∧
  (∀ p dense buffer buffer',
     m_stringtable p = s2_stringtable →
     dense_keys_vals dense = [1; 2; 0; 0; 3; 4; 0] →
     length (dense_id dense) = 3%nat →
     parse_dense_node_group p dense buffer = Ok buffer' →
     ∃ es, buffer' = buffer ++ es ∧
       (tags ∘ object_of) <$> es = [[("a", "b")]; []; [("c", "d")]]%string) ∧
  (∃ es, parse_primitive_block (Some s2_block) item_flags_node = Ok es ∧
     (tags ∘ object_of) <$> es = [[("a", "b")]; []; [("c", "d")]]%string).
Proof.
  split_and!.
  - intros p dense n Hn. unfold add_tags. by rewrite Hn.
  - intros p dense n Hn. unfold add_tags. by rewrite Hn.
  - apply add_tags_pairs.
  - apply parse_dense_node_group_tags.
  - intros p dense buffer buffer' Hst Hkv Hlen Hgroup.
    destruct (parse_dense_node_group_tags p dense [[(1, 2)]; []; [(3, 4)]]
                buffer buffer') as (es & -> & Hes); try done.
    { repeat constructor; unfold key_nonzero; simpl; lia. }
    exists es. split; [done|].
    repeat match goal with
    | H : Forall2 _ _ (_ :: _) |- _ => apply Forall2_cons_inv_r in H as (? & ? & ? & ? & ->)
    | H : Forall2 _ _ [] |- _ => apply Forall2_nil_inv_r in H as ->
    end.
    unfold add_tag_loop, stringtable_s in *. simpl in *. rewrite Hst in *.
    simpl in *.
    repeat match goal with H : inr _ = inr _ |- _ => injection H as <- end.
    done.
  - eexists. split; [vm_compute; reflexivity|reflexivity].
Qed.

(** *** The header fields of the entities *)

Lemma object_with_info_inv p object_id info o :
  object_with_info p object_id info = Ok o →
  tags o = [] ∧
  match info with
  | Some i =>
      timestamp o = Int.int64 (info_timestamp i * m_date_factor p) ∧
      visible o = match info_visible i with Some v => v | None => true end
  | None => timestamp o = 0 ∧ visible o = true
  end.
Proof.
  unfold object_with_info. destruct info as [i|]; intros Ho.
  - destruct (stringtable_s p _) as [?|user_name]; simpl in Ho; [done|].
    by simplify_eq.
  - by simplify_eq.
Qed.

Lemma parse_node_inv p pbf_node e :
  parse_node p pbf_node = Ok e →
  ∃ o tl,
    object_with_info p (node_id pbf_node) (node_info pbf_node) = Ok o ∧
    e = a_node (with_tags o tl)
          (if visible o
           then make_location p (node_lon pbf_node) (node_lat pbf_node)
           else Location_undefined).
Proof.
  unfold parse_node. intros Hnode.
  destruct (object_with_info p _ _) as [?|o]; simpl in Hnode; [done|].
  destruct (add_tag_loop p _ _) as [?|tl]; simpl in Hnode; [done|].
  simplify_eq. eauto.
Qed.

Lemma parse_way_inv p pbf_way e :
  parse_way p pbf_way = Ok e →
  ∃ o tl nodes,
    object_with_info p (way_id pbf_way) (way_info pbf_way) = Ok o ∧
    e = a_way (with_tags o tl) nodes.
Proof.
  unfold parse_way. intros Hway.
  destruct (object_with_info p _ _) as [?|o]; simpl in Hway; [done|].
  destruct (add_tag_loop p _ _) as [?|tl]; simpl in Hway; [done|].
  simplify_eq. eauto.
Qed.

Lemma parse_relation_inv p pbf_relation e :
  parse_relation p pbf_relation = Ok e →
  ∃ o tl members,
    object_with_info p (relation_id pbf_relation) (relation_info pbf_relation) = Ok o ∧
    e = a_relation (with_tags o tl) members.
Proof.
  unfold parse_relation. intros Hrelation.
  destruct (object_with_info p _ _) as [?|o]; simpl in Hrelation; [done|].
  destruct (relation_members p _ _ _ _) as [?|members]; simpl in Hrelation; [done|].
  destruct (add_tag_loop p _ _) as [?|tl]; simpl in Hrelation; [done|].
  simplify_eq. eauto.
Qed.

(** A property of every entity the four entity parsers build holds of
    every entity of the buffer [operator()] returns. *)
Section every_entity.
Context (p : parser) (P : entity → Prop).
Context (P_node : ∀ pbf_node e, parse_node p pbf_node = Ok e → P e).
Context (P_way : ∀ pbf_way e, parse_way p pbf_way = Ok e → P e).
Context (P_relation : ∀ pbf_relation e, parse_relation p pbf_relation = Ok e → P e).
Context (P_dense : ∀ dense i st st' e,
  parse_dense_node p dense i st = Ok (st', e) → P e).

Lemma for_each_append_Forall {A} (f : A → result entity) (l : list A) buffer buffer' :
  (∀ a e, f a = Ok e → P e) →
  for_each (λ a buffer, e ← f a; Ok (buffer ++ [e])) l buffer = Ok buffer' →
  Forall P buffer → Forall P buffer'.
Proof.
  intros Hf Hloop Hbuffer.
  destruct (for_each_append _ _ _ _ Hloop) as (es & -> & Hes).
  apply Forall_app. split; [done|]. clear Hloop.
  induction Hes as [|a e l es Hae _ IH]; constructor; [by eapply Hf|done].
Qed.

Lemma dense_turns_Forall dense indices st es st' :
  dense_turns p dense indices st es st' → Forall P es.
Proof. induction 1; constructor; eauto. Qed.

Lemma parse_group_Forall group buffer buffer' :
  parse_group p group buffer = Ok buffer' →
  Forall P buffer → Forall P buffer'.
Proof.
  unfold parse_group. intros Hgroup Hbuffer.
  destruct (group_dense group) as [dense|].
  - destruct (has_flag _ _); [|by simplify_eq].
    unfold parse_dense_node_group in Hgroup.
    destruct (dense_nodes_loop _ _ _ _ _) as [?|[st' buffer'']] eqn:Hloop;
      simpl in Hgroup; simplify_eq.
    destruct (dense_nodes_loop_turns _ _ _ _ _ _ _ Hloop) as (es & -> & Hturns).
    apply Forall_app. split; [done|]. by eapply dense_turns_Forall.
  - repeat case_bool_decide; try done;
      (destruct (has_flag _ _); [|by simplify_eq]);
      refine (for_each_append_Forall _ _ _ _ _ Hgroup Hbuffer); eauto.
Qed.

Lemma parse_groups_Forall groups : ∀ buffer buffer',
  for_each (parse_group p) groups buffer = Ok buffer' →
  Forall P buffer → Forall P buffer'.
Proof.
  induction groups as [|group groups IH]; intros buffer buffer' Hloop Hbuffer;
    simpl in Hloop; [by simplify_eq|].
  destruct (parse_group p group buffer) as [?|buffer1] eqn:Hgroup;
    simpl in Hloop; [done|].
  eapply IH; [done|]. by eapply parse_group_Forall.
Qed.

End every_entity.

(** *** Visibility and location *)

(** C5 (parse_node_group, parse_dense_node_group): a decoded node is
    invisible exactly when a visible field is present and false (in [info]
    of a plain node, at the node's index in [denseinfo] of a dense one); an
    invisible node has the undefined location, and a visible one, so every
    node without a visible field, has the location computed from the
    coordinates of the PBF node: each coordinate (for a dense node the
    running sum of the deltas) times the granularity, plus the offset,
    both in 64-bit arithmetic, divided by 100, which is [lonlat_resolution]
    by [coordinate_precision]. Every node of the buffer the block parser
    returns is invisible only with the undefined location. *)
Theorem invisible_nodes_have_undefined_location :
  (∀ p pbf_node e,
     parse_node p pbf_node = Ok e →
     ∃ o location, e = a_node o location ∧
       (visible o = false ↔
          ∃ i, node_info pbf_node = Some i ∧ info_visible i = Some false) ∧
       (visible o = false → location = Location_undefined) ∧
       (visible o = true →
          location =
            Location_xy
              (Int.int64 (Int.int64 (node_lon pbf_node * m_granularity p) +
                          m_lon_offset p) `quot` 100)
              (Int.int64 (Int.int64 (node_lat pbf_node * m_granularity p) +
                          m_lat_offset p) `quot` 100))) ∧
  (∀ p dense i st st' e,
     parse_dense_node p dense i st = Ok (st', e) →
     ∃ o location, e = a_node o location ∧
       (visible o = false ↔
          ∃ denseinfo, dense_denseinfo dense = Some denseinfo ∧
            denseinfo_visible denseinfo !! i = Some false) ∧
       (visible o = false → location = Location_undefined) ∧
       (visible o = true →
          ∃ delta_lat delta_lon,
            dense_lat dense !! i = Some delta_lat ∧
            dense_lon dense !! i = Some delta_lon ∧
            location =
              Location_xy
                (Int.int64
                   (Int.int64 (Int.int64 (last_dense_longitude st + delta_lon) *
                               m_granularity p) + m_lon_offset p) `quot` 100)
                (Int.int64
                   (Int.int64 (Int.int64 (last_dense_latitude st + delta_lat) *
                               m_granularity p) + m_lat_offset p) `quot` 100))) ∧
  (∀ parsed read_types items,
     parse_primitive_block parsed read_types = Ok items →
     Forall invisible_without_location items).
Proof.
  assert (∀ p pbf_node e,
     parse_node p pbf_node = Ok e →
     ∃ o location, e = a_node o location ∧
       (visible o = false ↔
          ∃ i, node_info pbf_node = Some i ∧ info_visible i = Some false) ∧
       (visible o = false → location = Location_undefined) ∧
       (visible o = true →
          location =
            Location_xy
              (Int.int64 (Int.int64 (node_lon pbf_node * m_granularity p) +
                          m_lon_offset p) `quot` 100)
              (Int.int64 (Int.int64 (node_lat pbf_node * m_granularity p) +
                          m_lat_offset p) `quot` 100)))
    as Hplain.
  { intros p pbf_node e Hnode.
    destruct (parse_node_inv _ _ _ Hnode) as (o & tl & Ho & ->).
    destruct (object_with_info_inv _ _ _ _ Ho) as [_ Hinfo].
    eexists _, _. split; [done|]. simpl.
    destruct (node_info pbf_node) as [i|] eqn:Hi; destruct Hinfo as [_ Hvisible];
      rewrite Hvisible.
    - destruct (info_visible i) as [[]|] eqn:Hv; (split_and!; [|done|done]);
        (split; [intros ?; try done; by eauto
                |by intros (i0 & ? & ?); simplify_eq]).
    - split_and!; [|done|done]. split; [done|]. by intros (i0 & ? & ?). }
  assert (∀ p dense i st st' e,
     parse_dense_node p dense i st = Ok (st', e) →
     ∃ o location, e = a_node o location ∧
       (visible o = false ↔
          ∃ denseinfo, dense_denseinfo dense = Some denseinfo ∧
            denseinfo_visible denseinfo !! i = Some false) ∧
       (visible o = false → location = Location_undefined) ∧
       (visible o = true →
          ∃ delta_lat delta_lon,
            dense_lat dense !! i = Some delta_lat ∧
            dense_lon dense !! i = Some delta_lon ∧
            location =
              Location_xy
                (Int.int64
                   (Int.int64 (Int.int64 (last_dense_longitude st + delta_lon) *
                               m_granularity p) + m_lon_offset p) `quot` 100)
                (Int.int64
                   (Int.int64 (Int.int64 (last_dense_latitude st + delta_lat) *
                               m_granularity p) + m_lat_offset p) `quot` 100))) as Hdense.
  { intros p dense i st st' e Hnode.
    destruct (parse_dense_node_inv _ _ _ _ _ _ Hnode)
      as (delta_lat & delta_lon & o & tl & Hlat & Hlon & _ & -> & _ & Hinfo).
    eexists _, _. split; [done|]. simpl.
    destruct (dense_denseinfo dense) as [denseinfo|].
    - destruct Hinfo as (_ & _ & [[Hnil Hvisible]|Hvisible]).
      + rewrite Hvisible. split_and!; [|done|by eauto].
        split; [done|]. intros (? & ? & Hf); simplify_eq.
        by rewrite Hnil in Hf.
      + destruct (visible o); (split_and!; [|done|by eauto]);
          (split; [intros ?; try done; by eauto
                  |by intros (? & ? & ?); simplify_eq]).
    - destruct Hinfo as (_ & _ & ->). split_and!; [|done|by eauto].
      split; [done|]. by intros (? & ? & ?). }
  split_and!; [done..|].
  intros [block|] read_types items Hitems; simpl in Hitems; [|done].
  eapply parse_groups_Forall; [..|exact Hitems|constructor].
  - intros pbf_node e He. destruct (Hplain _ _ _ He) as (? & ? & -> & _ & ? & _).
    done.
  - intros pbf_way e He. by destruct (parse_way_inv _ _ _ He) as (? & ? & ? & _ & ->).
  - intros pbf_relation e He.
    by destruct (parse_relation_inv _ _ _ He) as (? & ? & ? & _ & ->).
  - intros dense i st st' e He.
    destruct (Hdense _ _ _ _ _ _ He) as (? & ? & -> & _ & ? & _). done.
Qed.

(** *** Timestamps *)

Lemma int64_0 : Int.int64 0 = 0.
Proof. reflexivity. Qed.

Lemma int64_in_range z : Int.is_int64 z → Int.int64 z = z.
Proof.
  unfold Int.is_int64, Int.int64, Int.wrap_signed. intros Hz.
  change (2 ^ (64 - 1)) with 9223372036854775808 in *.
  change (2 ^ 63) with 9223372036854775808 in *.
  change (2 ^ 64) with 18446744073709551616.
  rewrite Z.mod_small; lia.
Qed.

(** C6, as the spec states it, fails: -1000 is a [date_granularity] below
    1000, the factor is -1 and the timestamp 5 decodes to -5. *)
Lemma date_granularity_below_1000_counterexample :
  block_date_granularity negative_granularity_block < 1000 ∧
  m_date_factor (parser_for negative_granularity_block item_flags_node) = -1 ∧
  parse_primitive_block (Some negative_granularity_block) item_flags_node =
    Ok [a_node {| id := 1; version := 1; changeset := 1; timestamp := -5; uid := 1;
                  visible := true; user := "u"; tags := [] |}
          (Location_xy 0 0)].
Proof. split_and!; [done|reflexivity|vm_compute; reflexivity]. Qed.

(** C6, amended (operator(), the four group parsers): the timestamp of a
    plain node, way or relation with [info] is the PBF timestamp times the
    factor [date_granularity / 1000], the division being the integer
    division of C++ and the product a 64-bit one; that of a dense node with
    [denseinfo] is the running sum of the timestamp deltas times the same
    factor. For [date_granularity = 1000] the factor is 1 and a 64-bit
    timestamp is stored as it is; for [-1000 < date_granularity < 1000] the
    factor is 0 and every timestamp of the block decodes to 0. *)
Theorem timestamps_scaled_by_date_factor block read_types :
  let p := parser_for block read_types in
  let factor := block_date_granularity block `quot` 1000 in
  m_date_factor p = factor ∧
  (∀ pbf_node e i,
     parse_node p pbf_node = Ok e → node_info pbf_node = Some i →
     timestamp (object_of e) = Int.int64 (info_timestamp i * factor)) ∧
  (∀ pbf_way e i,
     parse_way p pbf_way = Ok e → way_info pbf_way = Some i →
     timestamp (object_of e) = Int.int64 (info_timestamp i * factor)) ∧
  (∀ pbf_relation e i,
     parse_relation p pbf_relation = Ok e → relation_info pbf_relation = Some i →
     timestamp (object_of e) = Int.int64 (info_timestamp i * factor)) ∧
  (∀ dense i st st' e denseinfo,
     parse_dense_node p dense i st = Ok (st', e) →
     dense_denseinfo dense = Some denseinfo →
     ∃ delta_timestamp,
       denseinfo_timestamp denseinfo !! i = Some delta_timestamp ∧
       last_dense_timestamp st' = Int.int64 (last_dense_timestamp st + delta_timestamp) ∧
       timestamp (object_of e) = Int.int64 (last_dense_timestamp st' * factor)) ∧
  (block_date_granularity block = 1000 →
     factor = 1 ∧ ∀ pbf_timestamp,
       Int.is_int64 pbf_timestamp → Int.int64 (pbf_timestamp * factor) = pbf_timestamp) ∧
  (-1000 < block_date_granularity block < 1000 →
     factor = 0 ∧ ∀ items,
       parse_primitive_block (Some block) read_types = Ok items →
       Forall (λ e, timestamp (object_of e) = 0) items).
Proof.
  intros p factor.
  assert (m_date_factor p = factor) as Hfactor by done.
  assert (∀ oid info o,
    object_with_info p oid info = Ok o →
    timestamp o = match info with
                  | Some i => Int.int64 (info_timestamp i * factor)
                  | None => 0
                  end) as Hobject.
  { intros oid info o Ho. destruct (object_with_info_inv _ _ _ _ Ho) as [_ Hinfo].
    destruct info; destruct Hinfo as [-> _]; by rewrite ?Hfactor. }
  split_and!.
  - done.
  - intros pbf_node e i He Hi.
    destruct (parse_node_inv _ _ _ He) as (o & tl & Ho & ->).
    simpl. by rewrite (Hobject _ _ _ Ho), Hi.
  - intros pbf_way e i He Hi.
    destruct (parse_way_inv _ _ _ He) as (o & tl & nodes & Ho & ->).
    simpl. by rewrite (Hobject _ _ _ Ho), Hi.
  - intros pbf_relation e i He Hi.
    destruct (parse_relation_inv _ _ _ He) as (o & tl & members & Ho & ->).
    simpl. by rewrite (Hobject _ _ _ Ho), Hi.
  - intros dense i st st' e denseinfo He Hdenseinfo.
    destruct (parse_dense_node_inv _ _ _ _ _ _ He)
      as (? & ? & o & tl & _ & _ & _ & -> & _ & Hinfo).
    rewrite Hdenseinfo in Hinfo.
    destruct Hinfo as ((delta_timestamp & Hdelta & Hsum) & Htimestamp & _).
    exists delta_timestamp. split_and!; [done..|]. simpl. by rewrite Htimestamp, Hfactor.
  - intros Hstandard. assert (factor = 1) as Hone.
    { unfold factor. by rewrite Hstandard. }
    split; [done|]. intros pbf_timestamp Hrange.
    rewrite Hone, Z.mul_1_r. by apply int64_in_range.
  - intros Hsmall. assert (factor = 0) as Hzero.
    { unfold factor. apply Z.quot_small_iff; lia. }
    split; [done|]. intros items Hitems. simpl in Hitems. fold p in Hitems.
    eapply parse_groups_Forall; [..|exact Hitems|constructor].
    + intros pbf_node e He. destruct (parse_node_inv _ _ _ He) as (o & tl & Ho & ->).
      simpl. rewrite (Hobject _ _ _ Ho), Hzero.
      destruct (node_info pbf_node); by rewrite ?Z.mul_0_r.
    + intros pbf_way e He.
      destruct (parse_way_inv _ _ _ He) as (o & tl & nodes & Ho & ->).
      simpl. rewrite (Hobject _ _ _ Ho), Hzero.
      destruct (way_info pbf_way); by rewrite ?Z.mul_0_r.
    + intros pbf_relation e He.
      destruct (parse_relation_inv _ _ _ He) as (o & tl & members & Ho & ->).
      simpl. rewrite (Hobject _ _ _ Ho), Hzero.
      destruct (relation_info pbf_relation); by rewrite ?Z.mul_0_r.
    + intros dense i st st' e He.
      destruct (parse_dense_node_inv _ _ _ _ _ _ He)
        as (? & ? & o & tl & _ & _ & _ & -> & _ & Hinfo).
      simpl. destruct (dense_denseinfo dense).
      * destruct Hinfo as (_ & -> & _). by rewrite Hfactor, Hzero, Z.mul_0_r.
      * by destruct Hinfo as (_ & -> & _).
Qed.

End decoder_facts.

(** ** The PrimitiveBlock decoder: deltas, tags, groups *)

Section decoder_more_facts.
Import Pbf.
Implicit Types (p : parser) (dense : DenseNodes) (st : dense_state).

Lemma int64_uint64_add a b : Int.int64 (Int.uint64 a + b) = Int.int64 (a + b).
Proof.
  unfold Int.int64, Int.uint64, Int.wrap_signed, Int.wrap_unsigned. f_equal.
  rewrite <-Z.add_assoc, Zplus_mod_idemp_l. by rewrite Z.add_assoc.
Qed.

Lemma int64_int64_add a b : Int.int64 (Int.int64 a + b) = Int.int64 (a + b).
Proof.
  unfold Int.int64, Int.wrap_signed. f_equal.
  change (2 ^ (64 - 1)) with 9223372036854775808.
  change (2 ^ 64) with 18446744073709551616.
  replace ((a + 9223372036854775808) `mod` 18446744073709551616 -
             9223372036854775808 + b + 9223372036854775808)
    with ((a + 9223372036854775808) `mod` 18446744073709551616 +
            (b + 0)) by lia.
  rewrite Zplus_mod_idemp_l. f_equal. lia.
Qed.

Lemma running_sum_cons delta deltas i :
  running_sum (delta :: deltas) (S i) = delta + running_sum deltas i.
Proof. done. Qed.

Lemma way_nodes_lookup refs : ∀ ref (i : nat),
  (i < length refs)%nat →
  way_nodes ref refs !! i = Some (Int.int64 (ref + running_sum refs i)).
Proof.
  induction refs as [|delta refs IH]; intros ref i Hi; simpl in Hi; [lia|].
  destruct i as [|i]; cbn [way_nodes lookup list_lookup].
  - rewrite <-(Z.add_0_r (Int.uint64 (ref + delta))), int64_uint64_add, Z.add_0_r.
    unfold running_sum, sum_of_first. simpl. do 2 f_equal. destruct refs; simpl; lia.
  - rewrite IH by lia. rewrite int64_uint64_add, running_sum_cons.
    do 2 f_equal. lia.
Qed.

Lemma length_way_nodes refs : ∀ ref, length (way_nodes ref refs) = length refs.
Proof. induction refs as [|delta refs IH]; intros ref; simpl; [done|]. by rewrite IH. Qed.

(** X4 (parse_way_group): the node references of a decoded way are the
    running sums of the [refs] deltas, one per delta and in their order,
    each taken modulo 2^64 as a signed number; they are the sums
    themselves when these are 64-bit numbers. *)
Theorem way_node_refs_are_running_sums p pbf_way e :
  parse_way p pbf_way = Ok e →
  ∃ o nodes,
    e = a_way o nodes ∧
    nodes = (λ i, Int.int64 (running_sum (way_refs pbf_way) i)) <$>
              seq 0 (length (way_refs pbf_way)) ∧
    ((∀ i, (i < length (way_refs pbf_way))%nat →
           Int.is_int64 (running_sum (way_refs pbf_way) i)) →
     nodes = running_sum (way_refs pbf_way) <$> seq 0 (length (way_refs pbf_way))).
Proof.
  unfold parse_way. intros Hway.
  destruct (object_with_info p _ _) as [?|o]; simpl in Hway; [done|].
  destruct (add_tag_loop p _ _) as [?|tl]; simpl in Hway; [done|].
  simplify_eq. eexists _, _. split; [done|].
  assert (way_nodes 0 (way_refs pbf_way) =
          (λ i, Int.int64 (running_sum (way_refs pbf_way) i)) <$>
            seq 0 (length (way_refs pbf_way))) as Hnodes.
  { apply list_eq. intros i. rewrite list_lookup_fmap.
    destruct (decide (i < length (way_refs pbf_way))%nat) as [Hi|Hi].
    - rewrite way_nodes_lookup, lookup_seq_lt by done. simpl. by rewrite Z.add_0_l.
    - rewrite lookup_seq_ge by lia. apply lookup_ge_None. rewrite length_way_nodes. lia. }
  split; [done|]. intros Hrange. rewrite Hnodes.
  apply list_fmap_ext. intros i j Hj. apply lookup_seq in Hj as [-> Hj].
  apply int64_in_range, Hrange. lia.
Qed.

Lemma relation_members_lookup p pbf_relation types : ∀ ref (i0 : nat) members,
  relation_members p pbf_relation ref i0 types = Ok members →
  length members = length types ∧
  ∀ (j : nat) m, members !! j = Some m →
    ∃ type role_sid,
      types !! j = Some type ∧
      relation_roles_sid pbf_relation !! (i0 + j)%nat = Some role_sid ∧
      member_type m = osmpbf_membertype_to_item_type type ∧
      stringtable_s p role_sid = Ok (member_role m) ∧
      member_ref m =
        Int.int64 (ref + running_sum (drop i0 (relation_memids pbf_relation)) j).
Proof.
  induction types as [|type types IH]; intros ref i0 members Hmembers;
    simpl in Hmembers.
  - simplify_eq. split; [done|]. intros j m Hm. by rewrite lookup_nil in Hm.
  - unfold get in Hmembers.
    destruct (relation_memids pbf_relation !! i0) as [memid|] eqn:Hmemid;
      simpl in Hmembers; [|done].
    destruct (relation_roles_sid pbf_relation !! i0) as [role_sid|] eqn:Hrole;
      simpl in Hmembers; [|done].
    destruct (stringtable_s p role_sid) as [?|role] eqn:Hs; simpl in Hmembers; [done|].
    destruct (relation_members p pbf_relation _ (S i0) types) as [?|rest] eqn:Hrest;
      simpl in Hmembers; [done|].
    simplify_eq. destruct (IH _ _ _ Hrest) as [Hlen Hlookup].
    split; [simpl; by rewrite Hlen|].
    rewrite (drop_S _ _ _ Hmemid).
    intros [|j] m Hm; simplify_eq/=.
    + exists type, role_sid. rewrite Nat.add_0_r. split_and!; try done.
      rewrite <-(Z.add_0_r (Int.uint64 (ref + memid))), int64_uint64_add, Z.add_0_r.
      unfold running_sum, sum_of_first. simpl. f_equal.
      destruct (drop (S i0) (relation_memids pbf_relation)); simpl; lia.
    + destruct (Hlookup _ _ Hm) as (type' & role_sid' & ? & ? & ? & ? & Href).
      exists type', role_sid'. rewrite <-Nat.add_succ_comm. split_and!; try done.
      rewrite Href, int64_uint64_add, running_sum_cons. f_equal. lia.
Qed.

(** X5 (parse_relation_group): a decoded relation has one member per
    element of [types]; member [i] has the type of [types(i)], the role
    string of [roles_sid(i)] and, as its reference, the running sum of the
    [memids] deltas up to [i], taken modulo 2^64 as a signed number. *)
Theorem relation_members_by_index p pbf_relation e :
  parse_relation p pbf_relation = Ok e →
  ∃ o members,
    e = a_relation o members ∧
    length members = length (relation_types pbf_relation) ∧
    ∀ (i : nat) m, members !! i = Some m →
      ∃ type role_sid,
        relation_types pbf_relation !! i = Some type ∧
        relation_roles_sid pbf_relation !! i = Some role_sid ∧
        member_type m = osmpbf_membertype_to_item_type type ∧
        stringtable_s p role_sid = Ok (member_role m) ∧
        member_ref m = Int.int64 (running_sum (relation_memids pbf_relation) i).
Proof.
  unfold parse_relation. intros Hrelation.
  destruct (object_with_info p _ _) as [?|o]; simpl in Hrelation; [done|].
  destruct (relation_members p _ _ _ _) as [?|members] eqn:Hmembers;
    simpl in Hrelation; [done|].
  destruct (add_tag_loop p _ _) as [?|tl]; simpl in Hrelation; [done|].
  simplify_eq. destruct (relation_members_lookup _ _ _ _ _ _ Hmembers) as [Hlen Hlookup].
  eexists _, _. split_and!; [done..|].
  intros i m Hm. destruct (Hlookup _ _ Hm) as (type & role_sid & ? & ? & ? & ? & Href).
  exists type, role_sid. by split_and!.
Qed.

Lemma sum_of_first_S deltas (j : nat) delta :
  deltas !! j = Some delta →
  sum_of_first (S j) deltas = sum_of_first j deltas + delta.
Proof.
  intros Hj. unfold sum_of_first. rewrite (take_S_r _ _ _ Hj).
  generalize (take j deltas). intros l. induction l as [|x l IH]; simpl; lia.
Qed.

Lemma int64_sum_step deltas (j : nat) delta last :
  deltas !! j = Some delta →
  last = Int.int64 (sum_of_first j deltas) →
  Int.int64 (last + delta) = Int.int64 (running_sum deltas j).
Proof.
  intros Hj ->. unfold running_sum. by rewrite int64_int64_add, (sum_of_first_S _ _ _ Hj).
Qed.

(** The fields of a dense node that come from running sums. *)
Lemma parse_dense_node_sums p dense i st st' e :
  parse_dense_node p dense i st = Ok (st', e) →
  ∃ delta_id delta_lat delta_lon o,
    dense_id dense !! i = Some delta_id ∧
    dense_lat dense !! i = Some delta_lat ∧
    dense_lon dense !! i = Some delta_lon ∧
    last_dense_id st' = Int.int64 (last_dense_id st + delta_id) ∧
    last_dense_latitude st' = Int.int64 (last_dense_latitude st + delta_lat) ∧
    last_dense_longitude st' = Int.int64 (last_dense_longitude st + delta_lon) ∧
    e = a_node o
          (if visible o
           then make_location p (last_dense_longitude st') (last_dense_latitude st')
           else Location_undefined) ∧
    id o = last_dense_id st' ∧
    match dense_denseinfo dense with
    | Some denseinfo =>
        ∃ delta_changeset delta_timestamp delta_uid delta_user_sid,
          denseinfo_changeset denseinfo !! i = Some delta_changeset ∧
          denseinfo_timestamp denseinfo !! i = Some delta_timestamp ∧
          denseinfo_uid denseinfo !! i = Some delta_uid ∧
          denseinfo_user_sid denseinfo !! i = Some delta_user_sid ∧
          last_dense_changeset st' =
            Int.int64 (last_dense_changeset st + delta_changeset) ∧
          last_dense_timestamp st' =
            Int.int64 (last_dense_timestamp st + delta_timestamp) ∧
          last_dense_uid st' = Int.int64 (last_dense_uid st + delta_uid) ∧
          last_dense_user_sid st' =
            Int.int64 (last_dense_user_sid st + delta_user_sid) ∧
          changeset o = last_dense_changeset st' ∧
          timestamp o = Int.int64 (last_dense_timestamp st' * m_date_factor p) ∧
          uid o = last_dense_uid st' ∧
          stringtable_s p (last_dense_user_sid st') = Ok (user o) ∧
          denseinfo_version denseinfo !! i = Some (version o)
    | None =>
        changeset o = 0 ∧ timestamp o = 0 ∧ uid o = 0 ∧
        user o = EmptyString ∧ version o = 0 ∧ visible o = true
    end.
Proof.
  unfold parse_dense_node, get. intros Hnode.
  destruct (dense_id dense !! i) as [delta_id|]; simpl in Hnode; [|done].
  destruct (dense_lat dense !! i) as [delta_lat|]; simpl in Hnode; [|done].
  destruct (dense_lon dense !! i) as [delta_lon|]; simpl in Hnode; [|done].
  destruct (dense_denseinfo dense) as [denseinfo|]; simpl in Hnode.
  - destruct (denseinfo_changeset denseinfo !! i) as [delta_changeset|];
      simpl in Hnode; [|done].
    destruct (denseinfo_timestamp denseinfo !! i) as [delta_timestamp|];
      simpl in Hnode; [|done].
    destruct (denseinfo_uid denseinfo !! i) as [delta_uid|]; simpl in Hnode; [|done].
    destruct (denseinfo_user_sid denseinfo !! i) as [delta_user_sid|];
      simpl in Hnode; [|done].
    destruct (denseinfo_visible denseinfo) as [|v vs] eqn:Hvs;
      [|destruct ((v :: vs) !! i) as [is_visible|] eqn:Hvi]; simpl in Hnode;
      [| |done].
    all: destruct (denseinfo_version denseinfo !! i) as [node_version|];
      simpl in Hnode; [|done].
    all: destruct (stringtable_s p _) as [?|user_name] eqn:Huser; simpl in Hnode; [done|].
    all: destruct (add_tags p dense (last_dense_tag st)) as [?|[n tl]] eqn:Htags;
      simpl in Hnode; [done|].
    all: match type of Hnode with context [with_tags ?o _] =>
           simplify_eq; exists delta_id, delta_lat, delta_lon, (with_tags o tl) end.
    all: split_and!; try reflexivity.
    all: exists delta_changeset, delta_timestamp, delta_uid, delta_user_sid.
    all: split_and!; try reflexivity; simpl; done.
  - destruct (add_tags p dense (last_dense_tag st)) as [?|[n tl]] eqn:Htags;
      simpl in Hnode; [done|].
    match type of Hnode with context [with_tags ?o _] =>
      simplify_eq; exists delta_id, delta_lat, delta_lon, (with_tags o tl) end.
    split_and!; reflexivity.
Qed.

(** The sums the loop of [parse_dense_node_group] holds before node [j]. *)
Lemma dense_turns_sums p dense (n : nat) : ∀ (j : nat) st es st',
  dense_turns p dense (seq j n) st es st' →
  last_dense_id st = Int.int64 (sum_of_first j (dense_id dense)) →
  last_dense_latitude st = Int.int64 (sum_of_first j (dense_lat dense)) →
  last_dense_longitude st = Int.int64 (sum_of_first j (dense_lon dense)) →
  (∀ denseinfo, dense_denseinfo dense = Some denseinfo →
     last_dense_changeset st =
       Int.int64 (sum_of_first j (denseinfo_changeset denseinfo)) ∧
     last_dense_timestamp st =
       Int.int64 (sum_of_first j (denseinfo_timestamp denseinfo)) ∧
     last_dense_uid st = Int.int64 (sum_of_first j (denseinfo_uid denseinfo)) ∧
     last_dense_user_sid st =
       Int.int64 (sum_of_first j (denseinfo_user_sid denseinfo))) →
  length es = n ∧
  ∀ (k : nat) e, es !! k = Some e →
    ∃ o, e = a_node o
               (if visible o
                then make_location p
                       (Int.int64 (running_sum (dense_lon dense) (j + k)))
                       (Int.int64 (running_sum (dense_lat dense) (j + k)))
                else Location_undefined) ∧
      id o = Int.int64 (running_sum (dense_id dense) (j + k)) ∧
      match dense_denseinfo dense with
      | Some denseinfo =>
          changeset o =
            Int.int64 (running_sum (denseinfo_changeset denseinfo) (j + k)) ∧
          timestamp o =
            Int.int64 (Int.int64 (running_sum (denseinfo_timestamp denseinfo) (j + k)) *
                       m_date_factor p) ∧
          uid o = Int.int64 (running_sum (denseinfo_uid denseinfo) (j + k)) ∧
          stringtable_s p
            (Int.int64 (running_sum (denseinfo_user_sid denseinfo) (j + k))) =
            Ok (user o) ∧
          denseinfo_version denseinfo !! (j + k)%nat = Some (version o)
      | None =>
          changeset o = 0 ∧ timestamp o = 0 ∧ uid o = 0 ∧
          user o = EmptyString ∧ version o = 0 ∧ visible o = true
      end.
Proof.
  induction n as [|n IH]; intros j st es st' Hturns Hid Hlat Hlon Hinfo;
    simpl in Hturns; inversion Hturns as [|? ? ? st1 e es' ? Hnode Hrest]; simplify_eq.
  { split; [done|]. intros k e Hk. by rewrite lookup_nil in Hk. }
  destruct (parse_dense_node_sums _ _ _ _ _ _ Hnode)
    as (delta_id & delta_lat & delta_lon & o & Hdid & Hdlat & Hdlon &
        Hid' & Hlat' & Hlon' & -> & Hido & Hfields).
  rewrite (int64_sum_step _ _ _ _ Hdid Hid) in Hid'.
  rewrite (int64_sum_step _ _ _ _ Hdlat Hlat) in Hlat'.
  rewrite (int64_sum_step _ _ _ _ Hdlon Hlon) in Hlon'.
  assert (match dense_denseinfo dense with
          | Some denseinfo =>
              last_dense_changeset st1 =
                Int.int64 (running_sum (denseinfo_changeset denseinfo) j) ∧
              last_dense_timestamp st1 =
                Int.int64 (running_sum (denseinfo_timestamp denseinfo) j) ∧
              last_dense_uid st1 = Int.int64 (running_sum (denseinfo_uid denseinfo) j) ∧
              last_dense_user_sid st1 =
                Int.int64 (running_sum (denseinfo_user_sid denseinfo) j)
          | None => True
          end) as Hinfo'.
  { destruct (dense_denseinfo dense) as [denseinfo|]; [|done].
    destruct (Hinfo _ eq_refl) as (Hc & Ht & Hu & Hs).
    destruct Hfields as (dc & dt & du & ds & Hdc & Hdt & Hdu & Hds &
                         Hc' & Ht' & Hu' & Hs' & _).
    rewrite (int64_sum_step _ _ _ _ Hdc Hc) in Hc'.
    rewrite (int64_sum_step _ _ _ _ Hdt Ht) in Ht'.
    rewrite (int64_sum_step _ _ _ _ Hdu Hu) in Hu'.
    rewrite (int64_sum_step _ _ _ _ Hds Hs) in Hs'. done. }
  destruct (IH (S j) st1 es' st' Hrest) as [Hlen Hlookup]; try done.
  { intros denseinfo Hdi. by rewrite Hdi in Hinfo'. }
  split; [simpl; by rewrite Hlen|].
  intros [|k] e Hk; simplify_eq/=.
  - rewrite Nat.add_0_r. eexists. rewrite <-Hlon', <-Hlat'. split; [done|].
    split; [congruence|].
    destruct (dense_denseinfo dense) as [denseinfo|]; [|done].
    destruct Hinfo' as (Hc & Ht & Hu & Hs).
    destruct Hfields as (dc & dt & du & ds & _ & _ & _ & _ &
                         _ & _ & _ & _ & Hco & Hto & Huo & Hso & Hvo).
    rewrite <-Hc, <-Ht, <-Hu, <-Hs. done.
  - rewrite <-Nat.add_succ_comm. by apply Hlookup.
Qed.

(** X6 (parse_dense_node_group): the dense nodes of a group are delta
    coded from zero. The group gives one node per element of [id]; node
    [i] has as id, longitude, latitude, changeset, timestamp, uid and user
    string index the running sums up to [i] of the deltas of these fields
    (modulo 2^64, as signed numbers), and the version of index [i], which is
    not delta coded. Without [denseinfo] these fields keep the values of a
    new node. *)
Theorem dense_nodes_are_running_sums p dense buffer buffer' :
  parse_dense_node_group p dense buffer = Ok buffer' →
  ∃ es,
    buffer' = buffer ++ es ∧ length es = length (dense_id dense) ∧
    ∀ (i : nat) e, es !! i = Some e →
      ∃ o, e = a_node o
                 (if visible o
                  then make_location p
                         (Int.int64 (running_sum (dense_lon dense) i))
                         (Int.int64 (running_sum (dense_lat dense) i))
                  else Location_undefined) ∧
        id o = Int.int64 (running_sum (dense_id dense) i) ∧
        match dense_denseinfo dense with
        | Some denseinfo =>
            changeset o = Int.int64 (running_sum (denseinfo_changeset denseinfo) i) ∧
            timestamp o =
              Int.int64 (Int.int64 (running_sum (denseinfo_timestamp denseinfo) i) *
                         m_date_factor p) ∧
            uid o = Int.int64 (running_sum (denseinfo_uid denseinfo) i) ∧
            stringtable_s p (Int.int64 (running_sum (denseinfo_user_sid denseinfo) i)) =
              Ok (user o) ∧
            denseinfo_version denseinfo !! i = Some (version o)
        | None =>
            changeset o = 0 ∧ timestamp o = 0 ∧ uid o = 0 ∧
            user o = EmptyString ∧ version o = 0 ∧ visible o = true
        end.
Proof.
  unfold parse_dense_node_group. intros Hgroup.
  destruct (dense_nodes_loop _ _ _ _ _) as [?|[st' buffer'']] eqn:Hloop;
    simpl in Hgroup; simplify_eq.
  destruct (dense_nodes_loop_turns _ _ _ _ _ _ _ Hloop) as (es & -> & Hturns).
  exists es. split; [done|].
  by apply (dense_turns_sums p dense _ 0%nat _ _ _ Hturns).
Qed.

Lemma add_tag_loop_paired p keys : ∀ vals tl,
  add_tag_loop p keys vals = Ok tl → paired_tags p keys vals tl.
Proof.
  induction keys as [|k keys IH]; intros vals tl Hloop; simpl in Hloop.
  - simplify_eq. split; [done|].
    intros i kv Hkv. by rewrite lookup_nil in Hkv.
  - destruct vals as [|v vals]; [done|].
    destruct (stringtable_s p k) as [?|key] eqn:Hkey; simpl in Hloop; [done|].
    destruct (stringtable_s p v) as [?|val] eqn:Hval; simpl in Hloop; [done|].
    destruct (add_tag_loop p keys vals) as [?|rest] eqn:Hrest; simpl in Hloop; [done|].
    simplify_eq. destruct (IH _ _ Hrest) as (Hlen & Hlookup).
    split; [simpl; by rewrite Hlen|].
    intros [|i] kv Hkv; simplify_eq/=; [by exists k, v|]. by apply Hlookup.
Qed.

(** X7 (parse_node_group, parse_way_group, parse_relation_group): the tags
    of a decoded node, way or relation are the strings of [keys(i)] and
    [vals(i)], index by index and one tag per key; [vals] beyond the last
    key are ignored. The loops read [vals(tag)] for every index of [keys]
    without a look at [vals_size()]; the statement is about the runs in
    which these reads and those of the string table are in range. *)
Theorem plain_tags_pair_keys_with_vals p :
  (∀ pbf_node e,
     parse_node p pbf_node = Ok e →
     paired_tags p (node_keys pbf_node) (node_vals pbf_node) (tags (object_of e))) ∧
  (∀ pbf_way e,
     parse_way p pbf_way = Ok e →
     paired_tags p (way_keys pbf_way) (way_vals pbf_way) (tags (object_of e))) ∧
  (∀ pbf_relation e,
     parse_relation p pbf_relation = Ok e →
     paired_tags p (relation_keys pbf_relation) (relation_vals pbf_relation)
       (tags (object_of e))).
Proof.
  split_and!.
  - unfold parse_node. intros pbf_node e He.
    destruct (object_with_info p _ _) as [?|o]; simpl in He; [done|].
    destruct (add_tag_loop p _ _) as [?|tl] eqn:Htl; simpl in He; [done|].
    simplify_eq. by apply add_tag_loop_paired.
  - unfold parse_way. intros pbf_way e He.
    destruct (object_with_info p _ _) as [?|o]; simpl in He; [done|].
    destruct (add_tag_loop p _ _) as [?|tl] eqn:Htl; simpl in He; [done|].
    simplify_eq. by apply add_tag_loop_paired.
  - unfold parse_relation. intros pbf_relation e He.
    destruct (object_with_info p _ _) as [?|o]; simpl in He; [done|].
    destruct (relation_members p _ _ _ _) as [?|members]; simpl in He; [done|].
    destruct (add_tag_loop p _ _) as [?|tl] eqn:Htl; simpl in He; [done|].
    simplify_eq. by apply add_tag_loop_paired.
Qed.

(** *** Groups and read types *)

Lemma for_each_append_frame {A} (f : A → result entity) (l : list A) :
  ∀ buffer1 buffer2,
    for_each (λ a buffer, e ← f a; Ok (buffer ++ [e])) l (buffer1 ++ buffer2) =
      (es ← for_each (λ a buffer, e ← f a; Ok (buffer ++ [e])) l buffer2;
       Ok (buffer1 ++ es)).
Proof.
  induction l as [|a l IH]; intros buffer1 buffer2; simpl; [done|].
  destruct (f a) as [err|e]; simpl; [done|].
  by rewrite <-app_assoc, IH.
Qed.

Lemma dense_nodes_loop_frame p dense indices : ∀ st buffer1 buffer2,
  dense_nodes_loop p dense indices st (buffer1 ++ buffer2) =
    ('(st', es) ← dense_nodes_loop p dense indices st buffer2;
     Ok (st', buffer1 ++ es)).
Proof.
  unfold dense_nodes_loop.
  induction indices as [|i indices IH]; intros st buffer1 buffer2; simpl; [done|].
  destruct (parse_dense_node p dense i st) as [err|[st1 e]]; simpl; [done|].
  by rewrite <-app_assoc, IH.
Qed.

(** A group parser appends to the buffer and does not look at it. *)
Lemma parse_group_frame p group buffer1 buffer2 :
  parse_group p group (buffer1 ++ buffer2) =
    (es ← parse_group p group buffer2; Ok (buffer1 ++ es)).
Proof.
  unfold parse_group. destruct (group_dense group) as [dense|].
  - destruct (has_flag _ _); [|done].
    unfold parse_dense_node_group. rewrite dense_nodes_loop_frame.
    by destruct (dense_nodes_loop _ _ _ _ buffer2) as [?|[? ?]].
  - unfold parse_way_group, parse_relation_group, parse_node_group.
    repeat case_bool_decide; try done;
      (destruct (has_flag _ _); [|done]); apply for_each_append_frame.
Qed.

(** X8 (PBFPrimitiveBlockParser::operator()): a block decodes exactly
    when each of its groups decodes on its own, and the buffer then holds
    the entities of the groups one group after the other, in the order of
    the groups. So no group changes what another one decodes to, the
    running sums of dense nodes start again in every group, and one group
    that fails leaves no buffer at all. *)
Theorem block_is_concatenation_of_groups block read_types items :
  parse_primitive_block (Some block) read_types = Ok items ↔
  ∃ per_group,
    Forall2 (λ group es, parse_group (parser_for block read_types) group [] = Ok es)
      (block_primitivegroup block) per_group ∧
    items = concat per_group.
Proof.
  unfold parse_primitive_block. set (p := parser_for block read_types).
  enough (∀ groups buffer buffer',
            for_each (parse_group p) groups buffer = Ok buffer' ↔
            ∃ per_group,
              Forall2 (λ group es, parse_group p group [] = Ok es) groups per_group ∧
              buffer' = buffer ++ concat per_group) as Hgroups
    by (by rewrite Hgroups).
  induction groups as [|group groups IH]; intros buffer buffer'; simpl.
  - split.
    + intros ?; simplify_eq. exists []. by rewrite app_nil_r.
    + intros (per_group & Hper & ->). apply Forall2_nil_inv_l in Hper as ->.
      by rewrite app_nil_r.
  - rewrite <-(app_nil_r buffer) at 1. rewrite parse_group_frame.
    destruct (parse_group p group []) as [err|es] eqn:Hgroup; simpl.
    + split; [done|]. intros (per_group & Hper & _).
      apply Forall2_cons_inv_l in Hper as (? & ? & ? & _). congruence.
    + rewrite IH. split.
      * intros (per_group & Hper & ->). exists (es :: per_group).
        split; [by constructor|]. by rewrite <-app_assoc.
      * intros (per_group & Hper & ->).
        apply Forall2_cons_inv_l in Hper as (es' & per_group' & Hes & Hper & ->).
        rewrite Hgroup in Hes. simplify_eq. exists per_group'. split; [done|].
        by rewrite <-app_assoc.
Qed.

Lemma parse_group_flags p group buffer buffer' :
  parse_group p group buffer = Ok buffer' →
  Forall (λ e, has_flag (m_read_types p) (entity_flag e) = true) buffer →
  Forall (λ e, has_flag (m_read_types p) (entity_flag e) = true) buffer'.
Proof.
  unfold parse_group. intros Hgroup Hbuffer.
  destruct (group_dense group) as [dense|].
  - destruct (has_flag _ _) eqn:Hflag; [|by simplify_eq].
    unfold parse_dense_node_group in Hgroup.
    destruct (dense_nodes_loop _ _ _ _ _) as [?|[st' buffer'']] eqn:Hloop;
      simpl in Hgroup; simplify_eq.
    destruct (dense_nodes_loop_turns _ _ _ _ _ _ _ Hloop) as (es & -> & Hturns).
    apply Forall_app. split; [done|].
    eapply (dense_turns_Forall p); [|done]. simpl.
    intros dense' i st st'' e He.
    by destruct (parse_dense_node_inv _ _ _ _ _ _ He) as (? & ? & ? & ? & _ & _ & _ & -> & _).
  - repeat case_bool_decide; try done;
      (destruct (has_flag _ _) eqn:Hflag; [|by simplify_eq]);
      refine (for_each_append_Forall _ _ _ _ _ _ Hgroup Hbuffer); simpl.
    + intros pbf_way e He. by destruct (parse_way_inv _ _ _ He) as (? & ? & ? & _ & ->).
    + intros pbf_relation e He.
      by destruct (parse_relation_inv _ _ _ He) as (? & ? & ? & _ & ->).
    + intros pbf_node e He. by destruct (parse_node_inv _ _ _ He) as (? & ? & _ & ->).
Qed.

(** X9 (PBFPrimitiveBlockParser::operator()): the buffer of a block holds
    entities of the requested types only: a node only when [read_types] has
    the node bit, a way only with the way bit, a relation only with the
    relation bit. With no bit set the buffer is empty. *)
Theorem only_requested_types_are_decoded parsed read_types items :
  parse_primitive_block parsed read_types = Ok items →
  Forall (λ e, has_flag read_types (entity_flag e) = true) items ∧
  (read_types = item_flags_nothing → items = []).
Proof.
  unfold parse_primitive_block. intros Hblock.
  destruct parsed as [block|]; [|done].
  assert (Forall (λ e, has_flag read_types (entity_flag e) = true) items) as Hitems.
  { set (p := parser_for block read_types) in *.
    assert (∀ groups buffer buffer',
      for_each (parse_group p) groups buffer = Ok buffer' →
      Forall (λ e, has_flag (m_read_types p) (entity_flag e) = true) buffer →
      Forall (λ e, has_flag (m_read_types p) (entity_flag e) = true) buffer') as Hloop.
    { induction groups as [|group groups IH]; intros buffer buffer' Hloop Hbuffer;
        simpl in Hloop; [by simplify_eq|].
      destruct (parse_group p group buffer) as [?|buffer1] eqn:Hgroup;
        simpl in Hloop; [done|].
      eapply IH; [done|]. by eapply parse_group_flags. }
    by apply (Hloop _ _ _ Hblock). }
  split; [done|]. intros ->.
  destruct items as [|e items]; [done|].
  apply Forall_cons in Hitems as [He _]. by destruct e.
Qed.

Lemma parse_group_unknown_type p group buffer :
  group_of_unknown_type group →
  parse_group p group buffer = Fail (runtime_error "Group of unknown type.").
Proof.
  intros (Hdense & Hways & Hrelations & Hnodes). unfold parse_group.
  rewrite Hdense, Hways, Hrelations, Hnodes.
  by rewrite !bool_decide_eq_false_2 by (by intros []).
Qed.

(** X10 (PBFPrimitiveBlockParser::operator()): a block with a group that
    has no dense nodes, no ways, no relations and no nodes gives no buffer,
    whatever the read types, also when nothing is to be read; the entities
    of its other groups are not handed out. When the groups before it
    decode, the exception is the one for a group of unknown type. *)
Theorem group_of_unknown_type_fails block read_types groups1 group groups2 :
  block_primitivegroup block = groups1 ++ group :: groups2 →
  group_of_unknown_type group →
  (∃ e, parse_primitive_block (Some block) read_types = Fail e) ∧
  (∀ buffer,
     for_each (parse_group (parser_for block read_types)) groups1 [] = Ok buffer →
     parse_primitive_block (Some block) read_types =
       Fail (runtime_error "Group of unknown type.")).
Proof.
  intros Hgroups Hgroup. unfold parse_primitive_block. rewrite Hgroups.
  set (p := parser_for block read_types).
  assert (∀ buffer,
    for_each (parse_group p) (groups1 ++ group :: groups2) buffer =
      (buffer' ← for_each (parse_group p) groups1 buffer;
       Fail (runtime_error "Group of unknown type."))) as Hloop.
  { clear Hgroups. induction groups1 as [|group1 groups1 IH]; intros buffer; simpl.
    - by rewrite parse_group_unknown_type.
    - destruct (parse_group p group1 buffer); simpl; [done|apply IH]. }
  rewrite Hloop. split.
  - destruct (for_each (parse_group p) groups1 []); simpl; eauto.
  - by intros buffer ->.
Qed.

(** *** Coordinates and strings *)

(** X11 (parse_node_group): with the granularity 100 and the offsets 0
    that a block has unless it says otherwise, the location of a visible
    plain node is built from the [lon] and [lat] of the PBF node as they
    are, when these times 100 are 64-bit numbers. *)
Theorem standard_granularity_keeps_coordinates p pbf_node e :
  m_granularity p = 100 → m_lon_offset p = 0 → m_lat_offset p = 0 →
  Int.is_int64 (node_lon pbf_node * 100) →
  Int.is_int64 (node_lat pbf_node * 100) →
  parse_node p pbf_node = Ok e →
  ∃ o, e = a_node o
             (if visible o
              then Location_xy (node_lon pbf_node) (node_lat pbf_node)
              else Location_undefined).
Proof.
  intros Hgranularity Hlon_offset Hlat_offset Hlon Hlat He.
  destruct (parse_node_inv _ _ _ He) as (o & tl & _ & ->).
  exists (with_tags o tl). f_equal. simpl. destruct (visible o); [|done].
  unfold make_location. rewrite Hgranularity, Hlon_offset, Hlat_offset, !Z.add_0_r.
  rewrite !(int64_in_range _ Hlon), !(int64_in_range _ Hlat).
  change (lonlat_resolution `quot` coordinate_precision) with 100.
  by rewrite !Z.quot_mul by done.
Qed.

Lemma c_str_spec s :
  ∃ rest,
    s = c_str s +:+ rest ∧ has_NUL (c_str s) = false ∧
    (has_NUL s = false → rest = EmptyString) ∧
    (has_NUL s = true → ∃ rest', rest = String NUL rest').
Proof.
  induction s as [|c s (rest & Hs & Hnone & Hall & Hcut)]; simpl.
  - by exists EmptyString.
  - unfold NUL in *. destruct (Ascii.eqb c "000") eqn:Hc; simpl.
    + apply Ascii.eqb_eq in Hc as ->. exists (String "000" s).
      split_and!; [done..|by eauto].
    + exists rest. unfold NUL. rewrite Hc. simpl.
      split_and!; [by rewrite Hs at 1|done..].
Qed.

(** X12 (the [m_stringtable->s(index).data()] of every string the decoder
    hands to a builder): a decoded string is the entry of the string table
    up to its first NUL character. It holds no NUL; it is the whole entry
    when the entry holds none, and the entry goes on with a NUL behind it
    otherwise. *)
Theorem decoded_strings_end_at_first_NUL p index s :
  stringtable_s p index = Ok s →
  ∃ entry rest,
    m_stringtable p !! Z.to_nat (Int.int32 index) = Some entry ∧
    entry = s +:+ rest ∧ has_NUL s = false ∧
    (has_NUL entry = false → s = entry) ∧
    (has_NUL entry = true → ∃ rest', rest = String NUL rest').
Proof.
  unfold stringtable_s. intros Hs. case_bool_decide; [|done].
  destruct (m_stringtable p !! _) as [entry|] eqn:Hentry; [|done]. simplify_eq.
  destruct (c_str_spec entry) as (rest & Hrest & Hnone & Hall & Hcut).
  exists entry, rest. split_and!; try done.
  intros Hno. rewrite (Hall Hno) in Hrest. rewrite Hrest at 2.
  clear. induction (c_str entry) as [|c s IH]; [done|].
  change (String c s = String c (s +:+ EmptyString)). by f_equal.
Qed.

End decoder_more_facts.

(** ** Blobs *)

Section blob_parser_facts.
Context `{Protobuf} `{Zlib}.
Context (NDEBUG : bool) {S : Type} (handle_blob : bytes → action S unit).
Import Fileformat.

Lemma two_pow_63 : 2 ^ 63 = 9223372036854775808.
Proof. reflexivity. Qed.

(** The [zlib_data] branch of [operator()], by what [inflate] makes of the
    data. *)
Lemma call_zlib m_input_buffer pbf_blob zlib_data s :
  Blob_ParseFromArray m_input_buffer = Some pbf_blob →
  blob_raw pbf_blob = None →
  blob_zlib_data pbf_blob = Some zlib_data →
  (∃ data,
     inflate zlib_data = Some data ∧
     Z.of_nat (length data) = blob_raw_size pbf_blob ∧
     BlobParser.call NDEBUG handle_blob m_input_buffer s = handle_blob data s) ∨
  (∃ e,
     e ∈ [assertion_failed; bad_array_new_length; runtime_error "zlib error"] ∧
     BlobParser.call NDEBUG handle_blob m_input_buffer s = (Fail e, s)).
Proof.
  intros Hparse Hraw Hzlib. unfold BlobParser.call.
  rewrite Hparse, Hraw, Hzlib.
  destruct (negb NDEBUG && _); [right; eexists; split; [|done]; set_solver|].
  case_bool_decide as Hmax; [right; eexists; split; [|done]; set_solver|].
  unfold uncompress.
  destruct (inflate zlib_data) as [data|];
    [|right; eexists; split; [|done]; set_solver].
  case_bool_decide as Hfits; [|right; eexists; split; [|done]; set_solver].
  rewrite (bool_decide_eq_false_2 (Z_OK ≠ Z_OK)) by (intros Hne; by apply Hne).
  simpl. case_bool_decide as Hsize; [right; eexists; split; [|done]; set_solver|].
  left. exists data. split_and!; [done| |done].
  rewrite Hsize.
  unfold BlobParser.PTRDIFF_MAX in Hmax.
  unfold Int.int64, Int.wrap_signed.
  change (2 ^ (64 - 1)) with 9223372036854775808.
  change (2 ^ 64) with 18446744073709551616.
  rewrite two_pow_63 in Hmax. rewrite Z.mod_small; lia.
Qed.

Lemma call_raw m_input_buffer pbf_blob raw s :
  Blob_ParseFromArray m_input_buffer = Some pbf_blob →
  blob_raw pbf_blob = Some raw →
  BlobParser.call NDEBUG handle_blob m_input_buffer s = handle_blob raw s.
Proof. intros Hparse Hraw. unfold BlobParser.call. by rewrite Hparse, Hraw. Qed.

Lemma call_lzma m_input_buffer pbf_blob lzma_data s :
  Blob_ParseFromArray m_input_buffer = Some pbf_blob →
  blob_raw pbf_blob = None → blob_zlib_data pbf_blob = None →
  blob_lzma_data pbf_blob = Some lzma_data →
  BlobParser.call NDEBUG handle_blob m_input_buffer s =
    (Fail (runtime_error "lzma blobs not implemented"), s).
Proof.
  intros Hparse Hraw Hzlib Hlzma. unfold BlobParser.call.
  by rewrite Hparse, Hraw, Hzlib, Hlzma.
Qed.

Lemma call_no_data m_input_buffer pbf_blob s :
  Blob_ParseFromArray m_input_buffer = Some pbf_blob →
  blob_raw pbf_blob = None → blob_zlib_data pbf_blob = None →
  blob_lzma_data pbf_blob = None →
  BlobParser.call NDEBUG handle_blob m_input_buffer s =
    (Fail (runtime_error "Blob contains no data"), s).
Proof.
  intros Hparse Hraw Hzlib Hlzma. unfold BlobParser.call.
  by rewrite Hparse, Hraw, Hzlib, Hlzma.
Qed.

(** Whatever [operator()] returns without failure, [handle_blob] returned
    for some payload. *)
Lemma call_Ok m_input_buffer s r s' :
  BlobParser.call NDEBUG handle_blob m_input_buffer s = (Ok r, s') →
  ∃ data, handle_blob data s = (Ok r, s').
Proof.
  intros Hcall.
  destruct (Blob_ParseFromArray m_input_buffer) as [pbf_blob|] eqn:Hparse;
    [|unfold BlobParser.call in Hcall; by rewrite Hparse in Hcall].
  destruct (blob_raw pbf_blob) as [raw|] eqn:Eraw.
  { rewrite (call_raw _ _ _ s Hparse Eraw) in Hcall. eauto. }
  destruct (blob_zlib_data pbf_blob) as [zlib_data|] eqn:Ezlib.
  { destruct (call_zlib _ _ _ s Hparse Eraw Ezlib)
      as [(data & _ & _ & Hrun)|(e & _ & Hrun)];
      rewrite Hrun in Hcall; [eauto|done]. }
  destruct (blob_lzma_data pbf_blob) as [lzma_data|] eqn:Elzma.
  { by rewrite (call_lzma _ _ _ s Hparse Eraw Ezlib Elzma) in Hcall. }
  by rewrite (call_no_data _ _ s Hparse Eraw Ezlib Elzma) in Hcall.
Qed.

(** C7 (BlobParser::operator()): for a parsed [Blob], raw bytes are handed
    to the block parser as they are; without raw bytes, [zlib_data] is
    handed on inflated, and only when it inflates to exactly [raw_size]
    bytes: a stream that does not inflate, or a size that differs, ends the
    call with a failure; without either, [lzma_data] ends it with the
    failure "lzma blobs not implemented", and a blob with none of the three
    with "Blob contains no data". In every failure case [handle_blob] is
    not called and the object it works on (the reorder queue, for a data
    blob) is left as it was: no buffer is pushed. *)
Theorem blob_payload_dispatch m_input_buffer pbf_blob s :
  Blob_ParseFromArray m_input_buffer = Some pbf_blob →
  (∀ raw,
     blob_raw pbf_blob = Some raw →
     BlobParser.call NDEBUG handle_blob m_input_buffer s = handle_blob raw s) ∧
  (∀ zlib_data,
     blob_raw pbf_blob = None → blob_zlib_data pbf_blob = Some zlib_data →
     ((∃ data,
         inflate zlib_data = Some data ∧
         Z.of_nat (length data) = blob_raw_size pbf_blob ∧
         BlobParser.call NDEBUG handle_blob m_input_buffer s = handle_blob data s) ∨
      (∃ e, BlobParser.call NDEBUG handle_blob m_input_buffer s = (Fail e, s))) ∧
     (inflate zlib_data = None ∨
      (∃ data, inflate zlib_data = Some data ∧
         Z.of_nat (length data) ≠ blob_raw_size pbf_blob) →
      ∃ e, BlobParser.call NDEBUG handle_blob m_input_buffer s = (Fail e, s)) ∧
     (∀ data,
        inflate zlib_data = Some data →
        Z.of_nat (length data) = blob_raw_size pbf_blob →
        blob_raw_size pbf_blob ≤ max_uncompressed_blob_size →
        BlobParser.call NDEBUG handle_blob m_input_buffer s = handle_blob data s)) ∧
  (∀ lzma_data,
     blob_raw pbf_blob = None → blob_zlib_data pbf_blob = None →
     blob_lzma_data pbf_blob = Some lzma_data →
     BlobParser.call NDEBUG handle_blob m_input_buffer s =
       (Fail (runtime_error "lzma blobs not implemented"), s)) ∧
  (blob_raw pbf_blob = None → blob_zlib_data pbf_blob = None →
   blob_lzma_data pbf_blob = None →
   BlobParser.call NDEBUG handle_blob m_input_buffer s =
     (Fail (runtime_error "Blob contains no data"), s)).
Proof.
  intros Hparse. split_and!.
  - intros raw Hraw. by eapply call_raw.
  - intros zlib_data Hraw Hzlib.
    pose proof (call_zlib _ _ _ s Hparse Hraw Hzlib) as Hcases. split_and!.
    + destruct Hcases as [?|(e & _ & ?)]; eauto.
    + intros Hbad. destruct Hcases as [(data & Hdata & Hsize & _)|(e & _ & ?)];
        [|by eauto].
      destruct Hbad as [?|(data' & ? & ?)]; simplify_eq.
    + intros data Hdata Hsize Hmax. unfold BlobParser.call.
      rewrite Hparse, Hraw, Hzlib.
      assert (Int.size_t (blob_raw_size pbf_blob) = blob_raw_size pbf_blob) as ->.
      { unfold Int.size_t, Int.wrap_unsigned, max_uncompressed_blob_size in *.
        apply Z.mod_small. change (2 ^ 64) with 18446744073709551616. lia. }
      rewrite (bool_decide_eq_true_2 _ Hmax), andb_false_r.
      rewrite bool_decide_eq_false_2
        by (unfold BlobParser.PTRDIFF_MAX, max_uncompressed_blob_size in *;
            rewrite two_pow_63; lia).
      unfold uncompress. rewrite Hdata, bool_decide_eq_true_2 by lia.
      rewrite (bool_decide_eq_false_2 (Z_OK ≠ Z_OK)) by (intros Hne; by apply Hne).
      rewrite bool_decide_eq_false_2; [done|].
      intros Hne. apply Hne. rewrite Hsize.
      unfold Int.int64, Int.wrap_signed, max_uncompressed_blob_size in *.
      change (2 ^ (64 - 1)) with 9223372036854775808.
      change (2 ^ 64) with 18446744073709551616.
      rewrite Z.mod_small; lia.
  - intros lzma_data Hraw Hzlib Hlzma. by eapply call_lzma.
  - intros Hraw Hzlib Hlzma. by eapply call_no_data.
Qed.

End blob_parser_facts.

(** ** Blobs: the limit on the inflated size *)

Section blob_parser_more_facts.
Context `{Protobuf} `{Zlib}.
Context {S : Type} (handle_blob : bytes → action S unit).
Import Fileformat.

(** X13 (BlobParser::operator()): the limit of 32 MiB on the inflated size
    of a blob is an [assert] and nothing else. For [zlib_data] that
    inflates to exactly [raw_size] bytes with [raw_size] above the limit,
    a build with assertions stops at the assertion, and a build without
    them (NDEBUG) hands the inflated bytes to the block parser like those
    of any other blob. *)
Theorem raw_size_limit_is_only_asserted m_input_buffer pbf_blob zlib_data data s :
  Blob_ParseFromArray m_input_buffer = Some pbf_blob →
  blob_raw pbf_blob = None →
  blob_zlib_data pbf_blob = Some zlib_data →
  inflate zlib_data = Some data →
  Z.of_nat (length data) = blob_raw_size pbf_blob →
  Int.is_int32 (blob_raw_size pbf_blob) →
  max_uncompressed_blob_size < blob_raw_size pbf_blob →
  BlobParser.call true handle_blob m_input_buffer s = handle_blob data s ∧
  BlobParser.call false handle_blob m_input_buffer s = (Fail assertion_failed, s).
Proof.
  intros Hparse Hraw Hzlib Hinflate Hlength Hint Hlimit.
  unfold Int.is_int32 in Hint. change (2 ^ 31) with 2147483648 in Hint.
  unfold max_uncompressed_blob_size in Hlimit.
  assert (Int.size_t (blob_raw_size pbf_blob) = blob_raw_size pbf_blob) as Hsize.
  { unfold Int.size_t, Int.wrap_unsigned. change (2 ^ 64) with 18446744073709551616.
    rewrite Z.mod_small; lia. }
  unfold BlobParser.call. rewrite Hparse, Hraw, Hzlib, Hsize. split.
  - simpl. unfold BlobParser.PTRDIFF_MAX. rewrite two_pow_63.
    rewrite bool_decide_eq_false_2 by lia.
    unfold uncompress. rewrite Hinflate, bool_decide_eq_true_2 by lia.
    rewrite (bool_decide_eq_false_2 (Z_OK ≠ Z_OK)) by (intros Hne; by apply Hne).
    rewrite bool_decide_eq_false_2; [done|]. intros Hne. apply Hne.
    rewrite Hlength. unfold Int.int64, Int.wrap_signed.
    change (2 ^ (64 - 1)) with 9223372036854775808.
    change (2 ^ 64) with 18446744073709551616.
    rewrite Z.mod_small; lia.
  - unfold max_uncompressed_blob_size. simpl.
    by rewrite bool_decide_eq_false_2 by lia.
Qed.

End blob_parser_more_facts.

(** ** The header blob *)

Section header_facts.
Context `{Protobuf} `{Zlib}.
Import Fileformat HeaderBlobParser.

Lemma required_feature_cases feature header :
  (feature = "OsmSchema-V0.6"%string ∧
     required_feature feature header = (Ok (), header)) ∨
  (feature = "DenseNodes"%string ∧
     required_feature feature header =
       (Ok (), Header.set_pbf_has_dense_nodes true header)) ∨
  (feature = "HistoricalInformation"%string ∧
     required_feature feature header =
       (Ok (), Header.set_has_multiple_object_versions true header)) ∨
  (¬ accepted_feature feature ∧
     required_feature feature header =
       (Fail (runtime_error ("Required feature not supported: " +:+ feature)), header)).
Proof.
  unfold required_feature, accepted_feature.
  repeat case_bool_decide; subst; eauto 6.
  right; right; right. split; [set_solver|done].
Qed.

Lemma bool_decide_elem_of_cons_ne (x y : string) l :
  x ≠ y → bool_decide (x ∈ y :: l) = bool_decide (x ∈ l).
Proof. intros Hne. apply bool_decide_ext. set_solver. Qed.

Lemma bool_decide_elem_of_cons_eq (x : string) l : bool_decide (x ∈ x :: l) = true.
Proof. apply bool_decide_eq_true_2. set_solver. Qed.

Lemma features_accepted features : ∀ header,
  Forall accepted_feature features →
  for_each_do required_feature features header =
    (Ok (), with_features features header).
Proof.
  induction features as [|feature features IH]; intros [hm dn g b] Hall.
  - unfold with_features. simpl. by rewrite !orb_false_r.
  - apply Forall_cons in Hall as [Hfeature Hall]. cbn [for_each_do].
    unfold mbind, action_bind.
    destruct (required_feature_cases feature (Header.mk hm dn g b))
      as [[-> ->]|[[-> ->]|[[-> ->]|[? _]]]]; [..|done];
      rewrite (IH _ Hall); unfold with_features; simpl;
      rewrite ?bool_decide_elem_of_cons_eq, ?bool_decide_elem_of_cons_ne by done;
      by rewrite ?orb_true_r.
Qed.

Lemma features_rejected features : ∀ header,
  ¬ Forall accepted_feature features →
  ∃ feature header',
    feature ∈ features ∧ ¬ accepted_feature feature ∧
    for_each_do required_feature features header =
      (Fail (runtime_error ("Required feature not supported: " +:+ feature)), header').
Proof.
  induction features as [|feature features IH]; intros header Hnot.
  - destruct Hnot. constructor.
  - cbn [for_each_do]. unfold mbind, action_bind.
    destruct (required_feature_cases feature header)
      as [[Hf ->]|[[Hf ->]|[[Hf ->]|[Hf ->]]]].
    4: { exists feature, header. split_and!; [set_solver|done..]. }
    all: match goal with
         | |- context [for_each_do required_feature _ ?h] =>
             destruct (IH h) as (f & header' & Hin & Hrej & ->);
               [intros Hall; apply Hnot; constructor;
                  [unfold accepted_feature; set_solver|done]
               |exists f, header'; split_and!; [set_solver|done..]]
         end.
Qed.

Lemma handle_blob_accepts data pbf_header_block header :
  HeaderBlock_ParseFromArray data = Some pbf_header_block →
  Forall accepted_feature (headerblock_required_features pbf_header_block) →
  ∃ header',
    handle_blob data header = (Ok (), header') ∧
    Header.pbf_has_dense_nodes header' =
      Header.pbf_has_dense_nodes header ||
        bool_decide ("DenseNodes"%string ∈ headerblock_required_features pbf_header_block) ∧
    Header.has_multiple_object_versions header' =
      Header.has_multiple_object_versions header ||
        bool_decide ("HistoricalInformation"%string ∈
                       headerblock_required_features pbf_header_block).
Proof.
  intros Hparse Hall. unfold handle_blob. rewrite Hparse.
  unfold mbind, action_bind. rewrite (features_accepted _ _ Hall).
  destruct (headerblock_writingprogram pbf_header_block);
    destruct (headerblock_bbox pbf_header_block); simpl; eauto.
Qed.

Lemma handle_blob_rejects data pbf_header_block header :
  HeaderBlock_ParseFromArray data = Some pbf_header_block →
  ¬ Forall accepted_feature (headerblock_required_features pbf_header_block) →
  ∃ feature header',
    feature ∈ headerblock_required_features pbf_header_block ∧
    ¬ accepted_feature feature ∧
    handle_blob data header =
      (Fail (runtime_error ("Required feature not supported: " +:+ feature)), header').
Proof.
  intros Hparse Hnot. unfold handle_blob. rewrite Hparse.
  unfold mbind, action_bind.
  destruct (features_rejected _ header Hnot) as (f & header' & ? & ? & ->). eauto.
Qed.

(** [read] returns a header only for accepted features. *)
Lemma read_Ok NDEBUG read_types fd header header' st :
  PBFInput.read NDEBUG read_types fd header = Ok (header', st) →
  ∃ data pbf_header_block,
    HeaderBlock_ParseFromArray data = Some pbf_header_block ∧
    Forall accepted_feature (headerblock_required_features pbf_header_block) ∧
    handle_blob data header = (Ok (), header').
Proof.
  unfold PBFInput.read. intros Hread.
  destruct (PBFInput.read_blob_header fd "OSMHeader") as [?|[size fd1]];
    simpl in Hread; [done|].
  destruct (PBFInput.new_BlobParser size fd1) as [?|[m_input_buffer fd2]];
    simpl in Hread; [done|].
  destruct (call NDEBUG m_input_buffer header) as [[e|[]] header''] eqn:Hcall;
    [done|]. simplify_eq.
  apply call_Ok in Hcall as [data Hdata]. exists data.
  destruct (HeaderBlock_ParseFromArray data) as [pbf_header_block|] eqn:Hparse;
    [|unfold handle_blob in Hdata; by rewrite Hparse in Hdata].
  exists pbf_header_block. split; [done|].
  destruct (decide (Forall accepted_feature
                      (headerblock_required_features pbf_header_block)))
    as [Hall|Hnot]; [done|].
  destruct (handle_blob_rejects _ _ header Hparse Hnot) as (? & ? & _ & _ & Hfail).
  by rewrite Hfail in Hdata.
Qed.

(** C8 (HeaderBlobParser::handle_blob, Header): the loop over the required
    features accepts "OsmSchema-V0.6" without effect, "DenseNodes" by
    setting [pbf_has_dense_nodes] and "HistoricalInformation" by setting
    [has_multiple_object_versions], and throws at any other feature. So a
    header block whose required features are all among the three is
    handled without failure and leaves each flag set when its feature is
    listed and as it was otherwise; for a block with another feature
    [handle_blob] throws "Required feature not supported", and [read]
    returns a header only for blocks of the first kind. *)
Theorem required_features_check data pbf_header_block header :
  HeaderBlock_ParseFromArray data = Some pbf_header_block →
  let features := headerblock_required_features pbf_header_block in
  (∀ feature h,
     (feature = "OsmSchema-V0.6"%string ∧
        required_feature feature h = (Ok (), h)) ∨
     (feature = "DenseNodes"%string ∧
        required_feature feature h = (Ok (), Header.set_pbf_has_dense_nodes true h)) ∨
     (feature = "HistoricalInformation"%string ∧
        required_feature feature h =
          (Ok (), Header.set_has_multiple_object_versions true h)) ∨
     (¬ accepted_feature feature ∧
        required_feature feature h =
          (Fail (runtime_error ("Required feature not supported: " +:+ feature)), h))) ∧
  (Forall accepted_feature features →
     ∃ header',
       handle_blob data header = (Ok (), header') ∧
       Header.pbf_has_dense_nodes header' =
         Header.pbf_has_dense_nodes header ||
           bool_decide ("DenseNodes"%string ∈ features) ∧
       Header.has_multiple_object_versions header' =
         Header.has_multiple_object_versions header ||
           bool_decide ("HistoricalInformation"%string ∈ features)) ∧
  (¬ Forall accepted_feature features →
     ∃ feature header',
       feature ∈ features ∧ ¬ accepted_feature feature ∧
       handle_blob data header =
         (Fail (runtime_error ("Required feature not supported: " +:+ feature)),
          header')) ∧
  (∀ NDEBUG read_types fd h h' st,
     PBFInput.read NDEBUG read_types fd h = Ok (h', st) →
     ∃ data' block',
       HeaderBlock_ParseFromArray data' = Some block' ∧
       Forall accepted_feature (headerblock_required_features block') ∧
       handle_blob data' h = (Ok (), h')).
Proof.
  intros Hparse features. split_and!.
  - apply required_feature_cases.
  - by apply handle_blob_accepts.
  - by apply handle_blob_rejects.
  - apply read_Ok.
Qed.

End header_facts.

(** ** The header blob: a feature that is not supported *)

Section header_more_facts.
Context `{Protobuf} `{Zlib}.
Import Fileformat HeaderBlobParser.

(** X14 (HeaderBlobParser::handle_blob): the required features are looked
    at in their order, and the first one that is not supported ends the
    call with its name in the exception. The header it works on, which
    [read] hands in by reference, then already has the flags of the
    features before that one; its generator and bounds are as they were,
    and the features behind it play no part. *)
Theorem unsupported_feature_leaves_earlier_flags data pbf_header_block header
    before feature after :
  HeaderBlock_ParseFromArray data = Some pbf_header_block →
  headerblock_required_features pbf_header_block = before ++ feature :: after →
  Forall accepted_feature before →
  ¬ accepted_feature feature →
  handle_blob data header =
    (Fail (runtime_error ("Required feature not supported: " +:+ feature)),
     with_features before header).
Proof.
  intros Hparse Hfeatures Hbefore Hfeature. unfold handle_blob.
  rewrite Hparse, Hfeatures. unfold mbind at 1 2. unfold action_bind at 1 2.
  assert (∀ h,
    for_each_do required_feature (before ++ feature :: after) h =
      (Fail (runtime_error ("Required feature not supported: " +:+ feature)),
       with_features before h)) as ->; [|done].
  clear Hparse Hfeatures header.
  induction before as [|feature' before IH]; intros h.
  - cbn [app for_each_do]. unfold mbind, action_bind.
    destruct (required_feature_cases feature h)
      as [[-> _]|[[-> _]|[[-> _]|[_ ->]]]];
      try (destruct Hfeature; unfold accepted_feature; set_solver).
    destruct h. unfold with_features. simpl. by rewrite !orb_false_r.
  - apply Forall_cons in Hbefore as [Hfeature' Hbefore].
    cbn [app for_each_do]. unfold mbind, action_bind.
    destruct h as [hm dn g b].
    destruct (required_feature_cases feature' (Header.mk hm dn g b))
      as [[-> ->]|[[-> ->]|[[-> ->]|[? _]]]]; [..|done];
      rewrite (IH Hbefore); unfold with_features; simpl;
      rewrite ?bool_decide_elem_of_cons_eq, ?bool_decide_elem_of_cons_ne by done;
      by rewrite ?orb_true_r.
Qed.

End header_more_facts.

(** ** The reading pipeline *)

Section pbf_input_facts.
Context `{Protobuf} `{Zlib}.
Context (NDEBUG : bool) (m_num_threads : Z) (read_types : Z).
Import PBFInput.

Local Abbreviation decodes_to := (PBFInput.decodes_to NDEBUG read_types).
Local Abbreviation data_blobs := (PBFInput.data_blobs NDEBUG read_types).
Local Abbreviation one_blob := (PBFInput.one_blob m_num_threads).
Local Abbreviation caller_ahead_at_the_end :=
  (PBFInput.caller_ahead_at_the_end m_num_threads).
Local Abbreviation reader_ahead_at_the_end :=
  (PBFInput.reader_ahead_at_the_end m_num_threads).
Local Abbreviation pipeline_inv := (PBFInput.pipeline_inv NDEBUG read_types).
Local Abbreviation pi_read := (PBFInput.pi_read NDEBUG read_types).
Local Abbreviation pi_reader := (PBFInput.pi_reader NDEBUG read_types).
Local Abbreviation pi_jobs := (PBFInput.pi_jobs NDEBUG read_types).
Local Abbreviation pi_jobs_nodup := (PBFInput.pi_jobs_nodup NDEBUG read_types).
Local Abbreviation pi_queue := (PBFInput.pi_queue NDEBUG read_types).
Local Abbreviation pi_pushed := (PBFInput.pi_pushed NDEBUG read_types).
Local Abbreviation pi_returned := (PBFInput.pi_returned NDEBUG read_types).
Local Abbreviation pi_eof := (PBFInput.pi_eof NDEBUG read_types).

(** A file with the header blob only, read with every read type:
    [next_buffer] returns the empty buffer when the reader thread has set
    [m_done] before the call tests it; when the call comes first it finds
    [m_done] false, enters [wait_and_pop], and stays there: the reader
    thread sets [m_done] and returns without a push, the pool has no job,
    and no thread can take a step any more. [next_buffer] has returned
    nothing. *)
Lemma header_only_file_end_of_input :
  (∃ st,
     steps NDEBUG m_num_threads item_flags_all reader_first only_the_header = Some st ∧
     returned st = [Buffer_invalid] ∧ caller st = caller_outside) ∧
  (∃ st,
     steps NDEBUG m_num_threads item_flags_all caller_first only_the_header = Some st ∧
     reader st = reader_returned ∧ m_done st = true ∧
     work_queue st = [] ∧ m_pending_jobs st = 0 ∧
     caller st = caller_in_wait_and_pop ∧ returned st = [] ∧
     stuck NDEBUG m_num_threads item_flags_all st).
Proof.
  split.
  - eexists. split; [reflexivity|]. done.
  - eexists. split; [reflexivity|]. split_and!; try done.
    by intros [|i|].
Qed.

Lemma decodes_raw input pbf_blob raw items :
  Blob_ParseFromArray input = Some pbf_blob →
  Fileformat.blob_raw pbf_blob = Some raw →
  Pbf.parse_primitive_block (PrimitiveBlock_ParseFromArray raw) read_types = Ok items →
  decodes_to input (Buffer_mem DataBlobParser.initial_buffer_size true items).
Proof.
  intros Hblob Hraw Hitems. split; [done|]. intros num m_queue.
  unfold DataBlobParser.call. rewrite (call_raw _ _ _ _ _ _ Hblob Hraw).
  unfold DataBlobParser.handle_blob. by rewrite Hitems.
Qed.

Lemma steps_app schedule1 schedule2 st :
  steps NDEBUG m_num_threads read_types (schedule1 ++ schedule2) st =
    st' ← steps NDEBUG m_num_threads read_types schedule1 st;
    steps NDEBUG m_num_threads read_types schedule2 st'.
Proof.
  revert st. induction schedule1 as [|e schedule1 IH]; intros st; simpl; [done|].
  destruct (step NDEBUG m_num_threads read_types e st); simpl; [apply IH|done].
Qed.

Lemma push_into_quiet_queue buffer (j : nat) :
  Z.of_nat j < 2 ^ 31 →
  DataBlobParser.push_buffer buffer (Z.of_nat j)
    (SortedQueue.mk [Buffer_invalid] (Z.of_nat j)) =
  (Ok (), SortedQueue.mk [buffer; Buffer_invalid] (Z.of_nat j)).
Proof.
  intros Hj. unfold DataBlobParser.push_buffer, SortedQueue.push. simpl.
  assert (Int.size_t (Z.of_nat j) = Z.of_nat j) as ->.
  { unfold Int.size_t, Int.wrap_unsigned. apply Z.mod_small.
    change (2 ^ 64) with 18446744073709551616. change (2 ^ 31) with 2147483648 in Hj.
    lia. }
  by rewrite Z.sub_diag.
Qed.

Lemma one_blob_steps file size file1 input file2 buffer (j : nat) handed :
  read_blob_header file "OSMData" = Ok (size, file1) →
  size ≠ 0 →
  new_BlobParser size file1 = Ok (input, file2) →
  decodes_to input buffer →
  Z.of_nat j + 1 < 2 ^ 31 →
  0 ≤ m_num_threads < 2 ^ 31 →
  steps NDEBUG m_num_threads read_types one_blob (all_quiet file j handed) =
    Some (all_quiet file2 (S j) (handed ++ [buffer])).
Proof.
  intros Hheader Hsize Hparser [Hvalid Hcall] Hj Hthreads.
  assert (Int.int32 (Z.of_nat j + 1) = Z.of_nat (S j)) as Hn.
  { unfold Int.int32, Int.wrap_signed. change (2 ^ (32 - 1)) with 2147483648.
    change (2 ^ 32) with 4294967296. change (2 ^ 31) with 2147483648 in Hj.
    rewrite Z.mod_small; lia. }
  assert (Int.size_t (Z.of_nat j + 1) = Z.of_nat (S j)) as Hoffset.
  { unfold Int.size_t, Int.wrap_unsigned. change (2 ^ 64) with 18446744073709551616.
    change (2 ^ 31) with 2147483648 in Hj. rewrite Z.mod_small; lia. }
  assert (1 ≤ m_max_buffer_queue_size m_num_threads) as Hbuffers.
  { unfold m_max_buffer_queue_size, Int.size_t, Int.wrap_unsigned.
    change (2 ^ 64) with 18446744073709551616. change (2 ^ 31) with 2147483648 in Hthreads.
    rewrite Z.mod_small; lia. }
  assert (0 < m_max_work_queue_size m_num_threads ∨ m_num_threads = 0) as Hwork.
  { destruct (decide (m_num_threads = 0)) as [|Hne]; [by right|left].
    unfold m_max_work_queue_size, Int.size_t, Int.wrap_unsigned.
    change (2 ^ 64) with 18446744073709551616.
    change (2 ^ 31) with 2147483648 in Hthreads.
    rewrite Z.mod_small; lia. }
  pose proof (push_into_quiet_queue buffer j ltac:(lia)) as Hpush.
  unfold one_blob, all_quiet. case_bool_decide as Hzero.
  - (* no pool: the reader thread decodes *)
    unfold steps, step, step_reader, step_caller. simpl.
    rewrite Hheader. rewrite bool_decide_eq_false_2 by done. rewrite Hparser.
    rewrite bool_decide_eq_true_2 by done. rewrite Hcall, Hpush. simpl.
    unfold SortedQueue.wait_and_pop, SortedQueue.empty_intern. simpl.
    rewrite Hvalid. simpl.
    rewrite bool_decide_eq_true_2 by (unfold SortedQueue.size; simpl; lia).
    rewrite Hn, Hoffset. do 2 f_equal.
  - (* the pool decodes *)
    destruct Hwork as [Hwork|?]; [|done].
    unfold steps, step, step_reader, step_worker, step_caller. simpl.
    rewrite Hheader. rewrite bool_decide_eq_false_2 by done. rewrite Hparser.
    rewrite bool_decide_eq_false_2 by done. simpl.
    rewrite Hcall, Hpush. simpl.
    rewrite bool_decide_eq_true_2 by done. simpl.
    unfold SortedQueue.wait_and_pop, SortedQueue.empty_intern. simpl.
    rewrite Hvalid. simpl.
    rewrite bool_decide_eq_true_2 by (unfold SortedQueue.size; simpl; lia).
    rewrite Hn, Hoffset. do 2 f_equal.
Qed.

Lemma all_blobs_steps file blobs :
  data_blobs file blobs →
  0 ≤ m_num_threads < 2 ^ 31 →
  ∀ (j : nat) handed,
    Z.of_nat (j + length blobs) < 2 ^ 31 →
    ∃ file' file'',
      read_blob_header file' "OSMData" = Ok (0, file'') ∧
      steps NDEBUG m_num_threads read_types (concat (replicate (length blobs) one_blob))
        (all_quiet file j handed) =
      Some (all_quiet file' (j + length blobs) (handed ++ blobs.*2)).
Proof.
  intros Hblobs Hthreads.
  induction Hblobs as [file file' Hend|file size file1 input file2 buffer blobs
                         Hheader Hsize Hparser Hdecodes _ IH];
    intros j handed Hj.
  - exists file, file'. split; [done|]. simpl. by rewrite Nat.add_0_r, app_nil_r.
  - simpl in Hj. destruct (IH (S j) (handed ++ [buffer])) as (file' & file'' & Hend & Hsteps);
      [lia|].
    exists file', file''. split; [done|].
    cbn [length replicate concat]. rewrite steps_app.
    rewrite (one_blob_steps _ _ _ _ _ _ _ _ Hheader Hsize Hparser Hdecodes) by lia.
    cbn [mbind option_bind]. rewrite Hsteps. do 2 f_equal; [lia|].
    by rewrite <-app_assoc.
Qed.

(** For every file whose N data blobs decode, the caller can get all N
    buffers, in the order of the file, and then be stuck in the next call
    of [next_buffer]: it comes before the reader thread has seen the end of
    the file, and no thread can take a step after the reader thread has. *)
Lemma next_buffer_can_block_after_last_buffer file blobs :
  data_blobs file blobs →
  Z.of_nat (length blobs) < 2 ^ 31 →
  0 ≤ m_num_threads < 2 ^ 31 →
  read_types ≠ Pbf.item_flags_nothing →
  ∃ st,
    steps NDEBUG m_num_threads read_types (caller_ahead_at_the_end (length blobs))
      (after_read read_types file) = Some st ∧
    returned st = blobs.*2 ∧
    m_done st = true ∧ m_pending_jobs st = 0 ∧
    caller st = caller_in_wait_and_pop ∧
    stuck NDEBUG m_num_threads read_types st.
Proof.
  intros Hblobs Hlen Hthreads Hread.
  destruct (all_blobs_steps _ _ Hblobs Hthreads 0 []) as (file' & file'' & Hend & Hsteps);
    [simpl; lia|].
  unfold caller_ahead_at_the_end. rewrite steps_app.
  replace (after_read read_types file) with (all_quiet file 0 []).
  2: { unfold after_read, all_quiet. by rewrite bool_decide_eq_true_2. }
  rewrite Hsteps. cbn [mbind option_bind].
  unfold steps, step, step_caller, step_reader, all_quiet. simpl.
  rewrite Hend. simpl. eexists. split; [done|]. simpl. split_and!; try done.
  by intros [|i|].
Qed.

(** When the reader thread sees the end of the file before that call, the
    call returns the empty buffer. *)
Lemma next_buffer_can_return_empty_buffer file blobs :
  data_blobs file blobs →
  Z.of_nat (length blobs) < 2 ^ 31 →
  0 ≤ m_num_threads < 2 ^ 31 →
  read_types ≠ Pbf.item_flags_nothing →
  ∃ st,
    steps NDEBUG m_num_threads read_types (reader_ahead_at_the_end (length blobs))
      (after_read read_types file) = Some st ∧
    returned st = blobs.*2 ++ [Buffer_invalid] ∧
    caller st = caller_outside.
Proof.
  intros Hblobs Hlen Hthreads Hread.
  destruct (all_blobs_steps _ _ Hblobs Hthreads 0 []) as (file' & file'' & Hend & Hsteps);
    [simpl; lia|].
  unfold reader_ahead_at_the_end. rewrite steps_app.
  replace (after_read read_types file) with (all_quiet file 0 []).
  2: { unfold after_read, all_quiet. by rewrite bool_decide_eq_true_2. }
  rewrite Hsteps. cbn [mbind option_bind].
  unfold steps, step, step_caller, step_reader, all_quiet. simpl.
  rewrite Hend. simpl. eexists. split; [done|]. simpl. by split.
Qed.

Lemma data_blobs_decode file blobs :
  data_blobs file blobs → Forall (λ ib, decodes_to ib.1 ib.2) blobs.
Proof. induction 1; constructor; auto. Qed.

Lemma pipeline_inv_after_read file blobs :
  data_blobs file blobs →
  pipeline_inv blobs (after_read read_types file) 0 0 ∅ 0.
Proof.
  intros Hblobs. split; simpl; try done; try lia.
  - by case_bool_decide.
  - apply NoDup_nil_2.
  - apply queue_inv_init.
Qed.

Lemma push_buffer_inv P k m_queue buffer (i : nat) :
  SortedQueue.queue_inv P k m_queue → Buffer_valid buffer = true →
  P !! Z.of_nat i = None → Z.of_nat i < 2 ^ 31 →
  ∃ m_queue',
    DataBlobParser.push_buffer buffer (Z.of_nat i) m_queue = (Ok (), m_queue') ∧
    SortedQueue.queue_inv (<[Z.of_nat i := buffer]> P) k m_queue'.
Proof.
  intros Hinv Hvalid Hfresh Hi. unfold DataBlobParser.push_buffer.
  assert (Int.size_t (Z.of_nat i) = Z.of_nat i) as ->.
  { unfold Int.size_t, Int.wrap_unsigned. apply Z.mod_small.
    change (2 ^ 64) with 18446744073709551616. change (2 ^ 31) with 2147483648 in Hi.
    lia. }
  assert (Int.is_size_t (Z.of_nat i)) as Hrange.
  { unfold Int.is_size_t. change (2 ^ 64) with 18446744073709551616.
    change (2 ^ 31) with 2147483648 in Hi. lia. }
  destruct (push_returns P k m_queue buffer (Z.of_nat i)) as (m_queue' & Hpush & _);
    [done..| |].
  { change (2 ^ 64) with 18446744073709551616. change (2 ^ 31) with 2147483648 in Hi.
    lia. }
  rewrite Hpush. exists m_queue'. split; [done|].
  eapply push_preserves; eauto. simpl. by rewrite Hvalid.
Qed.

Lemma wait_and_pop_inv P k m_queue buffer m_queue' :
  SortedQueue.queue_inv P k m_queue →
  SortedQueue.wait_and_pop m_queue = SortedQueue.Returns buffer m_queue' →
  P !! k = Some buffer ∧ SortedQueue.queue_inv P (k + 1) m_queue'.
Proof.
  intros Hinv Hpop. unfold SortedQueue.wait_and_pop in Hpop.
  destruct (SortedQueue.empty_intern m_queue) as [[]|] eqn:Hempty; try done.
  destruct (SortedQueue.pop_front m_queue) as [[x q']|] eqn:Hfront; simplify_eq.
  by eapply pop_front_preserves.
Qed.

Lemma step_caller_inv blobs st st' j k P e :
  pipeline_inv blobs st j k P e →
  step_caller st = Some st' →
  ∃ k' e', pipeline_inv blobs st' j k' P e'.
Proof.
  intros Hinv Hstep. unfold step_caller in Hstep.
  destruct (caller st) eqn:Hcaller.
  - destruct (negb (m_done st) || bool_decide (m_pending_jobs st ≠ 0)) eqn:Hguard;
      simplify_eq.
    + (* into [wait_and_pop] *)
      exists k, e. destruct Hinv as [pi_read0 pi_popped0 pi_reader0 pi_failed0 pi_jobs0
        pi_jobs_nodup0 pi_queue0 pi_pushed0 pi_returned0 pi_eof0 pi_pending0]. by split.
    + (* the empty buffer *)
      apply orb_false_elim in Hguard as [Hdone Hpending].
      apply negb_false_iff in Hdone. apply bool_decide_eq_false in Hpending.
      apply dec_stable in Hpending.
      exists k, (S e). destruct Hinv as [pi_read0 pi_popped0 pi_reader0 pi_failed0 pi_jobs0
        pi_jobs_nodup0 pi_queue0 pi_pushed0 pi_returned0 pi_eof0 pi_pending0]. split; simpl; try done.
      * rewrite pi_returned0, <-app_assoc. f_equal.
        by rewrite <-replicate_cons_app.
      * intros _. split; [|done]. rewrite pi_pending0 in Hpending.
        destruct (reader st); try done;
          first [destruct pi_reader0 as (? & ? & ?)|destruct pi_reader0 as [? ?]];
          first [congruence|lia].
  - destruct (SortedQueue.wait_and_pop (m_queue st)) as [buffer m_queue'| |] eqn:Hpop;
      simplify_eq.
    destruct (wait_and_pop_inv _ _ _ _ _ (pi_queue _ _ _ _ _ _ Hinv) Hpop)
      as [Hfront Hqueue].
    destruct (pi_pushed _ _ _ _ _ _ Hinv _ _ Hfront) as (k' & input & Hk & Hlt & Hblob).
    apply Nat2Z.inj in Hk. subst k'.
    assert (e = 0%nat) as ->.
    { destruct e; [done|]. destruct (pi_eof _ _ _ _ _ _ Hinv) as [-> _]; [lia|].
      pose proof (pi_read _ _ _ _ _ _ Hinv). lia. }
    exists (S k), 0%nat. destruct Hinv as [pi_read0 pi_popped0 pi_reader0 pi_failed0 pi_jobs0
        pi_jobs_nodup0 pi_queue0 pi_pushed0 pi_returned0 pi_eof0 pi_pending0]. split; simpl; try done; try lia.
    + by rewrite Nat2Z.inj_succ, <-Z.add_1_r.
    + rewrite pi_returned0. simpl. rewrite !app_nil_r.
      symmetry. apply take_S_r. by rewrite list_lookup_fmap, Hblob.
Qed.

Lemma step_worker_inv blobs st st' i j k P e :
  Forall (λ ib, decodes_to ib.1 ib.2) blobs →
  Z.of_nat (length blobs) < 2 ^ 31 →
  pipeline_inv blobs st j k P e →
  step_worker NDEBUG read_types i st = Some st' →
  ∃ P', pipeline_inv blobs st' j k P' e.
Proof.
  intros Hdecode Hlen Hinv Hstep. unfold step_worker in Hstep.
  destruct (work_queue st !! i) as [job|] eqn:Hjob; [|done].
  pose proof (pi_jobs _ _ _ _ _ _ Hinv) as Hjobs.
  pose proof (pi_jobs_nodup _ _ _ _ _ _ Hinv) as Hnodup.
  pose proof (pi_read _ _ _ _ _ _ Hinv) as Hread.
  destruct (proj1 (Forall_lookup _ _) Hjobs _ _ Hjob)
    as (idx & buffer & Hnum & Hblob & Hidx & Hfresh).
  destruct (proj1 (Forall_lookup _ _) Hdecode _ _ Hblob) as [Hvalid Hcall].
  simpl in Hvalid, Hcall. rewrite Hcall, Hnum in Hstep.
  destruct (push_buffer_inv _ _ _ buffer idx (pi_queue _ _ _ _ _ _ Hinv) Hvalid Hfresh)
    as (m_queue' & Hpush & Hqueue); [lia|].
  rewrite Hpush in Hstep. simplify_eq.
  exists (<[Z.of_nat idx := buffer]> P).
  rewrite <-(take_drop_middle _ _ _ Hjob) in Hjobs, Hnodup.
  rewrite fmap_app, fmap_cons, Hnum in Hnodup.
  apply NoDup_app in Hnodup as (Hnd1 & Hnotin & Hnd2).
  apply NoDup_cons in Hnd2 as [Hnotin2 Hnd2].
  apply Forall_app in Hjobs as [Hjobs1 Hjobs2].
  apply Forall_cons in Hjobs2 as [_ Hjobs2].
  destruct Hinv as [pi_read0 pi_popped0 pi_reader0 pi_failed0 pi_jobs0
        pi_jobs_nodup0 pi_queue0 pi_pushed0 pi_returned0 pi_eof0 pi_pending0]. split; simpl; try done.
  - rewrite delete_take_drop. apply Forall_app. split.
    + apply Forall_forall. intros job' Hin.
      destruct (proj1 (Forall_forall _ _) Hjobs1 _ Hin) as (i' & b' & Hn' & ? & ? & ?).
      exists i', b'. split_and!; try done.
      rewrite lookup_insert_ne; [done|]. intros Heq.
      apply (Hnotin (Z.of_nat idx)); [|left].
      rewrite Heq, <-Hn'. by apply list_elem_of_fmap_2.
    + apply Forall_forall. intros job' Hin.
      destruct (proj1 (Forall_forall _ _) Hjobs2 _ Hin) as (i' & b' & Hn' & ? & ? & ?).
      exists i', b'. split_and!; try done.
      rewrite lookup_insert_ne; [done|]. intros Heq.
      apply Hnotin2. rewrite Heq, <-Hn'. by apply list_elem_of_fmap_2.
  - rewrite delete_take_drop, fmap_app. apply NoDup_app. split_and!; [done| |done].
    intros x Hx1 Hx2. apply (Hnotin x Hx1). by right.
  - intros i' b Hb. destruct (decide (i' = Z.of_nat idx)) as [->|Hne].
    + rewrite lookup_insert_eq in Hb. simplify_eq. eauto.
    + rewrite lookup_insert_ne in Hb by done. eauto.
Qed.

Lemma drop_cons_inv {A} (l : list A) (j : nat) x rest :
  drop j l = x :: rest →
  l !! j = Some x ∧ drop (S j) l = rest ∧ (j < length l)%nat.
Proof.
  intros Hdrop. assert (l !! j = Some x) as Hx.
  { rewrite <-(Nat.add_0_r j), <-lookup_drop. by rewrite Hdrop. }
  split_and!; [done| |by eapply lookup_lt_Some].
  rewrite (drop_S _ _ _ Hx) in Hdrop. by simplify_eq.
Qed.

Lemma step_reader_inv blobs st st' j k P e :
  Forall (λ ib, decodes_to ib.1 ib.2) blobs →
  Z.of_nat (length blobs) < 2 ^ 31 →
  pipeline_inv blobs st j k P e →
  step_reader NDEBUG m_num_threads read_types st = Some st' →
  ∃ j' P', pipeline_inv blobs st' j' k P' e.
Proof.
  intros Hdecode Hlen Hinv Hstep. unfold step_reader in Hstep.
  assert (∀ i : nat, (i < length blobs)%nat → Int.int32 (Z.of_nat i + 1) = Z.of_nat (S i))
    as Hint32.
  { intros i Hi. unfold Int.int32, Int.wrap_signed. change (2 ^ (32 - 1)) with 2147483648.
    change (2 ^ 32) with 4294967296. change (2 ^ 31) with 2147483648 in Hlen.
    rewrite Z.mod_small; lia. }
  assert (P !! Z.of_nat j = None) as Hfresh.
  { destruct (P !! Z.of_nat j) as [b|] eqn:Hb; [|done].
    destruct (pi_pushed _ _ _ _ _ _ Hinv _ _ Hb) as (i' & ? & Hi' & ? & _). lia. }
  pose proof (pi_reader _ _ _ _ _ _ Hinv) as Hr.
  destruct (reader st) eqn:Hreader; try done.
  - (* at the head of the loop *)
    destruct Hr as (Hn & Hdone & Hfile).
    inversion Hfile as [file file' Hheader Hfd Hnil
                       |file size file1 input file2 buffer rest Hheader Hsize Hparser
                          [Hvalid Hcall] Hrest Hfd Hcons].
    + (* the end of the file *)
      rewrite Hheader in Hstep. rewrite bool_decide_eq_true_2 in Hstep by done.
      simplify_eq. exists j, P.
      assert (j = length blobs) as Hj.
      { pose proof (pi_read _ _ _ _ _ _ Hinv).
        symmetry in Hnil. apply drop_nil_inv in Hnil. lia. }
      destruct Hinv as [pi_read0 pi_popped0 pi_reader0 pi_failed0 pi_jobs0
        pi_jobs_nodup0 pi_queue0 pi_pushed0 pi_returned0 pi_eof0 pi_pending0]. split; simpl; try done.
      intros He. destruct (pi_eof0 He). congruence.
    + (* one more blob *)
      symmetry in Hcons. apply drop_cons_inv in Hcons as (Hblob & Hdrop & Hj).
      rewrite Hheader in Hstep. rewrite bool_decide_eq_false_2 in Hstep by done.
      rewrite Hparser in Hstep. case_bool_decide as Hthreads.
      * (* decoded in the reader thread *)
        rewrite Hcall, Hn in Hstep.
        destruct (push_buffer_inv _ _ _ buffer j (pi_queue _ _ _ _ _ _ Hinv) Hvalid Hfresh)
          as (m_queue' & Hpush & Hqueue); [lia|].
        rewrite Hpush in Hstep. simplify_eq.
        exists (S j), (<[Z.of_nat j := buffer]> P).
        destruct Hinv as [pi_read0 pi_popped0 pi_reader0 pi_failed0 pi_jobs0
        pi_jobs_nodup0 pi_queue0 pi_pushed0 pi_returned0 pi_eof0 pi_pending0]. split; simpl; try done; try lia.
        -- split_and!; [|done..]. by apply Hint32.
        -- eapply Forall_impl; [exact pi_jobs0|]. simpl.
           intros job (i' & b' & ? & ? & ? & ?). exists i', b'.
           split_and!; [done..|lia|]. rewrite lookup_insert_ne; [done|lia].
        -- intros i' b Hb. destruct (decide (i' = Z.of_nat j)) as [->|Hne].
           ++ rewrite lookup_insert_eq in Hb. simplify_eq. exists j, input.
              split_and!; [done|lia|done].
           ++ rewrite lookup_insert_ne in Hb by done.
              destruct (pi_pushed0 _ _ Hb) as (i'' & input' & ? & ? & ?).
              exists i'', input'. split_and!; [done|lia|done].
      * (* submitted to the pool *)
        simplify_eq. exists (S j), P.
        destruct Hinv as [pi_read0 pi_popped0 pi_reader0 pi_failed0 pi_jobs0
        pi_jobs_nodup0 pi_queue0 pi_pushed0 pi_returned0 pi_eof0 pi_pending0]. split; simpl; try done; try lia.
        -- split_and!; [lia|done..].
        -- apply Forall_app. split.
           ++ eapply Forall_impl; [exact pi_jobs0|]. simpl.
              intros job (i' & b' & ? & ? & ? & ?). exists i', b'.
              split_and!; [done..|lia|done].
           ++ constructor; [|constructor]. exists j, buffer. simpl.
              split_and!; [done..|lia|done].
        -- rewrite fmap_app. simpl. apply NoDup_app. split_and!; [done| |].
           ++ intros x Hx1 Hx2. apply list_elem_of_singleton in Hx2 as ->.
              apply list_elem_of_fmap in Hx1 as (job & Hjob & Hin).
              destruct (proj1 (Forall_forall _ _) pi_jobs0 _ Hin)
                as (i' & _ & ? & _ & ? & _). lia.
           ++ apply NoDup_singleton.
        -- intros i' b Hb. destruct (pi_pushed0 _ _ Hb) as (i'' & input' & ? & ? & ?).
           exists i'', input'. split_and!; [done|lia|done].
  - (* waiting for the workers *)
    destruct Hr as (Hn & Hdone & Hfile).
    destruct (m_done st || _); simplify_eq.
    exists j, P. destruct Hinv as [pi_read0 pi_popped0 pi_reader0 pi_failed0 pi_jobs0
        pi_jobs_nodup0 pi_queue0 pi_pushed0 pi_returned0 pi_eof0 pi_pending0]. split; simpl; try done.
    split_and!; [|done..]. rewrite Hn.
    unfold Int.int32, Int.wrap_signed. change (2 ^ (32 - 1)) with 2147483648.
    change (2 ^ 32) with 4294967296. change (2 ^ 31) with 2147483648 in Hlen.
    rewrite Z.mod_small; lia.
  - (* waiting for the caller *)
    destruct Hr as (Hn & Hdone & Hfile). rewrite Hdone in Hstep.
    case_bool_decide; simplify_eq.
    exists j, P. destruct Hinv as [pi_read0 pi_popped0 pi_reader0 pi_failed0 pi_jobs0
        pi_jobs_nodup0 pi_queue0 pi_pushed0 pi_returned0 pi_eof0 pi_pending0]. split; simpl; try done.
    intros He. destruct (pi_eof0 He). congruence.
Qed.

(** Every state the threads can reach satisfies the invariant. *)
Lemma steps_inv blobs schedule : ∀ st st' j k P e,
  Forall (λ ib, decodes_to ib.1 ib.2) blobs →
  Z.of_nat (length blobs) < 2 ^ 31 →
  pipeline_inv blobs st j k P e →
  steps NDEBUG m_num_threads read_types schedule st = Some st' →
  ∃ j' k' P' e', pipeline_inv blobs st' j' k' P' e'.
Proof.
  induction schedule as [|ev schedule IH]; intros st st' j k P e Hdecode Hlen Hinv Hsteps;
    simpl in Hsteps.
  - simplify_eq. eauto.
  - destruct (step NDEBUG m_num_threads read_types ev st) as [st1|] eqn:Hstep; [|done].
    destruct ev as [|i|]; simpl in Hstep.
    + destruct (step_reader_inv _ _ _ _ _ _ _ Hdecode Hlen Hinv Hstep) as (j' & P' & Hinv').
      eapply IH; eauto.
    + destruct (step_worker_inv _ _ _ _ _ _ _ _ Hdecode Hlen Hinv Hstep) as (P' & Hinv').
      eapply IH; eauto.
    + destruct (step_caller_inv _ _ _ _ _ _ _ Hinv Hstep) as (k' & e' & Hinv').
      eapply IH; eauto.
Qed.

(** Whatever the threads do, the buffers [next_buffer] has returned are
    the buffers of the first blobs of the file, in the order of the file,
    one per blob, and an empty buffer comes only after all of them. *)
Lemma returned_in_file_order file blobs schedule st :
  data_blobs file blobs →
  Z.of_nat (length blobs) < 2 ^ 31 →
  steps NDEBUG m_num_threads read_types schedule (after_read read_types file) = Some st →
  in_file_order blobs (returned st).
Proof.
  intros Hblobs Hlen Hsteps.
  destruct (steps_inv blobs schedule _ _ _ _ _ _ (data_blobs_decode _ _ Hblobs) Hlen
              (pipeline_inv_after_read _ _ Hblobs) Hsteps) as (j & k & P & e & Hinv).
  exists k, e. split; [apply (pi_returned _ _ _ _ _ _ Hinv)|].
  intros He. by destruct (pi_eof _ _ _ _ _ _ Hinv He).
Qed.

(** C2, where the code departs from it (parse_osm_data, next_buffer,
    DataBlobParser::handle_blob): for a file of N data blobs that decode,
    whatever the threads do, the buffers [next_buffer] has returned are
    those of the first blobs in the order of the file, one per blob, and an
    empty buffer comes only after all N. After the N-th buffer the next
    call returns the empty buffer when the reader thread has set [m_done]
    before the call tests it. When the call comes first it finds [m_done]
    false, enters [wait_and_pop] and stays there: the reader thread sets
    [m_done] and returns without a push, no job is pending, and no thread
    can take a step any more. *)
Theorem next_buffer_in_file_order_and_may_block file blobs :
  data_blobs file blobs →
  Z.of_nat (length blobs) < 2 ^ 31 →
  0 ≤ m_num_threads < 2 ^ 31 →
  read_types ≠ Pbf.item_flags_nothing →
  (∀ schedule st,
     steps NDEBUG m_num_threads read_types schedule (after_read read_types file) =
       Some st →
     in_file_order blobs (returned st)) ∧
  (∃ st,
     steps NDEBUG m_num_threads read_types (reader_ahead_at_the_end (length blobs))
       (after_read read_types file) = Some st ∧
     returned st = blobs.*2 ++ [Buffer_invalid] ∧
     caller st = caller_outside) ∧
  (∃ st,
     steps NDEBUG m_num_threads read_types (caller_ahead_at_the_end (length blobs))
       (after_read read_types file) = Some st ∧
     returned st = blobs.*2 ∧
     m_done st = true ∧ m_pending_jobs st = 0 ∧
     caller st = caller_in_wait_and_pop ∧
     stuck NDEBUG m_num_threads read_types st).
Proof.
  intros Hblobs Hlen Hthreads Hread. split_and!.
  - intros schedule st. by apply returned_in_file_order.
  - by apply next_buffer_can_return_empty_buffer.
  - by apply next_buffer_can_block_after_last_buffer.
Qed.

End pbf_input_facts.

(** ** The reading pipeline: frames, the pool, the end of the input *)

Section pbf_input_more_facts.
Context `{Protobuf} `{Zlib}.
Context (NDEBUG : bool) (m_num_threads : Z) (read_types : Z).
Import Fileformat PBFInput.

Lemma reliable_read_app (data rest : bytes) :
  reliable_read (Z.of_nat (length data)) (data ++ rest) = Some (data, rest).
Proof.
  unfold reliable_read. rewrite bool_decide_eq_true_2 by (rewrite length_app; lia).
  by rewrite Nat2Z.id, take_app_length, drop_app_length.
Qed.

(** X15 (read_blob_header, the constructor of BlobParser): a frame is the
    four bytes of the length of the blob header in network order, the blob
    header and the blob. Reading the blob header of a frame at the front of
    the file gives the size of the blob and leaves the file at the blob;
    the blob parser then takes the blob and leaves the file behind the
    frame. *)
Theorem frame_is_consumed size4 header_bytes blob rest blob_header expected_type :
  length size4 = 4%nat →
  ntohl size4 = Z.of_nat (length header_bytes) →
  Z.of_nat (length header_bytes) ≤ max_blob_header_size →
  BlobHeader_ParseFromArray header_bytes = Some blob_header →
  Pbf.c_str (blobheader_type blob_header) = expected_type →
  blobheader_datasize blob_header = Z.of_nat (length blob) →
  Z.of_nat (length blob) ≤ max_uncompressed_blob_size →
  read_blob_header (size4 ++ header_bytes ++ blob ++ rest) expected_type =
    Ok (Z.of_nat (length blob), blob ++ rest) ∧
  new_BlobParser (Z.of_nat (length blob)) (blob ++ rest) = Ok (blob, rest).
Proof.
  intros Hsize4 Hntohl Hheader Hparse Htype Hdatasize Hblob.
  unfold max_uncompressed_blob_size in Hblob. split.
  - unfold read_blob_header.
    change 4 with (Z.of_nat 4). rewrite <-Hsize4, reliable_read_app.
    rewrite Hntohl, bool_decide_eq_false_2 by lia.
    rewrite reliable_read_app, Hparse, Htype.
    rewrite bool_decide_eq_false_2 by (intros Hne; by apply Hne).
    rewrite Hdatasize. do 2 f_equal.
    unfold Int.size_t, Int.wrap_unsigned. change (2 ^ 64) with 18446744073709551616.
    rewrite Z.mod_small; lia.
  - unfold new_BlobParser.
    assert (Int.int32 (Z.of_nat (length blob)) = Z.of_nat (length blob)) as ->.
    { unfold Int.int32, Int.wrap_signed. change (2 ^ (32 - 1)) with 2147483648.
      change (2 ^ 32) with 4294967296. rewrite Z.mod_small; lia. }
    rewrite bool_decide_eq_false_2 by lia.
    unfold max_uncompressed_blob_size. rewrite bool_decide_eq_false_2 by lia.
    by rewrite reliable_read_app.
Qed.

(** *** The pool's queue *)

Lemma new_BlobParser_fits size file m_input_buffer file' :
  new_BlobParser size file = Ok (m_input_buffer, file') →
  Z.of_nat (length m_input_buffer) ≤ max_uncompressed_blob_size.
Proof.
  unfold new_BlobParser, reliable_read. intros Hnew.
  case_bool_decide as Hneg; [done|]. case_bool_decide as Hmax; [done|].
  case_bool_decide as Hlen; [|done]. simplify_eq.
  rewrite length_take. lia.
Qed.

Lemma pool_inv_after_read file :
  pool_inv m_num_threads (after_read read_types file).
Proof.
  unfold after_read. split; simpl; try done.
  case_bool_decide; unfold pool_bound; lia.
Qed.

Local Ltac pool_step :=
  simplify_eq; split; simpl; try done;
  try (intros; congruence); try (unfold pool_bound in *; lia).

Lemma step_preserves_pool_inv e st st' :
  pool_inv m_num_threads st →
  step NDEBUG m_num_threads read_types e st = Some st' →
  pool_inv m_num_threads st'.
Proof.
  intros [Hdone Hlength Hjobs Hunused] Hstep. destruct e as [|i|]; simpl in Hstep.
  - (* the reader thread *)
    unfold step_reader in Hstep.
    assert (m_done st = false) as Hrunning.
    { destruct (m_done st); [|done]. specialize (Hdone eq_refl).
      rewrite Hdone in Hstep. done. }
    destruct (reader st) eqn:Hreader; try done.
    + destruct (read_blob_header (fd st) "OSMData") as [?|[size fd']]; [pool_step|].
      case_bool_decide; [pool_step|].
      destruct (new_BlobParser size fd') as [?|[m_input_buffer fd'']] eqn:Hnew;
        [pool_step|].
      case_bool_decide as Hthreads.
      * destruct (DataBlobParser.call _ _ _ _ _) as [[?|[]] ?]; pool_step.
      * pool_step.
        -- rewrite length_app. simpl. unfold pool_bound in *. lia.
        -- apply Forall_app. split; [done|]. repeat constructor.
           by eapply new_BlobParser_fits.
    + rewrite Hrunning in Hstep. simpl in Hstep.
      case_bool_decide as Hfree; [|done]. pool_step.
    + rewrite Hrunning in Hstep.
      case_bool_decide; [|done]. pool_step.
  - (* a worker *)
    unfold step_worker in Hstep.
    destruct (work_queue st !! i) as [j|] eqn:Hi; [|done].
    assert (length (delete i (work_queue st)) < length (work_queue st))%nat as Hshorter.
    { pose proof (lookup_lt_Some _ _ _ Hi). rewrite length_delete by eauto. lia. }
    assert (Forall job_fits (delete i (work_queue st))) as Hjobs'.
    { by apply Forall_delete. }
    destruct (DataBlobParser.call _ _ _ _ _) as [[?|[]] ?]; simplify_eq.
    all: split; simpl; try done.
    all: try (destruct (reader st); lia).
    all: intros Hzero; rewrite (Hunused Hzero) in Hi; by rewrite lookup_nil in Hi.
  - (* the caller *)
    unfold step_caller in Hstep. destruct (caller st).
    + destruct (negb _ || _); simplify_eq; by split.
    + destruct (SortedQueue.wait_and_pop _); simplify_eq; by split.
Qed.

(** X16 (parse_osm_data): the reader thread holds back. Whatever the
    threads do and whatever the file holds, no more than
    [m_max_work_queue_size] blobs (one, when that is 0) wait in the pool
    for a worker, none at all without pool threads, and each of them has at
    most the 32 MiB an uncompressed blob may have. *)
Theorem pool_queue_is_bounded file schedule st :
  steps NDEBUG m_num_threads read_types schedule (after_read read_types file) =
    Some st →
  Z.of_nat (length (work_queue st)) ≤ 1 `max` m_max_work_queue_size m_num_threads ∧
  Forall (λ j, Z.of_nat (length (job_input_buffer j)) ≤ max_uncompressed_blob_size)
    (work_queue st) ∧
  (m_num_threads = 0 → work_queue st = []).
Proof.
  intros Hsteps.
  assert (pool_inv m_num_threads st) as [_ Hlength Hjobs Hunused].
  { pose proof (pool_inv_after_read file) as Hinv. revert Hinv Hsteps.
    generalize (after_read read_types file). 
    induction schedule as [|e schedule IH]; intros st0 Hinv Hsteps; simpl in Hsteps;
      [by simplify_eq|].
    destruct (step NDEBUG m_num_threads read_types e st0) as [st1|] eqn:Hstep; [|done].
    eapply IH; [|done]. by eapply step_preserves_pool_inv. }
  split_and!; [|done..].
  unfold pool_bound in Hlength. destruct (reader st); lia.
Qed.

(** *** The end of the input *)

Lemma steps_invariant (P : state → Prop) :
  (∀ e st st', P st → step NDEBUG m_num_threads read_types e st = Some st' → P st') →
  ∀ schedule st st',
    P st → steps NDEBUG m_num_threads read_types schedule st = Some st' → P st'.
Proof.
  intros Hstep. induction schedule as [|e schedule IH]; intros st st' Hst Hsteps;
    simpl in Hsteps; [by simplify_eq|].
  destruct (step NDEBUG m_num_threads read_types e st) as [st1|] eqn:He; [|done].
  eapply IH; [|done]. by eapply Hstep.
Qed.

Lemma wait_and_pop_init : SortedQueue.wait_and_pop (SortedQueue.init (T:=Buffer)) =
  SortedQueue.Blocks.
Proof. reflexivity. Qed.

Lemma step_preserves_input_ended file rest e st st' :
  read_blob_header file "OSMData" = Ok (0, rest) →
  input_ended file st →
  step NDEBUG m_num_threads read_types e st = Some st' →
  input_ended file st'.
Proof.
  intros Hzero [Hreader Hpool Hpending Hqueue Hreturned] Hstep.
  destruct e as [|i|]; simpl in Hstep.
  - unfold step_reader in Hstep.
    destruct Hreader as [(Hreader & Hdone & Hfd)|[Hreader Hdone]];
      rewrite Hreader in Hstep; [|done].
    rewrite Hfd, Hzero in Hstep. simpl in Hstep. simplify_eq.
    split; simpl; by eauto.
  - unfold step_worker in Hstep. by rewrite Hpool, lookup_nil in Hstep.
  - unfold step_caller in Hstep. destruct (caller st).
    + rewrite Hpending in Hstep. destruct (negb _ || _); simplify_eq.
      * by split.
      * split; simpl; try done. apply Forall_app. by repeat constructor.
    + by rewrite Hqueue, wait_and_pop_init in Hstep.
Qed.

(** X17 (read_blob_header, parse_osm_data): a size of 0 ends the input.
    When [read_blob_header] returns 0 at the first data blob, which it does
    at the end of the file, for a file that ends inside the four bytes of a
    length, and for a blob header whose [datasize] is 0, the reader thread
    takes it for the end of the input: whatever the rest of the file holds,
    no blob is handed to the pool or decoded, and [next_buffer] never
    returns anything but the empty buffer. *)
Theorem size_zero_ends_the_input file rest schedule st :
  read_blob_header file "OSMData" = Ok (0, rest) →
  read_types ≠ Pbf.item_flags_nothing →
  steps NDEBUG m_num_threads read_types schedule (after_read read_types file) =
    Some st →
  Forall (λ buffer, buffer = Buffer_invalid) (returned st) ∧
  work_queue st = [] ∧ m_queue st = SortedQueue.init ∧
  (fd st = file ∨ fd st = rest).
Proof.
  intros Hzero Hread Hsteps.
  assert (input_ended file st ∧ (fd st = file ∨ fd st = rest))
    as [[_ Hpool _ Hqueue Hreturned] Hfd]; [|done].
  revert Hsteps.
  apply (steps_invariant (λ st, input_ended file st ∧ (fd st = file ∨ fd st = rest))).
  - intros e st0 st1 [Hended Hfd] Hstep.
    split; [by eapply step_preserves_input_ended|].
    destruct e as [|i|]; simpl in Hstep.
    + unfold step_reader in Hstep.
      destruct (ended_reader _ _ Hended) as [(Hreader & Hdone & Hfile)|[Hreader Hdone]];
        rewrite Hreader in Hstep; [|done].
      rewrite Hfile, Hzero in Hstep. simpl in Hstep. simplify_eq. by right.
    + unfold step_worker in Hstep.
      by rewrite (ended_pool _ _ Hended), lookup_nil in Hstep.
    + unfold step_caller in Hstep. destruct (caller st0).
      * destruct (negb _ || _); by simplify_eq.
      * destruct (SortedQueue.wait_and_pop _); by simplify_eq.
  - split; [|by left]. unfold after_read.
    rewrite bool_decide_eq_true_2 by done. split; simpl; try done. by left.
Qed.

Lemma step_preserves_never_started file e st st' :
  never_started file st →
  step NDEBUG m_num_threads read_types e st = Some st' →
  never_started file st'.
Proof.
  intros [Hreader Hdone Hfd Hpool Hqueue Hreturned] Hstep.
  destruct e as [|i|]; simpl in Hstep.
  - unfold step_reader in Hstep. by rewrite Hreader in Hstep.
  - unfold step_worker in Hstep. by rewrite Hpool, lookup_nil in Hstep.
  - unfold step_caller in Hstep. destruct (caller st).
    + rewrite Hdone in Hstep. simpl in Hstep. simplify_eq. by split.
    + by rewrite Hqueue, wait_and_pop_init in Hstep.
Qed.

(** *** Progress *)









End pbf_input_more_facts.

Section read_nothing.
Context `{Protobuf} `{Zlib}.
Context (NDEBUG : bool) (m_num_threads : Z).
Import Fileformat PBFInput.

(** X19 (read, next_buffer): after [read] with the read types [nothing]
    no reader thread runs and [m_done] stays false, so [next_buffer] does
    not return the empty buffer of the end of the input: the first call
    enters [wait_and_pop] on a queue nothing is pushed into, no thread can
    take a step from there, and nothing is ever returned or read from the
    file. *)
Theorem next_buffer_after_reading_nothing file schedule st :
  steps NDEBUG m_num_threads Pbf.item_flags_nothing schedule
    (after_read Pbf.item_flags_nothing file) = Some st →
  returned st = [] ∧ fd st = file ∧ m_done st = false ∧
  ∃ st',
    steps NDEBUG m_num_threads Pbf.item_flags_nothing [caller_step]
      (after_read Pbf.item_flags_nothing file) = Some st' ∧
    caller st' = caller_in_wait_and_pop ∧
    stuck NDEBUG m_num_threads Pbf.item_flags_nothing st'.
Proof.
  intros Hsteps.
  assert (never_started file st) as [_ Hdone Hfd _ _ Hreturned].
  { revert Hsteps. apply steps_invariant.
    - intros e st0 st1. apply step_preserves_never_started.
    - by split. }
  split_and!; try done.
  eexists. split; [reflexivity|]. split; [done|]. by intros [|i|].
Qed.

End read_nothing.

(** ** The writer *)

Section writer_facts.
Import Writer.
Context (byte_size : Pbf.entity → Z).

(** [write] on a writer that is closed or failed: the exception, and
    nothing else. *)
Lemma write_rejected env buffer w :
  m_status w ≠ okay →
  write byte_size env buffer w = (Fail rejected, w).
Proof. intros Hstatus. unfold write. by rewrite bool_decide_eq_true_2. Qed.

Lemma flush_not_okay env w :
  m_status w ≠ okay → flush byte_size env w = (Ok (), w).
Proof. intros Hstatus. unfold flush. by rewrite bool_decide_eq_false_2. Qed.

(** [operator()(Buffer&&)] on a writer that is closed or failed. *)
Lemma write_Buffer_rejected env buffer w :
  m_status w ≠ okay →
  write_Buffer byte_size env buffer w = (Fail rejected, w).
Proof.
  intros Hstatus. unfold write_Buffer, mbind, action_bind.
  by rewrite flush_not_okay, write_rejected.
Qed.

(** What [write] does to the status. *)
Lemma write_status env buffer w res w' :
  write byte_size env buffer w = (res, w') →
  m_status w' = m_status w ∨
  m_status w = okay ∧ m_status w' = error ∧
    ∃ e, res = Fail e ∧
      (write_future env = Some e ∨ write_buffer_throws env buffer = Some e).
Proof.
  unfold write, write_catch, write_end, emit, set_status, throw, modify, mbind,
    action_bind.
  intros Hwrite. case_bool_decide as Hstatus; [left; by simplify_eq|].
  destruct (write_future env) as [e|] eqn:Hfuture.
  - destruct (write_end_throws env); simplify_eq/=; [by left|].
    right. eauto 8.
  - case_bool_decide; [|left; by simplify_eq].
    destruct (write_buffer_throws env buffer) as [e|] eqn:Hthrows;
      [|left; by simplify_eq].
    destruct (write_end_throws env); simplify_eq/=; [by left|].
    right. eauto 8.
Qed.

Lemma flush_status env w res w' :
  flush byte_size env w = (res, w') →
  m_status w' = m_status w ∨
  m_status w = okay ∧ m_status w' = error ∧ ∃ e, res = Fail e.
Proof.
  unfold flush. intros Hflush.
  destruct (_ && _); [|left; by simplify_eq].
  unfold mbind, action_bind, set_buffer, modify in Hflush.
  destruct (write_status _ _ _ _ _ Hflush) as [?|(? & ? & e & ? & _)]; [by left|].
  right. eauto.
Qed.

Lemma try_push_back_status item on_full w res w' :
  (∀ res w', on_full w = (res, w') →
     m_status w' = m_status w ∨
     m_status w = okay ∧ m_status w' = error ∧ ∃ e, res = Fail e) →
  try_push_back byte_size item on_full w = (res, w') →
  m_status w' = m_status w ∨
  m_status w = okay ∧ m_status w' = error ∧ ∃ e, res = Fail e.
Proof.
  unfold try_push_back. intros Hfull Hpush.
  destruct (push_back byte_size item (m_buffer w)); [|by apply Hfull].
  left. unfold set_buffer, modify in Hpush. by simplify_eq.
Qed.

(** The status of a writer changes only from [okay], to [closed] in
    [close] and to [error] in a call that throws. *)
Lemma handle_status env r w res w' :
  handle byte_size env r w = (res, w') →
  m_status w' = m_status w ∨
  m_status w = okay ∧ m_status w' = closed ∧ r = do_close ∨
  m_status w = okay ∧ m_status w' = error ∧ ∃ e, res = Fail e.
Proof.
  destruct r as [buffer|item| |]; simpl; intros Hcall.
  - unfold write_Buffer, mbind, action_bind in Hcall.
    destruct (flush byte_size env w) as [[e|[]] w1] eqn:Hflush.
    + simplify_eq. destruct (flush_status _ _ _ _ Hflush) as [?|(? & ? & ?)]; eauto.
    + destruct (flush_status _ _ _ _ Hflush) as [Hsame|(? & ? & ? & ?)]; [|done].
      destruct (write_status _ _ _ _ _ Hcall) as [?|(? & ? & e & ? & _)];
        [left; congruence|].
      right; right. rewrite <-Hsame. eauto.
  - unfold write_Item, mbind, action_bind, ensure_buffer in Hcall.
    assert (∃ w1, m_status w1 = m_status w ∧
      try_push_back byte_size item
        (λ s, match flush byte_size env s with
              | (inl e, s') => (Fail e, s')
              | (inr a, s') => try_push_back byte_size item (throw buffer_is_full) s'
              end) w1 = (res, w')) as (w1 & Hsame & Hpush).
    { destruct (Buffer_valid (m_buffer w)); [by eauto|].
      unfold set_buffer, modify in Hcall. by eexists (mk _ _ _ _). }
    rewrite <-Hsame.
    eapply try_push_back_status in Hpush;
      [destruct Hpush as [?|(? & ? & ?)]; by eauto|].
    intros res1 w2 Hfull.
    destruct (flush byte_size env w1) as [[e|[]] w3] eqn:Hflush.
    + simplify_eq. apply (flush_status _ _ _ _ Hflush).
    + destruct (flush_status _ _ _ _ Hflush) as [Hsame3|(? & ? & ? & ?)]; [|done].
      rewrite <-Hsame3.
      eapply try_push_back_status; [|exact Hfull].
      intros ?? Hthrow. left. unfold throw in Hthrow. by simplify_eq.
  - destruct (flush_status _ _ _ _ Hcall) as [?|(? & ? & ?)]; eauto.
  - unfold close, mbind, action_bind, mret, action_ret, set_status, emit, modify,
      write_end, throw in Hcall.
    case_bool_decide as Hokay; [|left; by simplify_eq].
    destruct (_ && _).
    + destruct (write byte_size env (m_buffer w) w) as [[e|[]] w1] eqn:Hwrite.
      * simplify_eq. destruct (write_status _ _ _ _ _ Hwrite) as [?|(? & ? & ?)];
          eauto 8.
      * simpl in Hcall.
        destruct (write_end_throws env); simplify_eq/=; right; left; eauto.
    + destruct (write_end_throws env); simplify_eq/=; right; left; eauto.
Qed.

End writer_facts.

(** C9, where the code departs from it (Writer::write, operator(), close):
    the status of a writer changes only from [okay], to [closed] in [close]
    and to [error] in a call that throws, and on a writer that is closed or
    failed a buffer write throws and changes nothing. An item write on
    such a writer does not throw: after [close()] on a new writer,
    [operator()(item)] returns, the status is still [closed], nothing
    reaches the output, and the item sits in a new internal buffer that no
    later call writes out. *)
Theorem item_write_after_close_is_not_rejected :
  let byte_size := λ _ : Pbf.entity, 64 in
  let after_close := (Writer.close byte_size Writer.nothing_fails (Writer.init)).2 in
  (∀ env r w res w',
     Writer.handle byte_size env r w = (res, w') →
     Writer.m_status w' = Writer.m_status w ∨
     Writer.m_status w = Writer.okay ∧ Writer.m_status w' = Writer.closed ∧
       r = Writer.do_close ∨
     Writer.m_status w = Writer.okay ∧ Writer.m_status w' = Writer.error ∧
       ∃ e, res = Fail e) ∧
  (∀ env buffer w,
     Writer.m_status w ≠ Writer.okay →
     Writer.write_Buffer byte_size env buffer w = (Fail Writer.rejected, w)) ∧
  Writer.m_status after_close = Writer.closed ∧
  Writer.write_Item byte_size Writer.nothing_fails Writer.one_item after_close =
    (Ok (),
     Writer.mk (Writer.m_output after_close)
       (Buffer_mem Writer.default_buffer_size false [Writer.one_item])
       Writer.default_buffer_size Writer.closed).
Proof.
  intros byte_size after_close. split_and!.
  - apply handle_status.
  - apply write_Buffer_rejected.
  - reflexivity.
  - vm_compute. reflexivity.
Qed.

(** ** The factory of output formats *)

Section factory_facts.
Import OutputFormatFactory.
Context {file_format : Type} `{Countable file_format}.
Context {File data_queue_type OutputFormat : Type}.
Context (format : File → file_format) (check : File → option failure).
Context (as_string : file_format → string).
Implicit Types (m_callbacks :
  gmap file_format (create_output_type (File:=File)
                      (data_queue_type:=data_queue_type)
                      (OutputFormat:=OutputFormat))).
Implicit Types (create_function : create_output_type (File:=File)
                                    (data_queue_type:=data_queue_type)
                                    (OutputFormat:=OutputFormat)).
Implicit Types (registrations :
  list (file_format * create_output_type (File:=File)
                        (data_queue_type:=data_queue_type)
                        (OutputFormat:=OutputFormat))).

Lemma register_all_lookup registrations : ∀ m_callbacks f,
  register_all registrations m_callbacks !! f =
    match m_callbacks !! f with
    | Some create_function => Some create_function
    | None => first_registration f registrations
    end.
Proof.
  unfold register_all, first_registration.
  induction registrations as [|[f' c] registrations IH]; intros m_callbacks f; simpl.
  - by destruct (m_callbacks !! f).
  - rewrite IH. unfold register_output_format. simpl.
    destruct (m_callbacks !! f') as [c'|] eqn:Hf'; simpl.
    + destruct (m_callbacks !! f) as [c''|] eqn:Hf; [done|].
      rewrite decide_False by congruence.
      by destruct (list_find _ registrations) as [[? [? ?]]|].
    + destruct (decide (f' = f)) as [->|Hne].
      * by rewrite lookup_insert_eq, Hf'.
      * rewrite lookup_insert_ne by done.
        destruct (m_callbacks !! f); [done|].
        by destruct (list_find _ registrations) as [[? [? ?]]|].
Qed.

Lemma registered_lookup registrations f :
  register_all registrations instance !! f = first_registration f registrations.
Proof.
  rewrite register_all_lookup. unfold instance. by rewrite lookup_empty.
Qed.

Lemma register_all_snoc registrations f create_function m_callbacks :
  register_all (registrations ++ [(f, create_function)]) m_callbacks =
    (register_output_format f create_function
       (register_all registrations m_callbacks)).2.
Proof. unfold register_all. by rewrite foldl_app. Qed.

(** X20 (OutputFormatFactory::register_output_format, create_output): the
    first registration for a format is the one that counts. After any
    registrations on a new factory, [create_output] for a file that passes
    [check] calls the function of the first registration for the format
    of the file, and throws "not compiled into this binary" when there is
    none; a registration returns true exactly when its format has not been
    registered before, and one that returns false changes nothing. *)
Theorem create_output_uses_first_registration registrations file output_queue :
  check file = None →
  create_output format check as_string file output_queue
    (register_all registrations instance) =
    match first_registration (format file) registrations with
    | Some create_function => Ok (create_function file output_queue)
    | None =>
        Fail (runtime_error
                ("Support for output format '" +:+ as_string (format file) +:+
                 "' not compiled into this binary."))
    end ∧
  ∀ f create_function,
    register_output_format f create_function (register_all registrations instance) =
      if bool_decide (f ∈ registrations.*1)
      then (false, register_all registrations instance)
      else (true, register_all (registrations ++ [(f, create_function)]) instance).
Proof.
  intros Hcheck. split.
  - unfold create_output. by rewrite Hcheck, registered_lookup.
  - intros f create_function. unfold register_output_format.
    rewrite registered_lookup. unfold first_registration.
    destruct (list_find (λ registration, registration.1 = f) registrations)
      as [[i [f' c]]|] eqn:Hfind; simpl.
    + apply list_find_Some in Hfind as (Hi & Hf & _). simpl in Hf. subst f'.
      rewrite bool_decide_eq_true_2; [done|].
      apply list_elem_of_fmap. exists (f, c). split; [done|].
      by eapply list_elem_of_lookup_2.
    + rewrite bool_decide_eq_false_2.
      * rewrite register_all_snoc. unfold register_output_format.
        rewrite registered_lookup. unfold first_registration. by rewrite Hfind.
      * intros Hin. apply list_elem_of_fmap in Hin as ([f' c] & -> & Hin).
        apply list_find_None in Hfind.
        by apply (proj1 (Forall_forall _ _) Hfind _ Hin).
Qed.

End factory_facts.

(** ** The writer: what reaches the output *)

Section writer_more_facts.
Import Writer.
Context (byte_size : Pbf.entity → Z).

Lemma written_items_app output1 output2 :
  written_items (output1 ++ output2) = written_items output1 ++ written_items output2.
Proof. unfold written_items. by rewrite fmap_app, concat_app. Qed.

Lemma written_items_buffers buffers :
  written_items (written_buffer <$> buffers) = concat (Buffer_items <$> buffers).
Proof.
  unfold written_items. f_equal. rewrite <-list_fmap_compose.
  by apply list_fmap_ext.
Qed.

Lemma committed_items buffer :
  (∀ item, 0 < byte_size item) →
  0 ≤ committed byte_size buffer ∧
  (¬ 0 < committed byte_size buffer → Buffer_items buffer = []).
Proof.
  intros Hpositive. unfold committed.
  destruct (Buffer_items buffer) as [|item items]; simpl; [done|].
  assert (0 ≤ foldr (λ item acc, byte_size item + acc) 0 items) as Hitems.
  { induction items as [|item' items IH]; simpl; [done|].
    specialize (Hpositive item'). lia. }
  specialize (Hpositive item). split; [lia|]. intros []. lia.
Qed.

(** [write] in a world where nothing fails. *)
Lemma write_in_use buffer w :
  (∀ item, 0 < byte_size item) →
  in_use byte_size w →
  ∃ w',
    write byte_size nothing_fails buffer w = (Ok (), w') ∧
    in_use byte_size w' ∧ m_buffer w' = m_buffer w ∧
    written_items (m_output w') = written_items (m_output w) ++ Buffer_items buffer.
Proof.
  intros Hpositive Hw.
  pose proof Hw as [Hstatus Hsize Hbuffer (buffers & Houtput & Hbuffers)].
  unfold write. rewrite bool_decide_eq_false_2 by (intros Hne; by apply Hne).
  simpl. case_bool_decide as Hdata.
  - eexists. split; [done|]. simpl. split_and!; [|done|].
    + split; simpl; try done. exists (buffers ++ [buffer]).
      rewrite Houtput, fmap_app. split; [done|]. apply Forall_app. by repeat constructor.
    + rewrite written_items_app. unfold written_items at 2. simpl.
      by rewrite app_nil_r.
  - exists w. split_and!; [done..|].
    destruct (committed_items buffer Hpositive) as [_ Hempty].
    by rewrite (Hempty Hdata), app_nil_r.
Qed.

(** [flush] in a world where nothing fails. *)
Lemma flush_in_use w :
  (∀ item, 0 < byte_size item) →
  in_use byte_size w →
  ∃ w',
    flush byte_size nothing_fails w = (Ok (), w') ∧
    in_use byte_size w' ∧
    written_items (m_output w') =
      written_items (m_output w) ++ Buffer_items (m_buffer w) ∧
    (m_buffer w' = Buffer_invalid ∧ m_buffer w = Buffer_invalid ∨
     m_buffer w' = Buffer_mem default_buffer_size false []).
Proof.
  intros Hpositive Hw. pose proof Hw as [Hstatus Hsize Hbuffer Houtput].
  unfold flush. rewrite Hstatus. rewrite bool_decide_eq_true_2 by done. simpl.
  destruct (Buffer_valid (m_buffer w)) eqn:Hvalid; simpl.
  - case_bool_decide as Hdata.
    + unfold mbind, action_bind, set_buffer, modify.
      edestruct (write_in_use (m_buffer w)
                   (mk (m_output w) (Buffer_mem (m_buffer_size w) false [])
                      (m_buffer_size w) (m_status w)))
        as (w' & -> & Hw' & Hbuffer' & Hitems); [done| |].
      { split; simpl; try done. right. exists []. by rewrite Hsize. }
      exists w'. split_and!; [done..|]. right. by rewrite Hbuffer', <-Hsize.
    + exists w. split_and!; [done..| |].
      * destruct (committed_items (m_buffer w) Hpositive) as [_ Hempty].
        by rewrite (Hempty Hdata), app_nil_r.
      * destruct Hbuffer as [Hinvalid|[items Hmem]]; [by rewrite Hinvalid in Hvalid|].
        right. rewrite Hmem in *. unfold committed in Hdata. simpl in Hdata.
        destruct items as [|item items]; [done|]. destruct Hdata.
        destruct (committed_items (Buffer_mem default_buffer_size false items) Hpositive)
          as [Hitems _].
        unfold committed in Hitems. simpl in *. specialize (Hpositive item). lia.
  - exists w. destruct (m_buffer w); [|done]. split_and!; [done..| |by left].
    by rewrite app_nil_r.
Qed.

(** One call of a user who writes and flushes, in a world where nothing
    fails. *)
Lemma handle_in_use r w :
  (∀ item, 0 < byte_size item) →
  in_use byte_size w → item_fits byte_size r → is_close r = false →
  ∃ w',
    handle byte_size nothing_fails r w = (Ok (), w') ∧
    in_use byte_size w' ∧
    written_items (m_output w') ++ Buffer_items (m_buffer w') =
      (written_items (m_output w) ++ Buffer_items (m_buffer w)) ++ request_items r.
Proof.
  intros Hpositive Hw Hfits Hclose. destruct r as [buffer|item| |]; [| | |done]; simpl.
  - (* a buffer *)
    unfold write_Buffer, mbind, action_bind.
    destruct (flush_in_use w Hpositive Hw) as (w1 & -> & Hw1 & Hitems1 & Hbuffer1).
    destruct (write_in_use buffer w1 Hpositive Hw1) as (w2 & -> & Hw2 & Hbuffer2 & Hitems2).
    exists w2. split_and!; [done..|].
    rewrite Hitems2, Hitems1, Hbuffer2.
    destruct Hbuffer1 as [[-> _]| ->]; simpl; by rewrite !app_nil_r.
  - (* an item *)
    simpl in Hfits. pose proof Hw as [Hstatus Hsize Hbuffer Houtput].
    assert (push_back byte_size item (Buffer_mem default_buffer_size false []) =
            Some (Buffer_mem default_buffer_size false [item])) as Hempty.
    { unfold push_back, committed. simpl. by rewrite bool_decide_eq_true_2 by lia. }
    unfold write_Item, ensure_buffer. unfold mbind at 1. unfold action_bind at 1.
    destruct Hbuffer as [Hinvalid|[items Hmem]].
    + rewrite Hinvalid. simpl. unfold try_push_back at 1. cbn [m_buffer].
      rewrite Hsize, Hempty. eexists. split; [done|]. simpl. split.
      * split; simpl; eauto.
      * by rewrite app_nil_r.
    + rewrite Hmem. simpl. unfold try_push_back at 1. rewrite Hmem.
      destruct (push_back byte_size item (Buffer_mem default_buffer_size false items))
        as [b|] eqn:Hpush.
      * unfold push_back in Hpush. simpl in Hpush.
        case_bool_decide; simplify_eq.
        eexists. split; [done|]. simpl. split.
        -- split; simpl; eauto.
        -- by rewrite app_assoc.
      * destruct (flush_in_use w Hpositive Hw) as (w1 & Hflush & Hw1 & Hitems1 & Hbuffer1).
        unfold mbind, action_bind. rewrite Hflush.
        destruct Hbuffer1 as [[_ Hinvalid]|Hbuffer1]; [congruence|].
        unfold try_push_back. rewrite Hbuffer1, Hempty.
        eexists. split; [done|]. simpl.
        pose proof Hw1 as [Hstatus1 Hsize1 _ Houtput1]. split.
        -- split; simpl; eauto.
        -- rewrite Hitems1. by rewrite Hmem.
  - (* flush *)
    destruct (flush_in_use w Hpositive Hw) as (w1 & -> & Hw1 & Hitems1 & Hbuffer1).
    exists w1. split_and!; [done..|]. rewrite Hitems1.
    destruct Hbuffer1 as [[-> _]| ->]; simpl; by rewrite !app_nil_r.
Qed.

Lemma serve_in_use requests : ∀ w,
  (∀ item, 0 < byte_size item) →
  in_use byte_size w →
  Forall (item_fits byte_size) requests →
  Forall (λ r, is_close r = false) requests →
  ∃ w',
    serve byte_size nothing_fails requests w = (Ok (), w') ∧
    in_use byte_size w' ∧
    written_items (m_output w') ++ Buffer_items (m_buffer w') =
      (written_items (m_output w) ++ Buffer_items (m_buffer w)) ++
        concat (request_items <$> requests).
Proof.
  unfold serve.
  induction requests as [|r requests IH]; intros w Hpositive Hw Hfit Hopen.
  - exists w. split_and!; [done..|]. by rewrite app_nil_r.
  - apply Forall_cons in Hfit as [Hr Hfit]. apply Forall_cons in Hopen as [Hc Hopen].
    destruct (handle_in_use r w Hpositive Hw Hr Hc) as (w1 & Hcall & Hw1 & Hitems1).
    destruct (IH w1 Hpositive Hw1 Hfit Hopen) as (w2 & Hrest & Hw2 & Hitems2).
    exists w2. cbn [for_each_do]. unfold mbind, action_bind. rewrite Hcall.
    split_and!; [done..|]. rewrite Hitems2, Hitems1. simpl. by rewrite <-!app_assoc.
Qed.

(** X21 (Writer::operator(), flush, close): what is written reaches the
    output, all of it, once, and in the order of the calls. When nothing
    fails and every item fits into an empty internal buffer, the calls of
    a user who writes buffers and items and flushes as they like, and then
    closes the writer, all return; the buffers handed to the output format
    hold the entities of the calls in the order of the calls, none of
    these buffers is empty, and [write_end] and the end-of-data mark
    follow the last one. *)
Theorem written_stream_is_preserved requests :
  (∀ item, 0 < byte_size item) →
  Forall (item_fits byte_size) requests →
  Forall (λ r, is_close r = false) requests →
  ∃ w buffers,
    (serve byte_size nothing_fails requests;; close byte_size nothing_fails) init =
      (Ok (), w) ∧
    m_status w = closed ∧
    m_output w = (written_buffer <$> buffers) ++ [written_end; queued_end_of_data] ∧
    Forall (λ buffer, 0 < committed byte_size buffer) buffers ∧
    concat (Buffer_items <$> buffers) = concat (request_items <$> requests).
Proof.
  intros Hpositive Hfit Hopen.
  destruct (serve_in_use requests init Hpositive) as (w1 & Hserve & Hw1 & Hitems);
    [|done..|].
  { split; simpl; eauto. exists []. by split. }
  simpl in Hitems.
  unfold mbind at 1. unfold action_bind at 1. rewrite Hserve.
  pose proof Hw1 as [Hstatus Hsize Hbuffer (buffers & Houtput & Hbuffers)].
  unfold close. rewrite bool_decide_eq_true_2 by done.
  destruct (Buffer_valid (m_buffer w1) &&
            bool_decide (0 < committed byte_size (m_buffer w1))) eqn:Hdata.
  - apply andb_true_iff in Hdata as [_ Hdata]. apply bool_decide_eq_true in Hdata.
    unfold mbind, action_bind.
    destruct (write_in_use (m_buffer w1) w1 Hpositive Hw1)
      as (w2 & -> & Hw2 & Hbuffer2 & Hitems2).
    pose proof Hw2 as [_ _ _ (buffers2 & Houtput2 & Hbuffers2)].
    eexists _, buffers2. split; [done|]. simpl. split_and!; [done| |done|].
    + by rewrite Houtput2, <-app_assoc.
    + by rewrite <-written_items_buffers, <-Houtput2, Hitems2.
  - unfold mbind, action_bind. simpl.
    eexists _, buffers. split; [done|]. simpl. split_and!; [done| |done|].
    + by rewrite Houtput, <-app_assoc.
    + rewrite <-Hitems, <-written_items_buffers, <-Houtput.
      assert (Buffer_items (m_buffer w1) = []) as ->; [|by rewrite app_nil_r].
      destruct (m_buffer w1) as [|capacity auto_grow items] eqn:Hb; [done|].
      simpl in Hdata. apply bool_decide_eq_false in Hdata.
      by apply (committed_items (Buffer_mem capacity auto_grow items)).
Qed.

Lemma ensure_buffer_spec w :
  ∃ w1,
    ensure_buffer w = (Ok (), w1) ∧
    m_status w1 = m_status w ∧ m_output w1 = m_output w ∧
    m_buffer_size w1 = m_buffer_size w ∧
    m_buffer w1 = if Buffer_valid (m_buffer w) then m_buffer w
                  else Buffer_mem (m_buffer_size w) false [].
Proof.
  unfold ensure_buffer. destruct (Buffer_valid (m_buffer w)); eexists; by split_and!.
Qed.

(** X22 (Writer::operator()(const Item&)): an item that does not fit into
    an empty internal buffer is refused with [buffer_is_full]. The entities
    buffered before it are handed to the output format by the [flush] of
    the call, the item itself is not, and the writer stays in use with an
    empty internal buffer. *)
Theorem item_larger_than_the_buffer_is_refused item w :
  (∀ item, 0 < byte_size item) →
  in_use byte_size w →
  default_buffer_size < byte_size item →
  ∃ w',
    write_Item byte_size nothing_fails item w = (Fail buffer_is_full, w') ∧
    in_use byte_size w' ∧
    m_buffer w' = Buffer_mem default_buffer_size false [] ∧
    written_items (m_output w') =
      written_items (m_output w) ++ Buffer_items (m_buffer w).
Proof.
  intros Hpositive Hw Hlarge. pose proof Hw as [Hstatus Hsize Hbuffer Houtput].
  assert (∀ items,
    push_back byte_size item (Buffer_mem default_buffer_size false items) = None)
    as Hfull.
  { intros items. unfold push_back. simpl.
    destruct (committed_items (Buffer_mem default_buffer_size false items) Hpositive)
      as [Hitems _].
    by rewrite bool_decide_eq_false_2 by lia. }
  unfold write_Item. unfold mbind at 1. unfold action_bind at 1.
  destruct (ensure_buffer_spec w) as (w1 & -> & Hstatus1 & Houtput1 & Hsize1 & Hbuffer1).
  assert (in_use byte_size w1 ∧
          (∃ items, m_buffer w1 = Buffer_mem default_buffer_size false items) ∧
          Buffer_items (m_buffer w1) = Buffer_items (m_buffer w))
    as (Hw1 & [items Hmem] & Hitems1).
  { destruct Hbuffer as [Hinvalid|[items Hmem]].
    - rewrite Hinvalid in Hbuffer1. simpl in Hbuffer1. rewrite Hsize in Hbuffer1.
      split_and!; [|by exists []|by rewrite Hbuffer1, Hinvalid].
      split; try congruence; [right; by exists []|by rewrite Houtput1].
    - rewrite Hmem in Hbuffer1. simpl in Hbuffer1. rewrite Hbuffer1, Hmem.
      split_and!; [|by exists items|done].
      split; try congruence; [right; exists items; congruence|by rewrite Houtput1]. }
  cbv beta iota. unfold try_push_back at 1. rewrite Hmem, Hfull.
  unfold mbind, action_bind.
  destruct (flush_in_use w1 Hpositive Hw1) as (w2 & -> & Hw2 & Hitems2 & Hbuffer2).
  destruct Hbuffer2 as [[_ Hinvalid]|Hbuffer2]; [congruence|].
  unfold try_push_back. rewrite Hbuffer2, Hfull.
  exists w2. split_and!; [done..|]. by rewrite Hitems2, Houtput1, Hitems1.
Qed.

(** *** A writer that is closed or has failed *)

Lemma handle_not_okay env r w :
  m_status w ≠ okay →
  ∃ res w',
    handle byte_size env r w = (res, w') ∧
    m_status w' = m_status w ∧
    m_output w' = m_output w ++ (if is_close r then [queued_end_of_data] else []).
Proof.
  intros Hstatus. destruct r as [buffer|item| |]; simpl.
  - rewrite write_Buffer_rejected by done. eexists _, _. split; [done|].
    by rewrite app_nil_r.
  - unfold write_Item. unfold mbind at 1. unfold action_bind at 1.
    destruct (ensure_buffer_spec w) as (w1 & -> & Hstatus1 & Houtput1 & _).
    rewrite <-Hstatus1, <-Houtput1. rewrite <-Hstatus1 in Hstatus.
    cbv beta iota. unfold try_push_back at 1.
    destruct (push_back byte_size item (m_buffer w1)); simpl.
    { eexists _, _. split; [done|]. by rewrite app_nil_r. }
    unfold mbind, action_bind.
    rewrite flush_not_okay by congruence.
    unfold try_push_back.
    destruct (push_back byte_size item (m_buffer w1)); simpl;
      eexists _, _; (split; [done|]); by rewrite app_nil_r.
  - rewrite flush_not_okay by done. eexists _, _. split; [done|].
    by rewrite app_nil_r.
  - unfold close. rewrite bool_decide_eq_false_2 by done.
    eexists _, _. split; [done|]. done.
Qed.

(** X23 (Writer::write, flush, operator(), close): once a writer is closed
    or has failed, it stays so, and no call hands anything to the output
    format any more, whatever the calls are and whether they return or
    throw: the output gets one end-of-data mark for every later call of
    [close] and nothing else. *)
Theorem nothing_is_written_once_not_okay calls w :
  m_status w ≠ okay →
  m_status (keep_calling byte_size calls w) = m_status w ∧
  m_output (keep_calling byte_size calls w) =
    m_output w ++
      replicate (length (filter (λ c, is_close c.2) calls)) queued_end_of_data.
Proof.
  revert w. induction calls as [|[env r] calls IH]; intros w Hstatus; simpl.
  - by rewrite app_nil_r.
  - destruct (handle_not_okay env r w Hstatus) as (res & w1 & -> & Hstatus1 & Houtput1).
    destruct (IH w1) as [Hstatus2 Houtput2]; [congruence|]. simpl.
    split; [congruence|]. rewrite Houtput2, Houtput1, <-app_assoc. f_equal.
    rewrite filter_cons. simpl. destruct (is_close r); simpl; done.
Qed.

(** X24 (Writer::write, flush, operator()(Buffer&&), close): an exception
    of the write thread is seen by the next call that has a buffer to hand
    to the output format, and by no other call. On a writer in status
    [okay], with the exception [e] in [m_write_future] and a [write_end]
    that returns: writing a buffer throws [e]; [flush] and [close] throw
    [e] when the internal buffer holds data, and then [flush] has dropped
    that data and [close] has not queued the end-of-data mark; in each of
    these calls the exception is queued, [write_end] is called, the status
    becomes [error] and no buffer reaches the output. With nothing in the
    internal buffer [flush] does nothing and [close] returns as on a
    writer whose write thread is well: status [closed], [write_end] and
    the end-of-data mark. *)
Theorem write_thread_failure_is_seen_by_next_write env e w :
  m_status w = okay →
  write_future env = Some e →
  write_end_throws env = None →
  let failed buffer :=
    mk (m_output w ++ [queued_exception e; written_end]) buffer (m_buffer_size w) error in
  (∀ buffer,
     write_Buffer byte_size env buffer w =
       (Fail e, failed (if has_data byte_size w
                        then Buffer_mem (m_buffer_size w) false []
                        else m_buffer w))) ∧
  flush byte_size env w =
    (if has_data byte_size w
     then (Fail e, failed (Buffer_mem (m_buffer_size w) false []))
     else (Ok (), w)) ∧
  close byte_size env w =
    (if has_data byte_size w
     then (Fail e, failed (m_buffer w))
     else (Ok (), mk (m_output w ++ [written_end; queued_end_of_data]) (m_buffer w)
                    (m_buffer_size w) closed)).
Proof.
  intros Hstatus Hfuture Hend failed.
  assert (∀ buffer w0, m_status w0 = okay →
            write byte_size env buffer w0 =
              (Fail e, mk (m_output w0 ++ [queued_exception e; written_end]) (m_buffer w0)
                          (m_buffer_size w0) error)) as Hwrite.
  { intros buffer w0 Hokay. unfold write.
    rewrite bool_decide_eq_false_2 by (by intros []).
    rewrite Hfuture. unfold write_catch, write_end. rewrite Hend.
    unfold mbind, action_bind, emit, set_status, modify, throw. simpl.
    by rewrite <-app_assoc. }
  assert (flush byte_size env w =
            (if has_data byte_size w
             then (Fail e, failed (Buffer_mem (m_buffer_size w) false []))
             else (Ok (), w))) as Hflush.
  { unfold flush, has_data. rewrite (bool_decide_eq_true_2 _ Hstatus). simpl.
    destruct (Buffer_valid (m_buffer w) &&
              bool_decide (0 < committed byte_size (m_buffer w))); [|done].
    unfold mbind, action_bind, set_buffer, modify. simpl. by rewrite Hwrite. }
  split_and!; [|done|].
  - intros buffer. unfold write_Buffer, mbind, action_bind. rewrite Hflush.
    destruct (has_data byte_size w); [done|]. by rewrite Hwrite.
  - unfold close, has_data. rewrite (bool_decide_eq_true_2 _ Hstatus).
    destruct (Buffer_valid (m_buffer w) &&
              bool_decide (0 < committed byte_size (m_buffer w))).
    + unfold mbind, action_bind. by rewrite Hwrite.
    + unfold write_end. rewrite Hend.
      unfold mbind, action_bind, mret, action_ret, emit, set_status, modify. simpl.
      by rewrite <-app_assoc.
Qed.

End writer_more_facts.

(** ** The theorems at concrete inputs *)

Section concrete_inputs.
Import SortedQueue.

Lemma calls_well_used : well_used (calls_before ++ calls_after).
Proof.
  split.
  - repeat constructor; unfold Int.is_size_t; simpl; lia.
  - unfold push_nums. simpl. repeat constructor; set_solver.
Defined.

Lemma pops_in_ascending_sequence_number_witness :
  well_used (calls_before ++ calls_after) ∧
  run calls_before init = Some (queue_between, [buffer_0]) ∧
  run calls_after queue_between = Some (queue_at_end, [buffer_1]) ∧
  m_offset queue_between = Int.size_t 1 ∧
  [Some buffer_0] = [pushed (calls_before ++ calls_after) !! 0] ∧
  [Some buffer_1] = [pushed (calls_before ++ calls_after) !! 1].
Proof.
  split; [exact calls_well_used|]. split; [reflexivity|]. split; [reflexivity|].
  exact (pops_in_ascending_sequence_number calls_before calls_after
           queue_between [buffer_0] queue_at_end [buffer_1]
           calls_well_used eq_refl eq_refl).
Defined.

Lemma back_slot_only_well_used : well_used calls_back_slot_only.
Proof.
  split.
  - repeat constructor; unfold Int.is_size_t; simpl; lia.
  - unfold push_nums. simpl. repeat constructor; set_solver.
Defined.

Lemma empty_iff_front_slot_unfilled_witness :
  well_used calls_back_slot_only ∧
  run calls_back_slot_only init = Some (queue_back_slot_only, []) ∧
  m_offset queue_back_slot_only = Int.size_t 0 ∧
  empty queue_back_slot_only =
    Some (bool_decide (pushed calls_back_slot_only !! 0 = None)).
Proof.
  split; [exact back_slot_only_well_used|]. split; [reflexivity|].
  exact (empty_iff_front_slot_unfilled calls_back_slot_only queue_back_slot_only []
           back_slot_only_well_used eq_refl).
Defined.

Lemma front_slot_always_exists_witness :
  well_used (calls_before ++ calls_after) ∧
  run (calls_before ++ calls_after) init = Some (queue_at_end, [buffer_0; buffer_1]) ∧
  m_queue queue_at_end ≠ [] ∧
  last (m_queue queue_at_end) = Some Buffer_invalid.
Proof.
  split; [exact calls_well_used|]. split; [reflexivity|].
  pose proof (front_slot_always_exists (calls_before ++ calls_after) queue_at_end
                [buffer_0; buffer_1] calls_well_used eq_refl) as (Hne & Hlast & _).
  exact (conj Hne Hlast).
Defined.

Lemma blob_payload_dispatch_witness :
  @Blob_ParseFromArray toy_protobuf [] = Some toy_blob ∧
  @BlobParser.call toy_protobuf toy_zlib true Header.t
    (@HeaderBlobParser.handle_blob toy_protobuf) [] new_header =
  @HeaderBlobParser.handle_blob toy_protobuf [] new_header.
Proof.
  split; [reflexivity|].
  exact (proj1 (@blob_payload_dispatch toy_protobuf toy_zlib true Header.t
                  (@HeaderBlobParser.handle_blob toy_protobuf) [] toy_blob new_header
                  eq_refl) [] eq_refl).
Defined.

Lemma toy_features_accepted :
  Forall HeaderBlobParser.accepted_feature (Fileformat.headerblock_required_features toy_header_block).
Proof. repeat constructor; unfold HeaderBlobParser.accepted_feature; set_solver. Defined.

Lemma required_features_check_witness :
  @HeaderBlock_ParseFromArray toy_protobuf [] = Some toy_header_block ∧
  ∃ header',
    @HeaderBlobParser.handle_blob toy_protobuf [] new_header = (Ok (), header') ∧
    Header.pbf_has_dense_nodes header' = true ∧
    Header.has_multiple_object_versions header' = false.
Proof.
  split; [reflexivity|].
  exact (proj1 (proj2 (@required_features_check toy_protobuf toy_zlib [] toy_header_block
                         new_header eq_refl)) toy_features_accepted).
Defined.

(** The file of two data blobs, read by two pool threads. *)
Lemma two_blobs_decode :
  Forall (λ ib, @PBFInput.decodes_to toy_data_protobuf toy_zlib true
                  PBFInput.item_flags_all ib.1 ib.2) two_blobs.
Proof.
  apply Forall_cons; split; [|apply Forall_cons; split; [|by apply Forall_nil]]; simpl.
  - by eapply (@decodes_raw toy_data_protobuf toy_zlib true PBFInput.item_flags_all).
  - by eapply (@decodes_raw toy_data_protobuf toy_zlib true PBFInput.item_flags_all).
Defined.

Lemma two_blobs_on_file :
  @PBFInput.data_blobs toy_data_protobuf toy_zlib true PBFInput.item_flags_all
    two_blob_file two_blobs.
Proof.
  pose proof two_blobs_decode as Hdecode.
  apply Forall_cons in Hdecode as [Hfirst Hdecode].
  apply Forall_cons in Hdecode as [Hsecond _].
  eapply PBFInput.data_blobs_blob; [reflexivity|done|reflexivity|exact Hfirst|].
  eapply PBFInput.data_blobs_blob; [reflexivity|done|reflexivity|exact Hsecond|].
  eapply PBFInput.data_blobs_end. reflexivity.
Defined.

Lemma next_buffer_in_file_order_and_may_block_witness :
  @PBFInput.data_blobs toy_data_protobuf toy_zlib true PBFInput.item_flags_all
    two_blob_file two_blobs ∧
  (∀ schedule st,
     @PBFInput.steps toy_data_protobuf toy_zlib true 2 PBFInput.item_flags_all schedule
       (PBFInput.after_read PBFInput.item_flags_all two_blob_file) = Some st →
     PBFInput.in_file_order two_blobs (PBFInput.returned st)) ∧
  (∃ st,
     @PBFInput.steps toy_data_protobuf toy_zlib true 2 PBFInput.item_flags_all
       (PBFInput.reader_ahead_at_the_end 2 2)
       (PBFInput.after_read PBFInput.item_flags_all two_blob_file) = Some st ∧
     PBFInput.returned st = two_blobs.*2 ++ [Buffer_invalid] ∧
     PBFInput.caller st = PBFInput.caller_outside) ∧
  (∃ st,
     @PBFInput.steps toy_data_protobuf toy_zlib true 2 PBFInput.item_flags_all
       (PBFInput.caller_ahead_at_the_end 2 2)
       (PBFInput.after_read PBFInput.item_flags_all two_blob_file) = Some st ∧
     PBFInput.returned st = two_blobs.*2 ∧
     PBFInput.m_done st = true ∧ PBFInput.m_pending_jobs st = 0 ∧
     PBFInput.caller st = PBFInput.caller_in_wait_and_pop ∧
     @PBFInput.stuck toy_data_protobuf toy_zlib true 2 PBFInput.item_flags_all st).
Proof.
  split; [exact two_blobs_on_file|].
  apply (@next_buffer_in_file_order_and_may_block toy_data_protobuf toy_zlib true 2
           PBFInput.item_flags_all two_blob_file two_blobs two_blobs_on_file).
  - reflexivity.
  - lia.
  - discriminate.
Defined.

(** *** The sorted queue *)


Lemma pushes_commute_witness :
  size (init (T:=Buffer)) < 2 ^ 64 ∧
  Int.size_t (0 - m_offset (init (T:=Buffer))) ≠
    Int.size_t (1 - m_offset (init (T:=Buffer))) ∧
  push buffer_0 0 init = Returns () queue_with_0 ∧
  push buffer_1 1 queue_with_0 = Returns () queue_with_0_and_1 ∧
  ∃ q2, push buffer_1 1 init = Returns () q2 ∧
        push buffer_0 0 q2 = Returns () queue_with_0_and_1.
Proof.
  assert (Int.size_t (0 - m_offset (init (T:=Buffer))) ≠
          Int.size_t (1 - m_offset (init (T:=Buffer)))) as Hne by (vm_compute; lia).
  split; [reflexivity|]. split; [exact Hne|]. split; [reflexivity|].
  split; [reflexivity|].
  exact (pushes_commute buffer_0 0 buffer_1 1 init queue_with_0 queue_with_0_and_1
           eq_refl Hne eq_refl eq_refl).
Defined.

Lemma pushed_values_are_handed_out_or_wait_witness :
  well_used (calls_before ++ calls_after) ∧
  run (calls_before ++ calls_after) init = Some (queue_at_end, [buffer_0; buffer_1]) ∧
  (∀ num value,
     pushed (calls_before ++ calls_after) !! num = Some value →
     if bool_decide (num < Z.of_nat (length [buffer_0; buffer_1]))
     then [buffer_0; buffer_1] !! Z.to_nat num = Some value
     else m_queue queue_at_end !!
            Z.to_nat (num - Z.of_nat (length [buffer_0; buffer_1])) = Some value) ∧
  (∀ (i : nat) x,
     m_queue queue_at_end !! i = Some x →
     x = default Buffer_invalid
           (pushed (calls_before ++ calls_after) !!
              (Z.of_nat (length [buffer_0; buffer_1]) + Z.of_nat i))).
Proof.
  split; [exact calls_well_used|]. split; [reflexivity|].
  exact (pushed_values_are_handed_out_or_wait (calls_before ++ calls_after)
           queue_at_end [buffer_0; buffer_1] calls_well_used eq_refl).
Defined.

(** *** The decoder *)

Lemma way_node_refs_are_running_sums_witness :
  ∃ e,
    Pbf.parse_way s2_parser toy_way = Ok e ∧
    ∃ o nodes,
      e = Pbf.a_way o nodes ∧
      nodes = (λ i, Int.int64 (Pbf.running_sum (Pbf.way_refs toy_way) i)) <$>
                seq 0 (length (Pbf.way_refs toy_way)) ∧
      ((∀ i, (i < length (Pbf.way_refs toy_way))%nat →
             Int.is_int64 (Pbf.running_sum (Pbf.way_refs toy_way) i)) →
       nodes = Pbf.running_sum (Pbf.way_refs toy_way) <$>
                 seq 0 (length (Pbf.way_refs toy_way))).
Proof.
  eexists. split; [reflexivity|].
  exact (way_node_refs_are_running_sums s2_parser toy_way _ eq_refl).
Defined.

Lemma relation_members_by_index_witness :
  ∃ e,
    Pbf.parse_relation s2_parser toy_relation = Ok e ∧
    ∃ o members,
      e = Pbf.a_relation o members ∧
      length members = length (Pbf.relation_types toy_relation) ∧
      ∀ (i : nat) m, members !! i = Some m →
        ∃ type role_sid,
          Pbf.relation_types toy_relation !! i = Some type ∧
          Pbf.relation_roles_sid toy_relation !! i = Some role_sid ∧
          Pbf.member_type m = Pbf.osmpbf_membertype_to_item_type type ∧
          Pbf.stringtable_s s2_parser role_sid = Ok (Pbf.member_role m) ∧
          Pbf.member_ref m =
            Int.int64 (Pbf.running_sum (Pbf.relation_memids toy_relation) i).
Proof.
  eexists. split; [reflexivity|].
  exact (relation_members_by_index s2_parser toy_relation _ eq_refl).
Defined.

Lemma dense_nodes_are_running_sums_witness :
  ∃ buffer',
    Pbf.parse_dense_node_group s2_parser Pbf.s2_dense [] = Ok buffer' ∧
    ∃ es,
      buffer' = [] ++ es ∧ length es = length (Pbf.dense_id Pbf.s2_dense) ∧
      ∀ (i : nat) e, es !! i = Some e →
        ∃ o, e = Pbf.a_node o
                   (if Pbf.visible o
                    then Pbf.make_location s2_parser
                           (Int.int64 (Pbf.running_sum (Pbf.dense_lon Pbf.s2_dense) i))
                           (Int.int64 (Pbf.running_sum (Pbf.dense_lat Pbf.s2_dense) i))
                    else Pbf.Location_undefined) ∧
          Pbf.id o = Int.int64 (Pbf.running_sum (Pbf.dense_id Pbf.s2_dense) i) ∧
          match Pbf.dense_denseinfo Pbf.s2_dense with
          | Some denseinfo =>
              Pbf.changeset o =
                Int.int64 (Pbf.running_sum (Pbf.denseinfo_changeset denseinfo) i) ∧
              Pbf.timestamp o =
                Int.int64
                  (Int.int64 (Pbf.running_sum (Pbf.denseinfo_timestamp denseinfo) i) *
                   Pbf.m_date_factor s2_parser) ∧
              Pbf.uid o = Int.int64 (Pbf.running_sum (Pbf.denseinfo_uid denseinfo) i) ∧
              Pbf.stringtable_s s2_parser
                (Int.int64 (Pbf.running_sum (Pbf.denseinfo_user_sid denseinfo) i)) =
                Ok (Pbf.user o) ∧
              Pbf.denseinfo_version denseinfo !! i = Some (Pbf.version o)
          | None =>
              Pbf.changeset o = 0 ∧ Pbf.timestamp o = 0 ∧ Pbf.uid o = 0 ∧
              Pbf.user o = EmptyString ∧ Pbf.version o = 0 ∧ Pbf.visible o = true
          end.
Proof.
  eexists. split; [reflexivity|].
  exact (dense_nodes_are_running_sums s2_parser Pbf.s2_dense [] _ eq_refl).
Defined.

Lemma only_requested_types_are_decoded_witness :
  ∃ items,
    Pbf.parse_primitive_block (Some Pbf.s2_block) Pbf.item_flags_node = Ok items ∧
    Forall (λ e, Pbf.has_flag Pbf.item_flags_node (Pbf.entity_flag e) = true) items ∧
    (Pbf.item_flags_node = Pbf.item_flags_nothing → items = []).
Proof.
  eexists. split; [reflexivity|].
  exact (only_requested_types_are_decoded (Some Pbf.s2_block) Pbf.item_flags_node _
           eq_refl).
Defined.

Lemma empty_group_is_of_unknown_type :
  Pbf.group_of_unknown_type
    {| Pbf.group_nodes := []; Pbf.group_dense := None;
       Pbf.group_ways := []; Pbf.group_relations := [] |}.
Proof. by split_and!. Defined.

Lemma group_of_unknown_type_fails_witness :
  (∃ e, Pbf.parse_primitive_block (Some block_with_empty_group)
          Pbf.item_flags_nothing = Fail e) ∧
  (∀ buffer,
     for_each (Pbf.parse_group
                 (Pbf.parser_for block_with_empty_group Pbf.item_flags_nothing))
       (Pbf.block_primitivegroup Pbf.s2_block) [] = Ok buffer →
     Pbf.parse_primitive_block (Some block_with_empty_group) Pbf.item_flags_nothing =
       Fail (runtime_error "Group of unknown type.")).
Proof.
  exact (group_of_unknown_type_fails block_with_empty_group Pbf.item_flags_nothing
           (Pbf.block_primitivegroup Pbf.s2_block) _ [] eq_refl
           empty_group_is_of_unknown_type).
Defined.

Lemma standard_granularity_keeps_coordinates_witness :
  ∃ e,
    Pbf.parse_node s2_parser toy_node = Ok e ∧
    ∃ o, e = Pbf.a_node o
               (if Pbf.visible o
                then Pbf.Location_xy (Pbf.node_lon toy_node) (Pbf.node_lat toy_node)
                else Pbf.Location_undefined).
Proof.
  eexists. split; [reflexivity|].
  apply (standard_granularity_keeps_coordinates s2_parser toy_node);
    first [reflexivity|unfold Int.is_int64; simpl; lia].
Defined.

Lemma decoded_strings_end_at_first_NUL_witness :
  Pbf.stringtable_s parser_with_NUL 1 = Ok "a"%string ∧
  ∃ entry rest,
    Pbf.m_stringtable parser_with_NUL !! Z.to_nat (Int.int32 1) = Some entry ∧
    entry = ("a" +:+ rest)%string ∧ Pbf.has_NUL "a" = false ∧
    (Pbf.has_NUL entry = false → "a"%string = entry) ∧
    (Pbf.has_NUL entry = true → ∃ rest', rest = String Pbf.NUL rest').
Proof.
  split; [reflexivity|].
  exact (decoded_strings_end_at_first_NUL parser_with_NUL 1 "a" eq_refl).
Defined.

(** *** Blobs and the header *)

Lemma unsupported_feature_leaves_earlier_flags_witness :
  @HeaderBlock_ParseFromArray unsupported_protobuf [] = Some unsupported_header_block ∧
  @HeaderBlobParser.handle_blob unsupported_protobuf [] new_header =
    (Fail (runtime_error "Required feature not supported: Sort.Type_then_ID"),
     HeaderBlobParser.with_features ["DenseNodes"%string] new_header).
Proof.
  split; [reflexivity|].
  apply (@unsupported_feature_leaves_earlier_flags unsupported_protobuf [] 
           unsupported_header_block new_header ["DenseNodes"%string]
           "Sort.Type_then_ID"%string ["HistoricalInformation"%string]).
  - reflexivity.
  - reflexivity.
  - repeat constructor.
  - unfold HeaderBlobParser.accepted_feature. set_solver.
Defined.

Lemma raw_size_limit_is_only_asserted_witness :
  @inflate large_zlib [] = Some large_data ∧
  Z.of_nat (length large_data) = Fileformat.blob_raw_size large_blob ∧
  Fileformat.max_uncompressed_blob_size < Fileformat.blob_raw_size large_blob ∧
  @BlobParser.call large_protobuf large_zlib true (list bytes)
     (λ data, modify (λ handed, handed ++ [data])) [] [] =
    (Ok (), [large_data]) ∧
  @BlobParser.call large_protobuf large_zlib false (list bytes)
     (λ data, modify (λ handed, handed ++ [data])) [] [] =
    (Fail assertion_failed, []).
Proof.
  assert (Z.of_nat (length large_data) = Fileformat.blob_raw_size large_blob) as Hlength.
  { unfold large_data. rewrite length_replicate. apply Z2Nat.id. by vm_compute. }
  split; [reflexivity|]. split; [exact Hlength|]. split; [reflexivity|].
  apply (@raw_size_limit_is_only_asserted large_protobuf large_zlib (list bytes)
           (λ data, modify (λ handed, handed ++ [data])) [] large_blob [] large_data []
           eq_refl eq_refl eq_refl eq_refl Hlength).
  - split; by vm_compute.
  - reflexivity.
Defined.

(** *** The reading pipeline *)

Lemma frame_is_consumed_witness :
  @PBFInput.read_blob_header toy_data_protobuf two_blob_file "OSMData" =
    Ok (1, [Byte.x01] ++ data_blob_frame Byte.x00) ∧
  PBFInput.new_BlobParser 1 ([Byte.x01] ++ data_blob_frame Byte.x00) =
    Ok ([Byte.x01], data_blob_frame Byte.x00).
Proof.
  apply (@frame_is_consumed toy_data_protobuf
           [Byte.x00; Byte.x00; Byte.x00; Byte.x01] [Byte.x00] [Byte.x01]
           (data_blob_frame Byte.x00) toy_blob_header "OSMData").
  - reflexivity.
  - reflexivity.
  - by vm_compute.
  - reflexivity.
  - reflexivity.
  - reflexivity.
  - by vm_compute.
Defined.

Lemma pool_queue_is_bounded_witness :
  ∃ st,
    @PBFInput.steps toy_data_protobuf toy_zlib true 2 PBFInput.item_flags_all
      [PBFInput.reader_step; PBFInput.reader_step; PBFInput.reader_step]
      (PBFInput.after_read PBFInput.item_flags_all two_blob_file) = Some st ∧
    Z.of_nat (length (PBFInput.work_queue st)) ≤
      1 `max` PBFInput.m_max_work_queue_size 2 ∧
    Forall (λ j, Z.of_nat (length (PBFInput.job_input_buffer j)) ≤
                   Fileformat.max_uncompressed_blob_size) (PBFInput.work_queue st) ∧
    (2 = 0 → PBFInput.work_queue st = []).
Proof.
  eexists. split; [reflexivity|].
  exact (@pool_queue_is_bounded toy_data_protobuf toy_zlib true 2
           PBFInput.item_flags_all two_blob_file
           [PBFInput.reader_step; PBFInput.reader_step; PBFInput.reader_step] _ eq_refl).
Defined.

Lemma size_zero_ends_the_input_witness :
  @PBFInput.read_blob_header sized_protobuf size_zero_file "OSMData" =
    Ok (0, [Byte.x00; Byte.x00; Byte.x00; Byte.x01; Byte.x01; Byte.x07]) ∧
  ∃ st,
    @PBFInput.steps sized_protobuf toy_zlib true 2 PBFInput.item_flags_all
      [PBFInput.reader_step; PBFInput.caller_step]
      (PBFInput.after_read PBFInput.item_flags_all size_zero_file) = Some st ∧
    Forall (λ buffer, buffer = Buffer_invalid) (PBFInput.returned st) ∧
    PBFInput.work_queue st = [] ∧ PBFInput.m_queue st = SortedQueue.init ∧
    (PBFInput.fd st = size_zero_file ∨
     PBFInput.fd st = [Byte.x00; Byte.x00; Byte.x00; Byte.x01; Byte.x01; Byte.x07]).
Proof.
  split; [reflexivity|]. eexists. split; [reflexivity|].
  apply (@size_zero_ends_the_input sized_protobuf toy_zlib true 2
           PBFInput.item_flags_all size_zero_file
           [Byte.x00; Byte.x00; Byte.x00; Byte.x01; Byte.x01; Byte.x07]
           [PBFInput.reader_step; PBFInput.caller_step]).
  - reflexivity.
  - discriminate.
  - reflexivity.
Defined.

Lemma next_buffer_after_reading_nothing_witness :
  ∃ st,
    @PBFInput.steps toy_data_protobuf toy_zlib true 2 Pbf.item_flags_nothing
      [PBFInput.caller_step]
      (PBFInput.after_read Pbf.item_flags_nothing two_blob_file) = Some st ∧
    PBFInput.returned st = [] ∧ PBFInput.fd st = two_blob_file ∧
    PBFInput.m_done st = false ∧
    ∃ st',
      @PBFInput.steps toy_data_protobuf toy_zlib true 2 Pbf.item_flags_nothing
        [PBFInput.caller_step]
        (PBFInput.after_read Pbf.item_flags_nothing two_blob_file) = Some st' ∧
      PBFInput.caller st' = PBFInput.caller_in_wait_and_pop ∧
      @PBFInput.stuck toy_data_protobuf toy_zlib true 2 Pbf.item_flags_nothing st'.
Proof.
  eexists. split; [reflexivity|].
  exact (@next_buffer_after_reading_nothing toy_data_protobuf toy_zlib true 2
           two_blob_file [PBFInput.caller_step] _ eq_refl).
Defined.


(** *** The factory and the writer *)

Lemma create_output_uses_first_registration_witness :
  OutputFormatFactory.create_output id (λ _, None)
    (λ f : bool, if f then "pbf" else "xml")%string true ()
    (OutputFormatFactory.register_all toy_registrations OutputFormatFactory.instance) =
    Ok 1%nat.
Proof.
  exact (proj1 (create_output_uses_first_registration id (λ _, None)
                  (λ f : bool, if f then "pbf" else "xml")%string
                  toy_registrations true () eq_refl)).
Defined.

Lemma small_items_are_positive : ∀ item, 0 < small_items item.
Proof. intros item. reflexivity. Defined.

Lemma written_stream_is_preserved_witness :
  ∃ w buffers,
    (Writer.serve small_items Writer.nothing_fails toy_requests;;
     Writer.close small_items Writer.nothing_fails) Writer.init = (Ok (), w) ∧
    Writer.m_status w = Writer.closed ∧
    Writer.m_output w =
      (Writer.written_buffer <$> buffers) ++
        [Writer.written_end; Writer.queued_end_of_data] ∧
    Forall (λ buffer, 0 < Writer.committed small_items buffer) buffers ∧
    concat (Buffer_items <$> buffers) = concat (Writer.request_items <$> toy_requests).
Proof.
  apply (written_stream_is_preserved small_items toy_requests).
  - exact small_items_are_positive.
  - repeat constructor; by vm_compute.
  - repeat constructor.
Defined.

Lemma new_writer_is_in_use byte_size : Writer.in_use byte_size Writer.init.
Proof.
  split; simpl; [done|done|by left|]. exists []. by split.
Defined.

Lemma large_items_are_positive : ∀ item, 0 < large_items item.
Proof. intros item. reflexivity. Defined.

Lemma item_larger_than_the_buffer_is_refused_witness :
  ∃ w',
    Writer.write_Item large_items Writer.nothing_fails Writer.one_item Writer.init =
      (Fail buffer_is_full, w') ∧
    Writer.in_use large_items w' ∧
    Writer.m_buffer w' = Buffer_mem Writer.default_buffer_size false [] ∧
    Writer.written_items (Writer.m_output w') =
      Writer.written_items (Writer.m_output Writer.init) ++
        Buffer_items (Writer.m_buffer Writer.init).
Proof.
  apply (item_larger_than_the_buffer_is_refused large_items Writer.one_item Writer.init).
  - exact large_items_are_positive.
  - exact (new_writer_is_in_use large_items).
  - reflexivity.
Defined.

Lemma nothing_is_written_once_not_okay_witness :
  Writer.m_status closed_writer = Writer.closed ∧
  Writer.m_status (Writer.keep_calling small_items calls_after_close closed_writer) =
    Writer.m_status closed_writer ∧
  Writer.m_output (Writer.keep_calling small_items calls_after_close closed_writer) =
    Writer.m_output closed_writer ++
      replicate (length (filter (λ c, Writer.is_close c.2) calls_after_close))
        Writer.queued_end_of_data.
Proof.
  split; [reflexivity|].
  apply (nothing_is_written_once_not_okay small_items calls_after_close closed_writer).
  discriminate.
Defined.

Lemma write_thread_failure_is_seen_by_next_write_witness :
  Writer.m_status writer_with_one_item = Writer.okay ∧
  Writer.close small_items write_thread_failed writer_with_one_item =
    (Fail (runtime_error "write failed"),
     Writer.mk [Writer.queued_exception (runtime_error "write failed"); Writer.written_end]
       (Buffer_mem Writer.default_buffer_size false [Writer.one_item])
       Writer.default_buffer_size Writer.error).
Proof.
  split; [reflexivity|].
  exact (proj2 (proj2 (write_thread_failure_is_seen_by_next_write small_items
                         write_thread_failed (runtime_error "write failed")
                         writer_with_one_item eq_refl eq_refl eq_refl))).
Defined.

End concrete_inputs.
